(** * DEMON music bot: the queue/session engine and its durable store

    A shallow embedding of [src/system.py] (the SQLite store, the guild
    session and the music controller) and of the message handler of
    [src/main.py], followed by the properties of the specification that
    are settled against it.

    Conventions of the embedding.
    - Python [int] is [Z], [str] is [string], [Optional[T]] is [option T],
      a [float] is a primitive binary64 [float].  The text of a chat
      message, which users type, is the list of its Unicode code points.
    - A table with a primary key that is only ever addressed by that key is
      a [gmap]; a table whose row order matters is a [list] of rows.
    - Every coroutine is run to completion: the value of a handler is the
      state it leaves behind.  Where a property is about what can be seen
      between two awaits ([save_queue]), the committed states are listed
      one by one.
    - Readings of the outside world (clocks, the id of a message that was
      just sent, the result of a search) are arguments.
    - A raised exception is [None] in the [option] monad. *)

From Stdlib Require Import ZArith Ascii String Floats.PrimFloat.
From stdpp Require Import gmap strings list pretty.

Set Warnings "-inexact-float".
Open Scope Z_scope.

(** ** Python truthiness of optional column values *)

(** [x or d] for an optional string: [None] and the empty string are falsy. *)
Definition or_str (x : option string) (d : string) : string :=
  match x with
  | Some s => if decide (s = EmptyString) then d else s
  | None => d
  end.

(** [x or d] for an optional integer: [None] and [0] are falsy. *)
Definition or_int (x : option Z) (d : Z) : Z :=
  match x with
  | Some z => if decide (z = 0) then d else z
  | None => d
  end.

(** [x or y] where both sides are optional integers (the value of [y] is
    returned as it is when [x] is falsy). *)
Definition or_opt (x y : option Z) : option Z :=
  match x with
  | Some z => if decide (z = 0) then y else Some z
  | None => y
  end.

(** [not x] for an optional integer. *)
Definition falsy (x : option Z) : bool :=
  match x with
  | Some z => bool_decide (z = 0)
  | None => true
  end.

(** [enumerate(l)], counting from [k]. *)
Fixpoint enumerate_from {A : Type} (k : Z) (l : list A) : list (Z * A) :=
  match l with
  | [] => []
  | x :: l' => (k, x) :: enumerate_from (k + 1) l'
  end.

Definition enumerate {A : Type} (l : list A) : list (Z * A) := enumerate_from 0 l.

(** ** The durable store ([SQLiteStore]) *)

Module Store.

(** [@dataclass StoredTrack] *)
Record StoredTrack := {
  st_title : string;
  st_uri : string;
  st_author : string;
  st_length : Z;
  st_artwork : option string;
  st_requester_id : Z;
}.

(** A row of [guild_settings]; every column but the key is nullable. *)
Record SettingsRow := {
  gs_dj_role_id : option Z;
  gs_volume : option Z;
  gs_idle_timeout : option Z;
  gs_last_text_channel : option Z;
  gs_player_message_id : option Z;
}.

(** The row that [INSERT INTO guild_settings(guild_id)] creates. *)
Definition default_settings : SettingsRow :=
  {| gs_dj_role_id := None; gs_volume := Some 100; gs_idle_timeout := Some 120;
     gs_last_text_channel := None; gs_player_message_id := None |}.

(** A row of [persistent_queue]; [title] and [uri] are [NOT NULL]. *)
Record QueueRow := {
  q_guild_id : Z;
  q_position : Z;
  q_title : string;
  q_uri : string;
  q_author : option string;
  q_length : option Z;
  q_artwork : option string;
  q_requester_id : option Z;
}.

Record HistoryRow := {
  h_guild_id : Z;
  h_title : string;
  h_uri : string;
  h_requester_id : Z;
  h_played_at : string;
}.

Record ErrorRow := {
  e_guild_id : option Z;
  e_context : string;
  e_error : string;
  e_created_at : string;
}.

(** The database file: one field per table.  The two append-only tables
    are kept in insertion order, which is the order of their
    autoincremented ids. *)
Record DB := {
  guild_settings : gmap Z SettingsRow;
  persistent_queue : list QueueRow;
  playback_history : list HistoryRow;
  error_logs : list ErrorRow;
  command_cooldowns : gmap (Z * Z * string) float;
}.

Definition empty_db : DB :=
  {| guild_settings := ∅; persistent_queue := []; playback_history := [];
     error_logs := []; command_cooldowns := ∅ |}.

Definition with_guild_settings (v : gmap Z SettingsRow) (db : DB) : DB :=
  {| guild_settings := v; persistent_queue := persistent_queue db;
     playback_history := playback_history db; error_logs := error_logs db;
     command_cooldowns := command_cooldowns db |}.

Definition with_persistent_queue (v : list QueueRow) (db : DB) : DB :=
  {| guild_settings := guild_settings db; persistent_queue := v;
     playback_history := playback_history db; error_logs := error_logs db;
     command_cooldowns := command_cooldowns db |}.

Definition with_playback_history (v : list HistoryRow) (db : DB) : DB :=
  {| guild_settings := guild_settings db; persistent_queue := persistent_queue db;
     playback_history := v; error_logs := error_logs db;
     command_cooldowns := command_cooldowns db |}.

Definition with_error_logs (v : list ErrorRow) (db : DB) : DB :=
  {| guild_settings := guild_settings db; persistent_queue := persistent_queue db;
     playback_history := playback_history db; error_logs := v;
     command_cooldowns := command_cooldowns db |}.

Definition with_command_cooldowns (v : gmap (Z * Z * string) float) (db : DB) : DB :=
  {| guild_settings := guild_settings db; persistent_queue := persistent_queue db;
     playback_history := playback_history db; error_logs := error_logs db;
     command_cooldowns := v |}.

(** *** The statements that [_execute] runs

    Each one is executed and committed on its own under the store lock
    ([_execute] / [_execute_sync]). *)

(** [DELETE FROM persistent_queue WHERE guild_id = ?] *)
Definition delete_queue (g : Z) (db : DB) : DB :=
  with_persistent_queue (filter (λ r, q_guild_id r ≠ g) (persistent_queue db)) db.

(** [PRIMARY KEY (guild_id, position)] *)
Definition key_taken (g pos : Z) (rows : list QueueRow) : bool :=
  existsb (λ r, (q_guild_id r =? g) && (q_position r =? pos)) rows.

Definition queue_row (g pos : Z) (t : StoredTrack) : QueueRow :=
  {| q_guild_id := g; q_position := pos; q_title := st_title t; q_uri := st_uri t;
     q_author := Some (st_author t); q_length := Some (st_length t);
     q_artwork := st_artwork t; q_requester_id := Some (st_requester_id t) |}.

(** [INSERT INTO persistent_queue(...) VALUES (...)]: fails on a taken key. *)
Definition insert_queue_row (r : QueueRow) (db : DB) : option DB :=
  if key_taken (q_guild_id r) (q_position r) (persistent_queue db) then None
  else Some (with_persistent_queue (persistent_queue db ++ [r]) db).

(** [ORDER BY position ASC], as a stable insertion sort. *)
Fixpoint insert_by_position (r : QueueRow) (rows : list QueueRow) : list QueueRow :=
  match rows with
  | [] => [r]
  | x :: rows' =>
      if q_position r <=? q_position x then r :: x :: rows'
      else x :: insert_by_position r rows'
  end.

Definition order_by_position (rows : list QueueRow) : list QueueRow :=
  foldr insert_by_position [] rows.

(** [SELECT * FROM persistent_queue WHERE guild_id = ? ORDER BY position ASC] *)
Definition select_queue (g : Z) (db : DB) : list QueueRow :=
  order_by_position (filter (λ r, q_guild_id r = g) (persistent_queue db)).

(** *** [save_queue] and [load_queue] *)

Fixpoint insert_all (g : Z) (items : list (Z * StoredTrack)) (db : DB) : option DB :=
  match items with
  | [] => Some db
  | (pos, t) :: rest => db' ← insert_queue_row (queue_row g pos t) db; insert_all g rest db'
  end.

Definition save_queue (g : Z) (tracks : list StoredTrack) (db : DB) : option DB :=
  insert_all g (enumerate tracks) (delete_queue g db).

(** The states committed by the inserts of [save_queue], one per
    [_execute], up to the first statement that raises. *)
Fixpoint insert_all_commits (g : Z) (items : list (Z * StoredTrack)) (db : DB) : list DB :=
  match items with
  | [] => []
  | (pos, t) :: rest =>
      match insert_queue_row (queue_row g pos t) db with
      | Some db' => db' :: insert_all_commits g rest db'
      | None => []
      end
  end.

(** Every state of the store that another coroutine can read while
    [save_queue] runs: the lock is released after each statement. *)
Definition save_queue_commits (g : Z) (tracks : list StoredTrack) (db : DB) : list DB :=
  delete_queue g db :: insert_all_commits g (enumerate tracks) (delete_queue g db).

Definition track_of_row (r : QueueRow) : StoredTrack :=
  {| st_title := q_title r; st_uri := q_uri r;
     st_author := or_str (q_author r) "Unknown";
     st_length := or_int (q_length r) 0;
     st_artwork := q_artwork r;
     st_requester_id := or_int (q_requester_id r) 0 |}.

Definition load_queue (g : Z) (db : DB) : list StoredTrack :=
  track_of_row <$> select_queue g db.

(** *** Guild settings *)

(** [INSERT OR IGNORE INTO guild_settings(guild_id)] then [SELECT]:
    the row read back, and the store with the row in it. *)
Definition get_guild_settings (g : Z) (db : DB) : SettingsRow * DB :=
  match guild_settings db !! g with
  | Some row => (row, db)
  | None => (default_settings,
             with_guild_settings (<[g := default_settings]> (guild_settings db)) db)
  end.

(** The [UPDATE ... WHERE guild_id = ?] statements touch an existing row only. *)
Definition set_dj_role (g : Z) (role_id : option Z) (db : DB) : DB :=
  with_guild_settings
    (alter (λ s, {| gs_dj_role_id := role_id; gs_volume := gs_volume s;
                    gs_idle_timeout := gs_idle_timeout s;
                    gs_last_text_channel := gs_last_text_channel s;
                    gs_player_message_id := gs_player_message_id s |}) g
           (guild_settings db)) db.

Definition set_volume (g : Z) (volume : Z) (db : DB) : DB :=
  with_guild_settings
    (alter (λ s, {| gs_dj_role_id := gs_dj_role_id s; gs_volume := Some volume;
                    gs_idle_timeout := gs_idle_timeout s;
                    gs_last_text_channel := gs_last_text_channel s;
                    gs_player_message_id := gs_player_message_id s |}) g
           (guild_settings db)) db.

Definition set_player_message (g channel_id message_id : Z) (db : DB) : DB :=
  with_guild_settings
    (alter (λ s, {| gs_dj_role_id := gs_dj_role_id s; gs_volume := gs_volume s;
                    gs_idle_timeout := gs_idle_timeout s;
                    gs_last_text_channel := Some channel_id;
                    gs_player_message_id := Some message_id |}) g
           (guild_settings db)) db.

(** *** History and error log; [played_at] is the caller's UTC clock. *)

Definition add_history (played_at : string) (g : Z) (t : StoredTrack) (db : DB) : DB :=
  with_playback_history
    (playback_history db ++
       [{| h_guild_id := g; h_title := st_title t; h_uri := st_uri t;
           h_requester_id := st_requester_id t; h_played_at := played_at |}]) db.

(** [error[:1900]] *)
Definition log_error (created_at : string) (g : option Z) (context error : string)
    (db : DB) : DB :=
  with_error_logs
    (error_logs db ++
       [{| e_guild_id := g; e_context := context;
           e_error := String.substring 0%nat 1900%nat error; e_created_at := created_at |}]) db.

(** *** Cooldowns; [now] is [time.time()]. *)

Definition is_on_cooldown (now : float) (g user_id : Z) (command : string)
    (cooldown_s : float) (db : DB) : bool * DB :=
  let record_now :=
    with_command_cooldowns (<[(g, user_id, command) := now]> (command_cooldowns db)) db in
  match command_cooldowns db !! (g, user_id, command) with
  | Some last_used =>
      if PrimFloat.ltb (PrimFloat.sub now last_used) cooldown_s then (true, db)
      else (false, record_now)
  | None => (false, record_now)
  end.

End Store.

(** ** The guild session and the music controller ([MusicController]) *)

Module Music.
Import Store.

(** [wavelink.Playable], with the fields the controller reads;
    [p_requester] is [extras.get("requester_id")]. *)
Record Playable := {
  p_title : string;
  p_uri : string;
  p_author : string;
  p_length : Z;
  p_artwork : option string;
  p_requester : option Z;
}.

(** [track.extras = {"requester_id": user.id}] *)
Definition with_requester (user_id : Z) (t : Playable) : Playable :=
  {| p_title := p_title t; p_uri := p_uri t; p_author := p_author t;
     p_length := p_length t; p_artwork := p_artwork t; p_requester := Some user_id |}.

(** The values of [session.loop_mode]: "off", "track", "queue". *)
Inductive LoopMode := Off | Track | Queue.

(** [class GuildSession]; [idle_task] is the index of the task in the
    task table of the event loop. *)
Record GuildSession := {
  queue : list Playable;
  loop_mode : LoopMode;
  default_volume : Z;
  last_track : option Playable;
  idle_task : option nat;
  retry_attempts : Z;
}.

(** [GuildSession.__init__] *)
Definition new_session : GuildSession :=
  {| queue := []; loop_mode := Off; default_volume := 100; last_track := None;
     idle_task := None; retry_attempts := 0 |}.

Definition with_queue (v : list Playable) (s : GuildSession) : GuildSession :=
  {| queue := v; loop_mode := loop_mode s; default_volume := default_volume s;
     last_track := last_track s; idle_task := idle_task s;
     retry_attempts := retry_attempts s |}.

Definition with_loop_mode (v : LoopMode) (s : GuildSession) : GuildSession :=
  {| queue := queue s; loop_mode := v; default_volume := default_volume s;
     last_track := last_track s; idle_task := idle_task s;
     retry_attempts := retry_attempts s |}.

Definition with_default_volume (v : Z) (s : GuildSession) : GuildSession :=
  {| queue := queue s; loop_mode := loop_mode s; default_volume := v;
     last_track := last_track s; idle_task := idle_task s;
     retry_attempts := retry_attempts s |}.

Definition with_last_track (v : option Playable) (s : GuildSession) : GuildSession :=
  {| queue := queue s; loop_mode := loop_mode s; default_volume := default_volume s;
     last_track := v; idle_task := idle_task s; retry_attempts := retry_attempts s |}.

Definition with_idle_task (v : option nat) (s : GuildSession) : GuildSession :=
  {| queue := queue s; loop_mode := loop_mode s; default_volume := default_volume s;
     last_track := last_track s; idle_task := v; retry_attempts := retry_attempts s |}.

Definition with_retry_attempts (v : Z) (s : GuildSession) : GuildSession :=
  {| queue := queue s; loop_mode := loop_mode s; default_volume := default_volume s;
     last_track := last_track s; idle_task := idle_task s; retry_attempts := v |}.

(** The local state of a [wavelink.Player] ([guild.voice_client]), as far
    as the controller reads it. *)
Record Player := {
  channel : Z;
  current : option Playable;
  playing : bool;
  paused : bool;
  volume : Z;
}.

(** The player that [voice_channel.connect] returns. *)
Definition new_player (ch : Z) : Player :=
  {| channel := ch; current := None; playing := false; paused := false; volume := 100 |}.

(** The calls made on the playback engine adapter and on the chat
    channel, in the order they are made. *)
Inductive Call :=
| Connect (g ch : Z)
| MoveTo (g ch : Z)
| Play (g : Z) (t : Playable)
| SetVolume (g v : Z)
| Skip (g : Z)
| Disconnect (g : Z)
| SendEmbed (ch : Z) (t : Playable).

(** An [asyncio.Task] running [_idle_disconnect]: it sleeps until
    [wake_at] on the loop clock, unless it is cancelled first. *)
Inductive TaskState := Sleeping | Cancelled | Finished.

Record IdleTask := {
  task_guild : Z;
  wake_at : float;
  task_state : TaskState;
}.

(** [task.done()] *)
Definition done_ (t : IdleTask) : bool :=
  match task_state t with Sleeping => false | _ => true end.

(** Everything the controller can reach: the guilds of the bot with their
    voice client, the session registry, the store, the tasks it created
    and the log of adapter calls. *)
Record World := {
  guilds : gmap Z (option Player);
  text_channels : gset Z;
  sessions : gmap Z GuildSession;
  store : DB;
  tasks : list IdleTask;
  calls : list Call;
  dj_role_id : option Z;
}.

Definition with_guilds (v : gmap Z (option Player)) (w : World) : World :=
  {| guilds := v; text_channels := text_channels w; sessions := sessions w;
     store := store w; tasks := tasks w; calls := calls w; dj_role_id := dj_role_id w |}.

Definition with_sessions (v : gmap Z GuildSession) (w : World) : World :=
  {| guilds := guilds w; text_channels := text_channels w; sessions := v;
     store := store w; tasks := tasks w; calls := calls w; dj_role_id := dj_role_id w |}.

Definition with_store (v : DB) (w : World) : World :=
  {| guilds := guilds w; text_channels := text_channels w; sessions := sessions w;
     store := v; tasks := tasks w; calls := calls w; dj_role_id := dj_role_id w |}.

Definition with_tasks (v : list IdleTask) (w : World) : World :=
  {| guilds := guilds w; text_channels := text_channels w; sessions := sessions w;
     store := store w; tasks := v; calls := calls w; dj_role_id := dj_role_id w |}.

Definition with_calls (v : list Call) (w : World) : World :=
  {| guilds := guilds w; text_channels := text_channels w; sessions := sessions w;
     store := store w; tasks := tasks w; calls := v; dj_role_id := dj_role_id w |}.

(** What a handler reads from outside while it runs. *)
Record Env := {
  loop_time : float;        (* the event loop clock when a task is created *)
  utc_now : string;         (* datetime.now(timezone.utc).isoformat() *)
  sent_message_id : Z;      (* the id of the message text_channel.send returns *)
}.

(** *** Adapter calls and their effect on the local player *)

Definition update_player (g : Z) (f : Player → Player) (w : World) : World :=
  with_guilds (alter (fmap f) g (guilds w)) w.

Definition log_call (c : Call) (w : World) : World := with_calls (calls w ++ [c]) w.

(** [player.play(t)] *)
Definition player_play (g : Z) (t : Playable) (w : World) : World :=
  log_call (Play g t)
    (update_player g (λ p, {| channel := channel p; current := Some t; playing := true;
                              paused := paused p; volume := volume p |}) w).

(** [player.set_volume(v)] *)
Definition player_set_volume (g v : Z) (w : World) : World :=
  log_call (SetVolume g v)
    (update_player g (λ p, {| channel := channel p; current := current p;
                              playing := playing p; paused := paused p; volume := v |}) w).

(** [player.skip(force=True)]: a request to the engine; the end of the
    track comes back later as a track-end event. *)
Definition player_skip (g : Z) (w : World) : World := log_call (Skip g) w.

(** [player.disconnect(force=True)]: the guild has no voice client any more. *)
Definition player_disconnect (g : Z) (w : World) : World :=
  log_call (Disconnect g) (with_guilds (alter (λ _, None) g (guilds w)) w).

(** *** The session registry *)

Definition _session (g : Z) (w : World) : GuildSession * World :=
  match sessions w !! g with
  | Some s => (s, w)
  | None => (new_session, with_sessions (<[g := new_session]> (sessions w)) w)
  end.

(** A write to a field of the session object of guild [g]. *)
Definition set_session (g : Z) (s : GuildSession) (w : World) : World :=
  with_sessions (<[g := s]> (sessions w)) w.

Definition _stored (t : Playable) : StoredTrack :=
  {| st_title := p_title t; st_uri := p_uri t; st_author := p_author t;
     st_length := p_length t; st_artwork := p_artwork t;
     st_requester_id := default 0 (p_requester t) |}.

Definition _persist_queue (g : Z) (w : World) : option World :=
  let '(session, w) := _session g w in
  db ← save_queue g (_stored <$> queue session) (store w);
  Some (with_store db w).

(** *** The idle timer *)

(** [session.idle_task.cancel()] when the task is there and not done. *)
Definition cancel_idle (tid : option nat) (w : World) : World :=
  match tid with
  | None => w
  | Some i =>
      match tasks w !! i with
      | Some t =>
          if done_ t then w
          else with_tasks (<[i := {| task_guild := task_guild t; wake_at := wake_at t;
                                     task_state := Cancelled |}]> (tasks w)) w
      | None => w
      end
  end.

(** [asyncio.create_task(self._idle_disconnect(g, timeout_s))]: the new
    task and its handle. *)
Definition create_idle_task (now : float) (g : Z) (timeout_s : float) (w : World)
    : nat * World :=
  (length (tasks w),
   with_tasks (tasks w ++ [{| task_guild := g; wake_at := PrimFloat.add now timeout_s;
                              task_state := Sleeping |}]) w).

(** The body of [_idle_disconnect] after its sleep. *)
Definition _idle_disconnect (g : Z) (w : World) : World :=
  match guilds w !! g with
  | Some (Some _) => player_disconnect g w
  | _ => w
  end.

(** The event loop at time [now] resumes task [i] if its sleep is over. *)
Definition wake (now : float) (w : World) (i : nat) : World :=
  match tasks w !! i with
  | Some t =>
      match task_state t with
      | Sleeping =>
          if PrimFloat.leb (wake_at t) now then
            _idle_disconnect (task_guild t)
              (with_tasks (<[i := {| task_guild := task_guild t; wake_at := wake_at t;
                                     task_state := Finished |}]> (tasks w)) w)
          else w
      | _ => w
      end
  | None => w
  end.

(** The loop clock reaches [now]: every task that is due runs. *)
Definition run_timers (now : float) (w : World) : World :=
  foldl (wake now) w (seq 0 (length (tasks w))).

(** *** Playback *)

Definition send_or_update_player_embed (e : Env) (g text_channel : Z) (w : World) : World :=
  match guilds w !! g with
  | Some (Some player) =>
      match current player with
      | Some cur =>
          with_store (set_player_message g text_channel (sent_message_id e) (store w))
            (log_call (SendEmbed text_channel cur) w)
      | None => w
      end
  | _ => w
  end.

Definition play_next (e : Env) (g text_channel : Z) (w : World) : option World :=
  match guilds w !! g with
  | None => Some w
  | Some None => Some w
  | Some (Some player) =>
      let '(session, w) := _session g w in
      match current player, loop_mode session with
      | Some cur, Track => Some (player_play g cur w)
      | cur, mode =>
          let session :=
            match cur, mode with
            | Some c, Queue => with_queue (queue session ++ [c]) session
            | _, _ => session
            end in
          match queue session with
          | [] =>
              let w := cancel_idle (idle_task session) w in
              let '(tid, w) := create_idle_task (loop_time e) g 120%float w in
              Some (set_session g (with_idle_task (Some tid) session) w)
          | next_track :: rest =>
              let session := with_last_track (Some next_track) (with_queue rest session) in
              let w := set_session g session w in
              let w := player_play g next_track w in
              let w := player_set_volume g (default_volume session) w in
              w ← _persist_queue g w;
              let w := with_store (add_history (utc_now e) g (_stored next_track) (store w)) w in
              Some (send_or_update_player_embed e g text_channel w)
          end
      end
  end.

(** The result of [wavelink.Playable.search]: a list of tracks or a
    playlist; either is falsy when it holds no track. *)
Inductive SearchResult :=
| Tracks (l : list Playable)
| Playlist (l : list Playable).

(** [discord.Member]; [voice_channel] is [user.voice.channel] when
    [user.voice] is there. *)
Record Member := {
  user_id : Z;
  administrator : bool;
  roles : list Z;
  voice_channel : option Z;
}.

(** A [discord.abc.User] is a guild member or a plain user. *)
Inductive User :=
| PlainUser (id : Z)
| GuildMember (m : Member).

(** [voice_channel.connect] is taken to succeed, which it does when the
    Lavalink pool has a node; with an empty pool, constructing the
    [wavelink.Player] raises instead. *)
Definition ensure_player (g voice : Z) (w : World) : World :=
  match default None (guilds w !! g) with
  | Some player =>
      if decide (channel player ≠ voice) then
        log_call (MoveTo g voice)
          (update_player g (λ p, {| channel := voice; current := current p;
                                    playing := playing p; paused := paused p;
                                    volume := volume p |}) w)
      else w
  | None =>
      log_call (Connect g voice) (with_guilds (<[g := Some (new_player voice)]> (guilds w)) w)
  end.

(** The loop of [play_query] over [incoming]: the queue, the set of
    known uris and the count of added tracks. *)
Fixpoint enqueue_new (requester : Z) (incoming : list Playable)
    (acc : list Playable * gset string * Z) : list Playable * gset string * Z :=
  match incoming with
  | [] => acc
  | track :: rest =>
      let '(q, existing_uris, added) := acc in
      if decide (p_uri track ∈ existing_uris) then enqueue_new requester rest acc
      else enqueue_new requester rest
             (q ++ [with_requester requester track], {[p_uri track]} ∪ existing_uris, added + 1)
  end.

Definition play_query (e : Env) (pool_nodes : bool) (results : SearchResult)
    (g : Z) (user : Member) (text_channel : Z) (w : World) : option (string * World) :=
  match voice_channel user with
  | None => Some ("Join a voice channel first."%string, w)
  | Some voice =>
      let '(settings, db) := get_guild_settings g (store w) in
      let w := with_store db w in
      let '(session, w) := _session g w in
      let session := with_default_volume (or_int (gs_volume settings) 100) session in
      let w := set_session g session w in
      let w := ensure_player g voice w in
      if negb pool_nodes then Some ("Lavalink is not connected."%string, w)
      else
        let incoming :=
          match results with
          | Playlist l => l
          | Tracks l => take 1 l
          end in
        match incoming with
        | [] => Some ("No tracks found."%string, w)
        | _ =>
            let player := default None (guilds w !! g) in
            let existing_uris : gset string :=
              list_to_set (p_uri <$> queue session) ∪
              match player ≫= current with
              | Some c => {[p_uri c]}
              | None => ∅
              end in
            let '(q, _, added) :=
              enqueue_new (user_id user) incoming (queue session, existing_uris, 0) in
            let w := set_session g (with_queue q session) w in
            w ← _persist_queue g w;
            let idle :=
              match default None (guilds w !! g) with
              | Some p => negb (playing p) && negb (paused p)
              | None => true
              end in
            w ← (if idle then play_next e g text_channel w else Some w);
            Some (("Queued " +:+ pretty added +:+ " track(s).")%string, w)
        end
  end.

(** *** Engine events *)

(** An event payload: the guild of [payload.player] when there is one,
    and [str(payload.exception)]. *)
Record Payload := {
  payload_player : option Z;
  payload_exception : string;
}.

Definition handle_track_end (e : Env) (payload : Payload) (w : World) : option World :=
  match payload_player payload with
  | None => Some w
  | Some g =>
      let '(settings, db) := get_guild_settings g (store w) in
      let w := with_store db w in
      if falsy (gs_last_text_channel settings) then Some w
      else
        let channel_id := default 0 (gs_last_text_channel settings) in
        if decide (channel_id ∈ text_channels w) then play_next e g channel_id w
        else Some w
  end.

(** The engine reports that the current track of guild [g] has finished.
    Before it dispatches the event, wavelink sets [player.current] to
    [None], so that [player.playing] is false when the handler runs. *)
Definition track_finished (g : Z) (w : World) : World :=
  update_player g (λ p, {| channel := channel p; current := None; playing := false;
                           paused := paused p; volume := volume p |}) w.

(** [on_wavelink_track_end] of [src/main.py], for a track that finished. *)
Definition on_wavelink_track_end (e : Env) (g : Z) (w : World) : option World :=
  handle_track_end e {| payload_player := Some g; payload_exception := EmptyString |}
    (track_finished g w).

Definition handle_track_exception (e : Env) (payload : Payload) (w : World) : World :=
  let w :=
    with_store (log_error (utc_now e) (payload_player payload) "track_exception"
                  (payload_exception payload) (store w)) w in
  match payload_player payload with
  | None => w
  | Some g =>
      match default None (guilds w !! g) ≫= current with
      | None => w
      | Some cur =>
          let '(session, w) := _session g w in
          if decide (retry_attempts session < 2) then
            let w := set_session g (with_retry_attempts (retry_attempts session + 1) session) w in
            player_play g cur w
          else
            let w := set_session g (with_retry_attempts 0 session) w in
            player_skip g w
      end
  end.

(** *** Authorization *)

Definition has_dj (g : Z) (user : User) (w : World) : bool * World :=
  match user with
  | PlainUser _ => (false, w)
  | GuildMember m =>
      if administrator m then (true, w)
      else
        let '(settings, db) := get_guild_settings g (store w) in
        let w := with_store db w in
        let role_id := or_opt (gs_dj_role_id settings) (dj_role_id w) in
        if falsy role_id then (true, w)
        else (bool_decide (default 0 role_id ∈ roles m), w)
  end.

(** *** Queue commands *)

Definition remove (g index : Z) (w : World) : option (string * World) :=
  let '(session, w) := _session g w in
  if decide (index < 1 ∨ index > Z.of_nat (length (queue session))) then
    Some ("Invalid queue index."%string, w)
  else
    let w := set_session g (with_queue (delete (Z.to_nat (index - 1)) (queue session)) session) w in
    w ← _persist_queue g w;
    Some ("Removed track."%string, w).

Definition clear (g : Z) (w : World) : option (string * World) :=
  let '(session, w) := _session g w in
  let w := set_session g (with_queue [] session) w in
  w ← _persist_queue g w;
  Some ("Queue cleared."%string, w).

Definition toggle_loop (g : Z) (w : World) : LoopMode * World :=
  let '(session, w) := _session g w in
  let mode := match loop_mode session with Off => Track | Track => Queue | Queue => Off end in
  (mode, set_session g (with_loop_mode mode session) w).

Definition stop (g : Z) (user : User) (w : World) : option (string * World) :=
  match default None (guilds w !! g) with
  | None => Some ("Player is not active."%string, w)
  | Some _ =>
      let '(ok, w) := has_dj g user w in
      if negb ok then Some ("You need DJ permissions."%string, w)
      else
        let '(session, w) := _session g w in
        let w := set_session g (with_queue [] session) w in
        w ← _persist_queue g w;
        Some ("Stopped and disconnected."%string, player_disconnect g w)
  end.

End Music.

(** ** The message handler of the bot ([DemonBot.on_message]) *)

Module Bot.
Import Store Music.

(** A Python [str] is the list of its Unicode code points. *)
Definition Text := list Z.

(** The code points of an ASCII literal of this file. *)
Definition codes (s : string) : Text :=
  (λ a, Z.of_nat (nat_of_ascii a)) <$> list_ascii_of_string s.

(** [str.isspace] of one code point, which is what [strip()] and
    [split()] without argument go by: the ASCII controls 9-13 and 28-31,
    the space, U+0085, U+00A0, U+1680, U+2000-U+200A, U+2028, U+2029,
    U+202F, U+205F and U+3000. *)
Definition is_space (c : Z) : bool :=
  bool_decide (9 ≤ c ≤ 13 ∨ 28 ≤ c ≤ 32 ∨ c = 133 ∨ c = 160 ∨ c = 5760
               ∨ 8192 ≤ c ≤ 8202 ∨ c = 8232 ∨ c = 8233 ∨ c = 8239 ∨ c = 8287
               ∨ c = 12288).

Fixpoint lstrip (s : Text) : Text :=
  match s with
  | c :: s' => if is_space c then lstrip s' else s
  | [] => []
  end.

Fixpoint rstrip (s : Text) : Text :=
  match s with
  | c :: s' =>
      match rstrip s' with
      | [] => if is_space c then [] else [c]
      | r => c :: r
      end
  | [] => []
  end.

Definition strip (s : Text) : Text := rstrip (lstrip s).

(** [s.split()]: the maximal runs of non-space code points; [cur] is the
    run being read. *)
Fixpoint split_from (cur : Text) (s : Text) : list Text :=
  match s with
  | c :: s' =>
      if is_space c then
        match cur with
        | [] => split_from [] s'
        | _ => cur :: split_from [] s'
        end
      else split_from (cur ++ [c]) s'
  | [] =>
      match cur with
      | [] => []
      | _ => [cur]
      end
  end.

Definition split (s : Text) : list Text := split_from [] s.

(** [str.lower] of one code point, when the result is ASCII: A-Z go to
    a-z, every other ASCII code point is kept, and U+212A (KELVIN SIGN)
    goes to k.  Every other code point lower-cases to text that holds a
    code point above 127 (U+0130 to i followed by U+0307): that is [None]. *)
Definition lower_code (c : Z) : option Z :=
  if bool_decide (65 ≤ c ≤ 90) then Some (c + 32)
  else if bool_decide (0 ≤ c ≤ 127) then Some c
  else if bool_decide (c = 8490) then Some 107
  else None.

(** [s.lower()] when it is ASCII text, [None] when it is not.  [lower] is
    only used to look the result up in [known], whose words are ASCII. *)
Definition lower (s : Text) : option Text := mapM lower_code s.

Definition known : list string :=
  ["play"; "pause"; "resume"; "skip"; "stop"; "queue"; "remove"; "clear"; "shuffle";
   "loop"; "volume"; "seek"; "dj"; "filter"; "speed"; "pitch"]%string.

(** [command in known], with the word of [known] that [command] is. *)
Definition known_command (command : option Text) : option string :=
  t ← command; head (filter (λ k, codes k = t) known).

(** [discord.Message], as far as [on_message] reads it. *)
Record Message := {
  author_id : Z;
  author_bot : bool;
  guild : option Z;
  content : Text;
}.

(** [class DemonBot]: the controller (which holds the one store,
    [self.db]) and the per-author message window. *)
Record DemonBot := {
  music : World;
  user_message_window : gmap Z float;
}.

(** Where [on_message] leaves a message: the five early returns, or the
    command and arguments it hands to the command handlers. *)
Inductive Outcome :=
| NotForUs
| RateLimited
| Blank
| NotACommand
| OnCooldown
| Dispatch (command : string) (args : list Text).

(** [loop_now] is [asyncio.get_event_loop().time()], [wall_now] is
    [time.time()]. *)
Definition on_message (loop_now wall_now : float) (message : Message) (bot : DemonBot)
    : Outcome * DemonBot :=
  match guild message with
  | None => (NotForUs, bot)
  | Some g =>
      if author_bot message then (NotForUs, bot)
      else
        let last := default 0%float (user_message_window bot !! author_id message) in
        if PrimFloat.ltb (PrimFloat.sub loop_now last) 0.6%float then (RateLimited, bot)
        else
          let bot :=
            {| music := music bot;
               user_message_window :=
                 <[author_id message := loop_now]> (user_message_window bot) |} in
          let content := strip (content message) in
          if decide (content = []) then (Blank, bot)
          else
            match split content with
            | [] => (Blank, bot)   (* not reached: see [split_strip_first] *)
            | first :: args =>
                match known_command (lower first) with
                | Some command =>
                    let '(throttled, db) :=
                      is_on_cooldown wall_now g (author_id message) command 1.2%float
                        (store (music bot)) in
                    let bot :=
                      {| music := with_store db (music bot);
                         user_message_window := user_message_window bot |} in
                    if throttled then (OnCooldown, bot) else (Dispatch command args, bot)
                | None => (NotACommand, bot)
                end
            end
  end.

End Bot.


(** ** The specification's vocabulary

    Definitions that follow the words of the specification, to be compared
    with what the code computes. *)

Module Spec.
Import Store Music.

(** A stored track as [load_queue] hands it back: an empty author reads
    as "Unknown", every other field is the one that was saved. *)
Definition as_loaded (t : StoredTrack) : StoredTrack :=
  {| st_title := st_title t; st_uri := st_uri t;
     st_author := if decide (st_author t = EmptyString) then "Unknown"%string else st_author t;
     st_length := st_length t; st_artwork := st_artwork t;
     st_requester_id := st_requester_id t |}.

(** The rows of a snapshot: the tracks in order, at positions [k], [k+1], ... *)
Definition rows_from (g k : Z) (tracks : list StoredTrack) : list QueueRow :=
  (λ it, queue_row g it.1 it.2) <$> enumerate_from k tracks.

(** An atomic replacement, seen from a reader: whatever committed state it
    reads, the guild's queue is the old one or the new one. *)
Definition atomic_replacement (g : Z) (old new : list StoredTrack) (seen : list DB) : Prop :=
  ∀ db, db ∈ seen → load_queue g db = old ∨ load_queue g db = new.

(** "Currently throttled": a record exists and less than the window has
    passed since it. *)
Definition throttled (now : float) (last_used : option float) (window : float) : Prop :=
  ∃ t, last_used = Some t ∧ PrimFloat.ltb (PrimFloat.sub now t) window = true.

(** A role is configured when it is stored and is not the id 0. *)
Definition configured (role : option Z) : Prop := ∃ r, role = Some r ∧ r ≠ 0.

(** "Effective DJ role = guild-specific stored role if set, else
    process-wide default role if configured". *)
Inductive effective_role (stored default_role : option Z) : option Z → Prop :=
| effective_stored r : stored = Some r → r ≠ 0 → effective_role stored default_role (Some r)
| effective_default r :
    ¬ configured stored → default_role = Some r → r ≠ 0 →
    effective_role stored default_role (Some r)
| effective_none :
    ¬ configured stored → ¬ configured default_role →
    effective_role stored default_role None.

(** The views of a world that the properties speak about. *)
Definition session_of (g : Z) (w : World) : GuildSession :=
  default new_session (sessions w !! g).

Definition player_of (g : Z) (w : World) : option Player :=
  default None (guilds w !! g).

(** A handler left the failure counter of every guild as it found it. *)
Definition same_retries (w w' : World) : Prop :=
  ∀ g, retry_attempts (session_of g w') = retry_attempts (session_of g w).

(** The calls a handler added to the log. *)
Definition calls_since (w w' : World) : list Call := drop (length (calls w)) (calls w').

(** A track-exception event for the player of guild [g]. *)
Definition failure (g : Z) (text : string) : Payload :=
  {| payload_player := Some g; payload_exception := text |}.

(** The store once the snapshot of guild [g] has been replaced by [ts]. *)
Definition snapshot (g : Z) (ts : list StoredTrack) (db : DB) : DB :=
  with_persistent_queue
    (filter (λ r, q_guild_id r ≠ g) (persistent_queue db) ++ rows_from g 0 ts) db.

(** The queue an advance pops from: in loop mode "queue" the current
    track has been appended to the tail first. *)
Definition pending (cur : option Playable) (s : GuildSession) : list Playable :=
  match cur, loop_mode s with
  | Some c, Queue => queue s ++ [c]
  | _, _ => queue s
  end.

End Spec.

(** ** Sample data *)

Module Samples.
Import Store Music Bot.

Definition stored (title uri author : string) (len requester : Z) : StoredTrack :=
  {| st_title := title; st_uri := uri; st_author := author; st_length := len;
     st_artwork := None; st_requester_id := requester |}.

Definition track_a : StoredTrack := stored "Alpha" "https://t/a" "Ann" 180000 11.
Definition track_b : StoredTrack := stored "Beta" "https://t/b" "Bob" 200000 12.
Definition track_c : StoredTrack := stored "Gamma" "https://t/c" "Cy" 90000 11.

(** A track whose author is the empty string. *)
Definition track_anon : StoredTrack := stored "Untitled" "https://t/u" "" 1000 11.

(** A store in which guild 1 has the snapshot [track_a] and guild 2 has
    [track_c]. *)
Definition db_two_guilds : DB :=
  with_persistent_queue [queue_row 2 0 track_c; queue_row 1 0 track_a] empty_db.

(** A store in which user 7 used "play" in guild 1 at time 100. *)
Definition db_cooling : DB :=
  with_command_cooldowns {[ (1, 7, "play"%string) := 100%float ]} empty_db.

Definition song (title uri : string) : Playable :=
  {| p_title := title; p_uri := uri; p_author := "Band"; p_length := 60000;
     p_artwork := None; p_requester := Some 11 |}.

Definition song_a : Playable := song "Alpha" "https://t/a".
Definition song_b : Playable := song "Beta" "https://t/b".
Definition song_c : Playable := song "Gamma" "https://t/c".

Definition env_at (now : float) : Env :=
  {| loop_time := now; utc_now := "2024-05-01T12:00:00+00:00"; sent_message_id := 500 |}.

(** A session with the given queue, loop mode and failure count. *)
Definition session_with (q : list Playable) (mode : LoopMode) (retries : Z) : GuildSession :=
  with_retry_attempts retries (with_loop_mode mode (with_queue q new_session)).

(** A world with the one guild 7, connected to voice channel 70 with
    [cur] as its current track, and text channel 71. *)
Definition world_with (cur : option Playable) (s : GuildSession) : World :=
  {| guilds := {[ 7 := Some {| channel := 70; current := cur;
                               playing := bool_decide (cur ≠ None); paused := false;
                               volume := 100 |} ]};
     text_channels := {[ 71 ]};
     sessions := {[ 7 := s ]};
     store := empty_db;
     tasks := [];
     calls := [];
     dj_role_id := None |}.

(** A member of the guild with no role and no administrator permission,
    sitting in voice channel 70. *)
Definition listener : Member :=
  {| user_id := 11; administrator := false; roles := []; voice_channel := Some 70 |}.

(** The world after an administrator of guild 7 has sent "dj 0". *)
Definition world_role_zero : World :=
  let w := world_with None (session_with [] Off 0) in
  with_store (set_dj_role 7 (Some 0) (get_guild_settings 7 (store w)).2) w.

(** The idle-timer scenario: a connected guild with nothing to play runs
    [play_next] at loop time 1000; at 1010 the listener queues a track. *)
Definition idle_world : World := world_with None (session_with [] Off 0).

Definition idle_armed : option World := play_next (env_at 1000) 7 71 idle_world.

Definition idle_then_query : option (string * World) :=
  w ← idle_armed;
  play_query (env_at 1010) true (Tracks [song_b]) 7 listener 71 w.

(** Guild 7 playing [song_a] with no failure counted, and guild 7 idle
    with [song_b] pending and one failure counted. *)
Definition failing_world : World := world_with (Some song_a) (session_with [] Off 0).
Definition failed_once_world : World := world_with None (session_with [song_b] Off 1).

(** Guild 7 playing [song_a] in loop mode "queue" with [song_b] and
    [song_c] pending, its last embed posted in text channel 71. *)
Definition looping_world : World :=
  with_store (set_player_message 7 71 500 (get_guild_settings 7 empty_db).2)
    (world_with (Some song_a) (session_with [song_b; song_c] Queue 0)).

(** Messages of user 11: the commands "queue" and "Loop" in guild 7, and
    plain chat in guild 8. *)
Definition queue_command : Message :=
  {| author_id := 11; author_bot := false; guild := Some 7; content := codes "queue" |}.

Definition loop_command : Message :=
  {| author_id := 11; author_bot := false; guild := Some 7; content := codes "Loop" |}.

Definition chatter_elsewhere : Message :=
  {| author_id := 11; author_bot := false; guild := Some 8; content := codes "hello there" |}.

(** A bot that has seen no message yet, and one whose last passing
    message of user 11 came at loop time 10. *)
Definition bot_fresh : DemonBot := {| music := idle_world; user_message_window := ∅ |}.

Definition bot_seen_at_10 : DemonBot :=
  {| music := idle_world; user_message_window := {[ 11 := 10%float ]} |}.

End Samples.

(** ** The remaining commands of the controller *)

Module Commands.
Import Store Music.

(** [wavelink.Playable(data)]: the constructor reads [data["encoded"]]
    before anything else and raises [KeyError] for a payload without that
    key; [info] is the track the payload describes. *)
Definition playable_from (encoded : option string) (info : Playable) : option Playable :=
  match encoded with
  | Some _ => Some info
  | None => None
  end.

(** The body of the loop of [restore_for_guild]: the payload it builds
    has the one key ["info"], and [extras] is assigned to what the
    constructor returned. *)
Definition rebuild (item : StoredTrack) : option Playable :=
  rebuilt ← playable_from None
               {| p_title := st_title item; p_uri := st_uri item; p_author := st_author item;
                  p_length := st_length item; p_artwork := st_artwork item;
                  p_requester := None |};
  Some (with_requester (st_requester_id item) rebuilt).

Fixpoint restore_tracks (tracks : list StoredTrack) (q : list Playable)
    : option (list Playable) :=
  match tracks with
  | [] => Some q
  | item :: rest => rebuilt ← rebuild item; restore_tracks rest (q ++ [rebuilt])
  end.

(** [None] is the [KeyError] leaving [restore_for_guild]; the session
    that [_session] may have registered before it is an empty one. *)
Definition restore_for_guild (g : Z) (w : World) : option World :=
  match load_queue g (store w) with
  | [] => Some w
  | tracks =>
      let '(session, w) := _session g w in
      q ← restore_tracks tracks (queue session);
      Some (set_session g (with_queue q session) w)
  end.

(** The adapter calls of the commands below, returned by the command
    that makes them. *)
Inductive Request :=
| Pause (g : Z) (value : bool)
| Seek (g : Z) (millis : Z).

(** [player.pause(not player.paused)]; the player then reports [paused]
    as it was asked. *)
Definition toggle_pause (g : Z) (user : User) (w : World)
    : (bool * string) * World * list Request :=
  match default None (guilds w !! g) with
  | None => ((false, "Player is not active."%string), w, [])
  | Some player =>
      let '(ok, w) := has_dj g user w in
      if negb ok then ((false, "You need DJ permissions."%string), w, [])
      else
        let value := negb (paused player) in
        ((true, "Toggled pause."%string),
         update_player g (λ p, {| channel := channel p; current := current p;
                                  playing := playing p; paused := value;
                                  volume := volume p |}) w,
         [Pause g value])
  end.

Definition skip (g : Z) (user : User) (w : World) : (bool * string) * World :=
  match default None (guilds w !! g) with
  | None => ((false, "Player is not active."%string), w)
  | Some _ =>
      let '(ok, w) := has_dj g user w in
      if negb ok then ((false, "You need DJ permissions."%string), w)
      else ((true, "Skipped."%string), player_skip g w)
  end.

Definition set_volume (g : Z) (user : User) (volume : Z) (w : World) : string * World :=
  match default None (guilds w !! g) with
  | None => ("Player is not active."%string, w)
  | Some _ =>
      let '(ok, w) := has_dj g user w in
      if negb ok then ("You need DJ permissions."%string, w)
      else
        let volume := Z.max 0 (Z.min 200 volume) in
        let '(session, w) := _session g w in
        let w := set_session g (with_default_volume volume session) w in
        let w := with_store (Store.set_volume g volume (store w)) w in
        let w := player_set_volume g volume w in
        (("Volume set to " +:+ pretty volume +:+ ".")%string, w)
  end.

Definition seek (g : Z) (user : User) (seconds : Z) (w : World)
    : string * World * list Request :=
  match default None (guilds w !! g) with
  | None => ("Player is not active."%string, w, [])
  | Some _ =>
      let '(ok, w) := has_dj g user w in
      if negb ok then ("You need DJ permissions."%string, w, [])
      else ("Seeked."%string, w, [Seek g (Z.max 0 (seconds * 1000))])
  end.

(** [x[i], x[j] = x[j], x[i]] *)
Definition swap {A : Type} (i j : nat) (l : list A) : list A :=
  match l !! i, l !! j with
  | Some x, Some y => <[j := x]> (<[i := y]> l)
  | _, _ => l
  end.

(** [random.shuffle]: for [i] from the last index down to 1, the element
    at [i] is swapped with the one at a random index below [i + 1];
    [draws i] is the random integer drawn at step [i]. *)
Fixpoint shuffle_from {A : Type} (i : nat) (draws : nat → nat) (l : list A) : list A :=
  match i with
  | O => l
  | S i' => shuffle_from i' draws (swap i (draws i `mod` S i) l)
  end.

Definition random_shuffle {A : Type} (draws : nat → nat) (l : list A) : list A :=
  shuffle_from (length l - 1) draws l.

Definition shuffle (draws : nat → nat) (g : Z) (w : World) : option (string * World) :=
  let '(session, w) := _session g w in
  let items := random_shuffle draws (queue session) in
  let w := set_session g (with_queue items session) w in
  w ← _persist_queue g w;
  Some ("Queue shuffled."%string, w).

(** [[f"{i}. {track.title}" for i, track in enumerate(list(queue)[:limit], start=1)]] *)
Definition queue_lines (limit : nat) (q : list Playable) : list string :=
  (λ it, (pretty it.1 +:+ ". " +:+ p_title it.2)%string) <$> enumerate_from 1 (take limit q).

Definition get_queue_text (g : Z) (limit : nat) (w : World) : string * World :=
  let '(session, w) := _session g w in
  match queue session with
  | [] => ("Queue is empty."%string, w)
  | _ => (String.concat (String "010"%char EmptyString) (queue_lines limit (queue session)), w)
  end.

End Commands.

(** ** Further vocabulary for the properties *)

Module Views.
Import Store Music Bot Spec Commands.

(** No two rows of [persistent_queue] share (guild_id, position). *)
Definition keys_unique (db : DB) : Prop :=
  NoDup ((λ r, (q_guild_id r, q_position r)) <$> persistent_queue db).

(** The durable snapshot of guild [g] is the pending queue of its session. *)
Definition in_sync (g : Z) (w : World) : Prop :=
  select_queue g (store w) = rows_from g 0 (_stored <$> queue (session_of g w)).

(** Neither the session nor the snapshot of a guild other than [g] differs
    between [w] and [w']. *)
Definition only_guild (g : Z) (w w' : World) : Prop :=
  ∀ g', g' ≠ g →
    sessions w' !! g' = sessions w !! g'
    ∧ select_queue g' (store w') = select_queue g' (store w).

(** The session fields no advance and no queue command writes. *)
Definition same_settings (s s' : GuildSession) : Prop :=
  loop_mode s' = loop_mode s ∧ default_volume s' = default_volume s
  ∧ retry_attempts s' = retry_attempts s.

(** The volume [play_query] reads from the settings of the guild. *)
Definition stored_volume (g : Z) (db : DB) : Z :=
  match guild_settings db !! g with
  | Some row => or_int (gs_volume row) 100
  | None => 100
  end.

(** A handler for guild [g] touched no other guild and kept every
    snapshot equal to its queue. *)
Definition keeps_sync (g : Z) (w w' : World) : Prop :=
  only_guild g w w' ∧ ∀ g', in_sync g' w → in_sync g' w'.

(** A task that is sleeping and whose deadline has come. *)
Definition due (now : float) (t : IdleTask) : Prop :=
  task_state t = Sleeping ∧ PrimFloat.leb (wake_at t) now = true.

(** The calls of one advance that starts track [t]. *)
Definition advance_calls (g ch v : Z) (t : Playable) : list Call :=
  [Play g t; SetVolume g v; SendEmbed ch t].

(** The history row of track [t] played at [at_]. *)
Definition history_row (g : Z) (at_ : string) (t : Playable) : HistoryRow :=
  {| h_guild_id := g; h_title := p_title t; h_uri := p_uri t;
     h_requester_id := default 0 (p_requester t); h_played_at := at_ |}.

(** A message as it reaches [on_message]: the event-loop clock and the
    wall clock at that moment, and the message. *)
Record Arrival := {
  at_loop : float;
  at_wall : float;
  arrived : Message;
}.

(** The messages handled one after the other, each with where
    [on_message] left it, and the bot afterwards. *)
Fixpoint run (bot : DemonBot) (trace : list Arrival) : list (Arrival * Outcome) * DemonBot :=
  match trace with
  | [] => ([], bot)
  | a :: rest =>
      let '(o, bot) := on_message (at_loop a) (at_wall a) (arrived a) bot in
      let '(seen, bot) := run bot rest in
      ((a, o) :: seen, bot)
  end.

(** A message passed the rate check when it was neither ignored nor
    rate-limited. *)
Definition passed (o : Outcome) : bool :=
  match o with
  | NotForUs | RateLimited => false
  | _ => true
  end.

(** The loop time of the last message of [author] that passed the check. *)
Definition last_passed (author : Z) (seen : list (Arrival * Outcome)) : option float :=
  last (omap (λ x, if passed x.2 && bool_decide (author_id (arrived x.1) = author)
                   then Some (at_loop x.1) else None) seen).

End Views.

(** * Properties of the durable store *)

Module StoreFacts.
Import Store Spec Samples.

Section filter_all_or_none.
Context {A : Type} (P : A → Prop) `{!∀ x, Decision (P x)}.

Lemma filter_all (l : list A) : Forall P l → filter P l = l.
Proof.
  induction 1 as [|x l Hx _ IH]; [done |]. by rewrite filter_cons_True, IH.
Qed.

Lemma filter_none (l : list A) : Forall (λ x, ¬ P x) l → filter P l = [].
Proof.
  induction 1 as [|x l Hx _ IH]; [done |]. by rewrite filter_cons_False.
Qed.
End filter_all_or_none.

Lemma as_loaded_id (t : StoredTrack) : st_author t ≠ EmptyString → as_loaded t = t.
Proof. intros Ha. destruct t as [ti u a l ar rq]; unfold as_loaded; simpl in *. by case_decide. Qed.

Lemma track_of_queue_row (g pos : Z) (t : StoredTrack) :
  track_of_row (queue_row g pos t) = as_loaded t.
Proof.
  unfold track_of_row, as_loaded, or_str, or_int; simpl.
  f_equal; repeat case_decide; congruence.
Qed.

Lemma rows_from_cons (g k : Z) (t : StoredTrack) (ts : list StoredTrack) :
  rows_from g k (t :: ts) = queue_row g k t :: rows_from g (k + 1) ts.
Proof. reflexivity. Qed.

Lemma rows_from_guild (g k : Z) (ts : list StoredTrack) (r : QueueRow) :
  r ∈ rows_from g k ts → q_guild_id r = g.
Proof.
  revert k; induction ts as [|t ts IH]; intros k Hr.
  - by apply elem_of_nil in Hr.
  - rewrite rows_from_cons in Hr. apply elem_of_cons in Hr as [-> | Hr]; [done | eauto].
Qed.

Lemma rows_from_positions (g k : Z) (ts : list StoredTrack) :
  q_position <$> rows_from g k ts = seqZ k (Z.of_nat (length ts)).
Proof.
  revert k; induction ts as [|t ts IH]; intros k; [done |].
  rewrite rows_from_cons, fmap_cons, IH. simpl q_position.
  rewrite (seqZ_cons k) by (simpl; lia).
  do 2 f_equal; simpl; lia.
Qed.

Lemma rows_from_loaded (g k : Z) (ts : list StoredTrack) :
  track_of_row <$> rows_from g k ts = as_loaded <$> ts.
Proof.
  revert k; induction ts as [|t ts IH]; intros k; [done |].
  by rewrite rows_from_cons, !fmap_cons, IH, track_of_queue_row.
Qed.

Lemma rows_from_snoc (g k : Z) (ts : list StoredTrack) (t : StoredTrack) :
  rows_from g k (ts ++ [t]) = rows_from g k ts ++ [queue_row g (k + Z.of_nat (length ts)) t].
Proof.
  revert k; induction ts as [|t' ts IH]; intros k.
  - simpl. rewrite rows_from_cons. do 2 f_equal. lia.
  - change ((t' :: ts) ++ [t]) with (t' :: (ts ++ [t])).
    change (length (t' :: ts)) with (S (length ts)).
    rewrite !rows_from_cons, IH, Nat2Z.inj_succ.
    replace (k + 1 + Z.of_nat (length ts)) with (k + Z.succ (Z.of_nat (length ts))) by lia.
    done.
Qed.

(** Rows at ascending positions are already in [ORDER BY] order. *)
Lemma order_rows_from (g k : Z) (ts : list StoredTrack) :
  order_by_position (rows_from g k ts) = rows_from g k ts.
Proof.
  revert k; induction ts as [|t ts IH]; intros k; [done |].
  rewrite rows_from_cons. unfold order_by_position in *. simpl foldr. rewrite IH.
  destruct ts as [|t' ts]; [done |].
  rewrite rows_from_cons. simpl.
  destruct (Z.leb_spec k (k + 1)) as [_ | ?]; [done | lia].
Qed.

Lemma key_taken_false (g pos : Z) (rows : list QueueRow) :
  (∀ r, r ∈ rows → q_guild_id r = g → q_position r < pos) → key_taken g pos rows = false.
Proof.
  intros Hlt. unfold key_taken. apply not_true_is_false. intros Hex.
  apply existsb_exists in Hex as (r & Hin & Hr).
  apply andb_true_iff in Hr as [Hg Hp]. apply Z.eqb_eq in Hg, Hp.
  apply list_elem_of_In in Hin. specialize (Hlt r Hin Hg). lia.
Qed.

(** Inserting a snapshot below which every position of the guild lies
    never hits a taken key, and appends the rows in order. *)
Lemma insert_all_rows (g : Z) (ts : list StoredTrack) (k : Z) (db : DB) :
  (∀ r, r ∈ persistent_queue db → q_guild_id r = g → q_position r < k) →
  insert_all g (enumerate_from k ts) db
  = Some (with_persistent_queue (persistent_queue db ++ rows_from g k ts) db).
Proof.
  revert k db; induction ts as [|t ts IH]; intros k db Hlt.
  - simpl. unfold rows_from; simpl. rewrite app_nil_r. by destruct db.
  - simpl. unfold insert_queue_row. simpl q_guild_id. simpl q_position.
    rewrite (key_taken_false _ _ _ Hlt). simpl.
    rewrite IH.
    + rewrite rows_from_cons. simpl. by rewrite <- app_assoc.
    + simpl. intros r Hr Hg. apply elem_of_app in Hr as [Hr | Hr].
      * specialize (Hlt r Hr Hg). lia.
      * apply list_elem_of_singleton in Hr as ->. simpl. lia.
Qed.

Lemma delete_queue_no_guild (g : Z) (db : DB) (r : QueueRow) :
  r ∈ persistent_queue (delete_queue g db) → q_guild_id r ≠ g.
Proof. simpl. intros Hr. by apply list_elem_of_filter in Hr as [? _]. Qed.

(** [save_queue] never raises, and leaves the rows of the other guilds
    followed by the new snapshot. *)
Lemma save_queue_rows (g : Z) (ts : list StoredTrack) (db : DB) :
  save_queue g ts db
  = Some (with_persistent_queue
            (filter (λ r, q_guild_id r ≠ g) (persistent_queue db) ++ rows_from g 0 ts) db).
Proof.
  unfold save_queue, enumerate. rewrite insert_all_rows.
  - by destruct db.
  - intros r Hr Hg. by apply delete_queue_no_guild in Hr.
Qed.

Lemma filter_guild_rows_from (g k : Z) (ts : list StoredTrack) :
  filter (λ r, q_guild_id r = g) (rows_from g k ts) = rows_from g k ts.
Proof.
  apply filter_all. apply Forall_forall. intros r Hr. by eapply rows_from_guild.
Qed.

Lemma filter_guild_other_rows (g g' k : Z) (ts : list StoredTrack) :
  g' ≠ g → filter (λ r, q_guild_id r = g') (rows_from g k ts) = [].
Proof.
  intros Hne. apply filter_none. apply Forall_forall. intros r Hr.
  apply rows_from_guild in Hr. congruence.
Qed.

Lemma filter_guild_deleted (g : Z) (rows : list QueueRow) :
  filter (λ r, q_guild_id r = g) (filter (λ r, q_guild_id r ≠ g) rows) = [].
Proof.
  apply filter_none. apply Forall_forall. intros r Hr.
  apply list_elem_of_filter in Hr as [? _]. tauto.
Qed.

Lemma filter_guild_kept (g g' : Z) (rows : list QueueRow) :
  g' ≠ g →
  filter (λ r, q_guild_id r = g') (filter (λ r, q_guild_id r ≠ g) rows)
  = filter (λ r, q_guild_id r = g') rows.
Proof.
  intros Hne. induction rows as [|r rows IH]; [done |].
  rewrite !filter_cons. repeat case_decide; rewrite ?filter_cons; repeat case_decide;
    try congruence; by rewrite ?IH.
Qed.

(** What a reader finds once the snapshot of [g] holds the rows of [ts]. *)
Lemma select_queue_snapshot (g : Z) (ts : list StoredTrack) (db : DB) :
  select_queue g
    (with_persistent_queue
       (filter (λ r, q_guild_id r ≠ g) (persistent_queue db) ++ rows_from g 0 ts) db)
  = rows_from g 0 ts.
Proof.
  unfold select_queue, with_persistent_queue; cbn [persistent_queue].
  by rewrite filter_app, filter_guild_deleted, filter_guild_rows_from, app_nil_l,
    order_rows_from.
Qed.

Lemma select_queue_other (g g' : Z) (ts : list StoredTrack) (db : DB) :
  g' ≠ g →
  select_queue g'
    (with_persistent_queue
       (filter (λ r, q_guild_id r ≠ g) (persistent_queue db) ++ rows_from g 0 ts) db)
  = select_queue g' db.
Proof.
  intros Hne. unfold select_queue, with_persistent_queue; cbn [persistent_queue].
  by rewrite filter_app, filter_guild_kept, filter_guild_other_rows, app_nil_r.
Qed.

Lemma load_queue_snapshot (g : Z) (ts : list StoredTrack) (db : DB) :
  load_queue g
    (with_persistent_queue
       (filter (λ r, q_guild_id r ≠ g) (persistent_queue db) ++ rows_from g 0 ts) db)
  = as_loaded <$> ts.
Proof. unfold load_queue. by rewrite select_queue_snapshot, rows_from_loaded. Qed.

Lemma load_queue_other (g g' : Z) (ts : list StoredTrack) (db : DB) :
  g' ≠ g →
  load_queue g'
    (with_persistent_queue
       (filter (λ r, q_guild_id r ≠ g) (persistent_queue db) ++ rows_from g 0 ts) db)
  = load_queue g' db.
Proof. intros Hne. unfold load_queue. by rewrite select_queue_other. Qed.

(** The state after the [n]-th insert holds the first [n] rows. *)
Lemma insert_all_commits_rows (g : Z) (ts : list StoredTrack) (k : Z) (db : DB) :
  (∀ r, r ∈ persistent_queue db → q_guild_id r = g → q_position r < k) →
  insert_all_commits g (enumerate_from k ts) db
  = (λ n, with_persistent_queue (persistent_queue db ++ rows_from g k (take n ts)) db)
      <$> seq 1 (length ts).
Proof.
  revert k db; induction ts as [|t ts IH]; intros k db Hlt; [done |].
  simpl insert_all_commits. unfold insert_queue_row.
  simpl q_guild_id. simpl q_position. rewrite (key_taken_false _ _ _ Hlt).
  simpl length. simpl seq. rewrite fmap_cons. f_equal.
  rewrite IH, <- (fmap_S_seq 1), <- list_fmap_compose.
  - apply list_fmap_ext. intros _ n _. simpl.
    rewrite rows_from_cons. unfold with_persistent_queue; simpl.
    by rewrite <- app_assoc.
  - simpl. intros r Hr Hg. apply elem_of_app in Hr as [Hr | Hr].
    + specialize (Hlt r Hr Hg). lia.
    + apply list_elem_of_singleton in Hr as ->. simpl. lia.
Qed.

Lemma save_queue_commits_rows (g : Z) (ts : list StoredTrack) (db : DB) :
  save_queue_commits g ts db
  = (λ n, with_persistent_queue
            (filter (λ r, q_guild_id r ≠ g) (persistent_queue db)
               ++ rows_from g 0 (take n ts)) db)
      <$> seq 0 (S (length ts)).
Proof.
  unfold save_queue_commits, enumerate. rewrite insert_all_commits_rows.
  - simpl seq. rewrite fmap_cons. f_equal.
    unfold delete_queue, with_persistent_queue, rows_from; simpl. by rewrite app_nil_r.
  - intros r Hr Hg. by apply delete_queue_no_guild in Hr.
Qed.

(** ** C3: the queue snapshot round trip *)

(** C3, as stated, fails: a track saved with an empty author is loaded
    back with the author "Unknown". *)
Lemma C3_counterexample_empty_author :
  (load_queue 1 <$> save_queue 1 [track_anon] empty_db) ≠ Some [track_anon]
  ∧ (load_queue 1 <$> save_queue 1 [track_anon] empty_db)
    = Some [stored "Untitled" "https://t/u" "Unknown" 1000 11].
Proof. split; [intros H; vm_compute in H; discriminate | reflexivity]. Qed.

(** C3, amended: for every guild, store and ordered list of tracks,
    [save_queue] succeeds, writes the rows at the contiguous positions
    0..n-1, and [load_queue] then returns the tracks in the same order with
    every field as saved, except that an empty author is returned as
    "Unknown"; a list with no empty author is returned identically. *)
Theorem C3_save_load_round_trip (g : Z) (ts : list StoredTrack) (db : DB) :
  ∃ db',
    save_queue g ts db = Some db'
    ∧ q_position <$> select_queue g db' = seqZ 0 (Z.of_nat (length ts))
    ∧ load_queue g db' = as_loaded <$> ts
    ∧ (Forall (λ t, st_author t ≠ EmptyString) ts → load_queue g db' = ts).
Proof.
  eexists. split; [apply save_queue_rows |].
  rewrite select_queue_snapshot, load_queue_snapshot, rows_from_positions.
  repeat split. intros Hall.
  induction Hall as [|t ts' Ht _ IH]; [done |].
  by rewrite fmap_cons, IH, as_loaded_id.
Qed.

Lemma C3_save_load_round_trip_witness :
  ∃ db', save_queue 1 [track_a; track_b] db_two_guilds = Some db'
         ∧ load_queue 1 db' = [track_a; track_b].
Proof.
  destruct (C3_save_load_round_trip 1 [track_a; track_b] db_two_guilds)
    as (db' & Hsave & _ & _ & Hsame).
  exists db'. split; [exact Hsave |].
  apply Hsame. repeat constructor; discriminate.
Defined.

(** ** C4: how [save_queue] commits *)

(** C4, as stated, fails: while guild 1 goes from the snapshot [track_a]
    to [track_b; track_c], a reader can find the queue empty, and can find
    the partial queue [track_b]. *)
Lemma C4_counterexample_not_atomic :
  ¬ atomic_replacement 1 (load_queue 1 db_two_guilds) [track_b; track_c]
      (save_queue_commits 1 [track_b; track_c] db_two_guilds)
  ∧ load_queue 1 <$> save_queue_commits 1 [track_b; track_c] db_two_guilds
    = [[]; [track_b]; [track_b; track_c]].
Proof.
  split; [| reflexivity].
  intros Hatomic.
  destruct (Hatomic (delete_queue 1 db_two_guilds)) as [H | H].
  - apply list_elem_of_here.
  - vm_compute in H. discriminate.
  - vm_compute in H. discriminate.
Qed.

(** C4, amended: [save_queue] replaces a guild's snapshot in separately
    committed statements, one delete and then one insert per track.  A
    reader of the store between two of them finds the guild's queue empty
    right after the delete and then each prefix of the new list in turn;
    the last committed state is the one [save_queue] returns, with the
    whole new list.  The snapshots of the other guilds are the same in
    every one of these states. *)
Theorem C4_save_queue_commits_prefixes (g : Z) (ts : list StoredTrack) (db : DB) :
  load_queue g <$> save_queue_commits g ts db
    = (λ n, as_loaded <$> take n ts) <$> seq 0 (S (length ts))
  ∧ last (save_queue_commits g ts db) = save_queue g ts db
  ∧ (∀ g' s, g' ≠ g → s ∈ save_queue_commits g ts db → load_queue g' s = load_queue g' db).
Proof.
  rewrite save_queue_commits_rows, save_queue_rows. split; [| split].
  - rewrite <- list_fmap_compose. apply list_fmap_ext. intros _ n _. simpl.
    apply load_queue_snapshot.
  - rewrite fmap_last, seq_S, last_snoc. simpl. by rewrite firstn_all.
  - intros g' s Hne Hs. apply list_elem_of_fmap in Hs as (n & -> & _).
    by apply load_queue_other.
Qed.

Lemma C4_save_queue_commits_prefixes_witness :
  load_queue 2 (delete_queue 1 db_two_guilds) = [track_c].
Proof.
  destruct (C4_save_queue_commits_prefixes 1 [track_b; track_c] db_two_guilds)
    as (_ & _ & Hother).
  rewrite (Hother 2 (delete_queue 1 db_two_guilds)); [reflexivity | lia |].
  apply list_elem_of_here.
Defined.

(** ** C8: the cooldown check *)

(** C8: [is_on_cooldown] returns [true] exactly when the caller is
    throttled (a record exists for (guild, user, command) and less than the
    window has passed since it).  When it returns [true] the store is left
    as it was; when it returns [false] the record of this caller holds the
    current time, and every other record and every other table is as
    before. *)
Theorem C8_cooldown_check (now : float) (g u : Z) (cmd : string) (window : float) (db : DB) :
  let r := is_on_cooldown now g u cmd window db in
  (r.1 = true ↔ throttled now (command_cooldowns db !! (g, u, cmd)) window)
  ∧ (r.1 = true → r.2 = db)
  ∧ (r.1 = false →
     command_cooldowns r.2 !! (g, u, cmd) = Some now
     ∧ (∀ k, k ≠ (g, u, cmd) → command_cooldowns r.2 !! k = command_cooldowns db !! k)
     ∧ guild_settings r.2 = guild_settings db
     ∧ persistent_queue r.2 = persistent_queue db
     ∧ playback_history r.2 = playback_history db
     ∧ error_logs r.2 = error_logs db).
Proof.
  unfold is_on_cooldown, throttled.
  destruct (command_cooldowns db !! (g, u, cmd)) as [last |] eqn:Hlast.
  - destruct (PrimFloat.ltb (PrimFloat.sub now last) window) eqn:Hlt; simpl.
    + split; [| split]; [| done | done]. split; [eauto | done].
    + split; [| split]; [| done |].
      * split; [done |]. intros (t & [= <-] & Ht). congruence.
      * intros _. rewrite lookup_insert_eq. repeat split.
        intros k Hk. by rewrite lookup_insert_ne.
  - simpl. split; [| split]; [| done |].
    + split; [done |]. by intros (t & [=] & _).
    + intros _. rewrite lookup_insert_eq. repeat split.
      intros k Hk. by rewrite lookup_insert_ne.
Qed.

Lemma C8_cooldown_check_witness :
  (is_on_cooldown 100.5 1 7 "play" 1.2 db_cooling).2 = db_cooling
  ∧ command_cooldowns (is_on_cooldown 102 1 7 "play" 1.2 db_cooling).2
      !! (1, 7, "play"%string) = Some 102%float.
Proof.
  split.
  - apply (C8_cooldown_check 100.5 1 7 "play" 1.2 db_cooling). reflexivity.
  - apply (C8_cooldown_check 102 1 7 "play" 1.2 db_cooling). reflexivity.
Defined.

End StoreFacts.

(** * Properties of the music controller *)

Module MusicFacts.
Import Store Music Spec Samples StoreFacts.

(** Reads of a world through its projections, without unfolding the
    nested updates all at once. *)
Ltac world_simpl :=
  unfold session_of, player_of, calls_since in *;
  cbn [player_play player_set_volume player_skip player_disconnect update_player
       log_call set_session with_guilds with_sessions with_store with_tasks with_calls
       guilds text_channels sessions store tasks calls dj_role_id] in *.

Lemma player_of_lookup (g : Z) (w : World) (p : Player) :
  player_of g w = Some p → guilds w !! g = Some (Some p).
Proof. unfold player_of. destruct (guilds w !! g) as [[q |] |]; simpl; congruence. Qed.

Lemma session_lookup (g : Z) (w : World) :
  _session g w = (session_of g w, set_session g (session_of g w) w).
Proof.
  unfold _session, session_of, set_session.
  destruct (sessions w !! g) as [s |] eqn:Hs; simpl; [| done].
  rewrite insert_id by done. by destruct w.
Qed.

Lemma persist_queue_eq (g : Z) (w : World) :
  _persist_queue g w
  = Some (with_store (snapshot g (_stored <$> queue (session_of g w)) (store w))
            (set_session g (session_of g w) w)).
Proof.
  unfold _persist_queue. rewrite session_lookup.
  unfold set_session at 1. cbn [store with_sessions]. by rewrite save_queue_rows.
Qed.

Lemma select_queue_snapshot_eq (g : Z) (ts : list StoredTrack) (db : DB) :
  select_queue g (snapshot g ts db) = rows_from g 0 ts.
Proof. apply select_queue_snapshot. Qed.

Lemma load_queue_snapshot_eq (g : Z) (ts : list StoredTrack) (db : DB) :
  load_queue g (snapshot g ts db) = as_loaded <$> ts.
Proof. apply load_queue_snapshot. Qed.

(** An advance with something to play: the front of the pending queue
    becomes the current track, the rest is the new queue and the new
    durable snapshot; no task is created or cancelled. *)
Lemma play_next_advance (e : Env) (g ch : Z) (w : World) (p : Player)
    (next : Playable) (rest : list Playable) :
  guilds w !! g = Some (Some p) →
  ¬ (is_Some (current p) ∧ loop_mode (session_of g w) = Track) →
  pending (current p) (session_of g w) = next :: rest →
  ∃ w', play_next e g ch w = Some w'
    ∧ session_of g w' = with_last_track (Some next) (with_queue rest (session_of g w))
    ∧ (∀ g', g' ≠ g → sessions w' !! g' = sessions w !! g')
    ∧ player_of g w' = Some {| channel := channel p; current := Some next; playing := true;
                               paused := paused p;
                               volume := default_volume (session_of g w) |}
    ∧ (∀ g', g' ≠ g → guilds w' !! g' = guilds w !! g')
    ∧ calls w' = calls w ++ [Play g next; SetVolume g (default_volume (session_of g w));
                             SendEmbed ch next]
    ∧ tasks w' = tasks w
    ∧ select_queue g (store w') = rows_from g 0 (_stored <$> rest)
    ∧ playback_history (store w')
      = playback_history (store w) ++
          [{| h_guild_id := g; h_title := p_title next; h_uri := p_uri next;
              h_requester_id := default 0 (p_requester next);
              h_played_at := utc_now e |}].
Proof.
  intros Hg Hnot Hpend. unfold play_next. rewrite Hg, session_lookup.
  cbv beta iota zeta.
  set (s := session_of g w) in *.
  unfold pending in Hpend.
  destruct (current p) as [cur |] eqn:Hcur; destruct (loop_mode s) eqn:Hmode.
  all: try (exfalso; apply Hnot; split; [solve [eauto] | reflexivity]).
  all: cbv beta iota zeta; cbn [queue with_queue]; rewrite Hpend.
  all: rewrite persist_queue_eq; cbn [mbind option_bind].
  all: eexists; split; [reflexivity |].
  all: unfold send_or_update_player_embed; world_simpl.
  all: rewrite !lookup_alter_eq, !lookup_insert_eq, Hg.
  all: cbn [fmap option_fmap option_map current default]; world_simpl.
  all: rewrite !lookup_alter_eq, !lookup_insert_eq, Hg.
  all: repeat split.
  all: try (intros g' Hne; by rewrite ?lookup_insert_ne, ?lookup_alter_ne by done).
  all: try (by rewrite <- !app_assoc).
  all: apply select_queue_snapshot_eq.
Qed.

(** One track-exception event while [t] is the current track: a replay
    and one more counted failure below two failures, a skip and a reset
    otherwise; the current track stays [t]. *)
Lemma handle_track_exception_step (e : Env) (x : string) (g : Z) (t : Playable) (w : World) :
  player_of g w ≫= current = Some t →
  let w' := handle_track_exception e (failure g x) w in
  player_of g w' ≫= current = Some t
  ∧ (retry_attempts (session_of g w) < 2 →
     retry_attempts (session_of g w') = retry_attempts (session_of g w) + 1
     ∧ calls w' = calls w ++ [Play g t])
  ∧ (¬ retry_attempts (session_of g w) < 2 →
     retry_attempts (session_of g w') = 0 ∧ calls w' = calls w ++ [Skip g]).
Proof.
  intros Hcur. unfold handle_track_exception, failure.
  cbn [payload_player payload_exception]. rewrite session_lookup.
  world_simpl. rewrite Hcur.
  case_decide as Hlt; world_simpl.
  - rewrite lookup_alter_eq, lookup_insert_eq.
    split; [| split]; [| done | done].
    destruct (guilds w !! g) as [[p |] |]; done.
  - by rewrite lookup_insert_eq.
Qed.

Lemma calls_since_app (w w' : World) (l : list Call) :
  calls w' = calls w ++ l → calls_since w w' = l.
Proof. unfold calls_since. intros ->. apply drop_app_length. Qed.

(** ** C2: the retry bound *)

(** C2: starting from [retry_attempts = 0], three consecutive
    track-exception events for the same current track replay that track on
    the first and on the second event, the counter going 0, 1, 2; on the
    third event the counter is reset to 0 and the track is force-skipped
    instead of replayed.  So the three events cause exactly two replays. *)
Theorem C2_retry_bound (e1 e2 e3 : Env) (x1 x2 x3 : string) (g : Z) (t : Playable)
    (w : World) :
  player_of g w ≫= current = Some t →
  retry_attempts (session_of g w) = 0 →
  let w1 := handle_track_exception e1 (failure g x1) w in
  let w2 := handle_track_exception e2 (failure g x2) w1 in
  let w3 := handle_track_exception e3 (failure g x3) w2 in
  (retry_attempts (session_of g w1) = 1 ∧ calls_since w w1 = [Play g t])
  ∧ (retry_attempts (session_of g w2) = 2 ∧ calls_since w1 w2 = [Play g t])
  ∧ (retry_attempts (session_of g w3) = 0 ∧ calls_since w2 w3 = [Skip g])
  ∧ calls_since w w3 = [Play g t; Play g t; Skip g].
Proof.
  intros Hcur Hzero w1 w2 w3.
  destruct (handle_track_exception_step e1 x1 g t w Hcur) as (Hcur1 & Hretry1 & _).
  destruct Hretry1 as [Hr1 Hc1]; [lia |]. fold w1 in Hcur1, Hr1, Hc1.
  destruct (handle_track_exception_step e2 x2 g t w1 Hcur1) as (Hcur2 & Hretry2 & _).
  destruct Hretry2 as [Hr2 Hc2]; [lia |]. fold w2 in Hcur2, Hr2, Hc2.
  destruct (handle_track_exception_step e3 x3 g t w2 Hcur2) as (_ & _ & Hskip3).
  destruct Hskip3 as [Hr3 Hc3]; [lia |]. fold w3 in Hr3, Hc3.
  repeat split; try lia.
  - by apply calls_since_app.
  - by apply calls_since_app.
  - by apply calls_since_app.
  - apply calls_since_app. by rewrite Hc3, Hc2, Hc1, <- !app_assoc.
Qed.

Lemma C2_retry_bound_witness :
  calls_since failing_world
    (handle_track_exception (env_at 3) (failure 7 "timeout")
       (handle_track_exception (env_at 2) (failure 7 "timeout")
          (handle_track_exception (env_at 1) (failure 7 "timeout") failing_world)))
  = [Play 7 song_a; Play 7 song_a; Skip 7].
Proof.
  apply (C2_retry_bound (env_at 1) (env_at 2) (env_at 3) "timeout" "timeout" "timeout"
           7 song_a failing_world);
    reflexivity.
Defined.

(** ** C6: loop mode "queue" *)

Lemma with_store_same (w : World) : with_store (store w) w = w.
Proof. by destruct w. Qed.

(** A track end for a guild that has a settings row. *)
Lemma handle_track_end_row (e : Env) (g : Z) (x : string) (w : World) (row : SettingsRow) :
  guild_settings (store w) !! g = Some row →
  handle_track_end e (failure g x) w
  = if falsy (gs_last_text_channel row) then Some w
    else if decide (default 0 (gs_last_text_channel row) ∈ text_channels w)
         then play_next e g (default 0 (gs_last_text_channel row)) w
         else Some w.
Proof.
  intros Hrow. unfold handle_track_end, failure, get_guild_settings.
  cbn [payload_player]. rewrite Hrow. cbv beta iota zeta.
  by rewrite with_store_same.
Qed.

(** [play_next] itself, run while the player still has a current track
    [A], appends [A] to the tail before it pops the front. *)
Lemma play_next_requeues_current (e : Env) (g ch : Z) (w : World) (p : Player)
    (A B : Playable) (rest : list Playable) :
  player_of g w = Some p →
  current p = Some A →
  loop_mode (session_of g w) = Queue →
  queue (session_of g w) = B :: rest →
  ∃ w', play_next e g ch w = Some w'
    ∧ queue (session_of g w') = rest ++ [A]
    ∧ player_of g w' ≫= current = Some B.
Proof.
  intros Hp Hcur Hmode Hq. apply player_of_lookup in Hp.
  destruct (play_next_advance e g ch w p B (rest ++ [A]) Hp) as
    (w' & Hnext & Hs & _ & Hpl & _).
  - rewrite Hmode. by intros [_ ?].
  - unfold pending. by rewrite Hcur, Hmode, Hq.
  - exists w'. by rewrite Hs, Hpl.
Qed.

(** C6 on the code: when the current track [A] finishes, the engine has
    cleared [player.current] by the time [on_wavelink_track_end] reaches
    [play_next], so the test [player.current and loop_mode == "queue"] is
    false and [A] is not appended.  With [B] at the front of the pending
    queue, [B] becomes the current track and the pending queue and its
    durable snapshot are what followed [B]: for the queue [B, C] that is
    [C], not [C, A].  The finished track is in no queue any more. *)
Theorem C6_finished_track_is_not_requeued (e : Env) (g ch : Z) (w : World) (p : Player)
    (row : SettingsRow) (A B : Playable) (rest : list Playable) :
  guilds w !! g = Some (Some p) →
  current p = Some A →
  loop_mode (session_of g w) = Queue →
  queue (session_of g w) = B :: rest →
  guild_settings (store w) !! g = Some row →
  gs_last_text_channel row = Some ch →
  ch ≠ 0 →
  ch ∈ text_channels w →
  ∃ w', on_wavelink_track_end e g w = Some w'
    ∧ player_of g w' ≫= current = Some B
    ∧ last_track (session_of g w') = Some B
    ∧ queue (session_of g w') = rest
    ∧ queue (session_of g w') ≠ rest ++ [A]
    ∧ select_queue g (store w') = rows_from g 0 (_stored <$> rest)
    ∧ calls_since w w'
      = [Play g B; SetVolume g (default_volume (session_of g w)); SendEmbed ch B].
Proof.
  intros Hg Hcur Hmode Hq Hrow Hch Hne Hin.
  unfold on_wavelink_track_end.
  change {| payload_player := Some g; payload_exception := EmptyString |}
    with (failure g EmptyString).
  rewrite (handle_track_end_row e g EmptyString (track_finished g w) row Hrow).
  change (text_channels (track_finished g w)) with (text_channels w).
  unfold falsy. rewrite Hch. cbn [default].
  rewrite bool_decide_eq_false_2 by done. rewrite decide_True by done.
  destruct (play_next_advance e g ch (track_finished g w)
              {| channel := channel p; current := None; playing := false;
                 paused := paused p; volume := volume p |} B rest) as
    (w' & Hnext & Hs & _ & Hpl & _ & Hcalls & _ & Hrows & _).
  - unfold track_finished. world_simpl. by rewrite lookup_alter_eq, Hg.
  - by intros [[c Hc] _].
  - unfold pending. cbn [current].
    change (session_of g (track_finished g w)) with (session_of g w). by rewrite Hq.
  - change (session_of g (track_finished g w)) with (session_of g w) in Hs, Hcalls.
    change (calls (track_finished g w)) with (calls w) in Hcalls.
    exists w'. rewrite Hs, Hpl. cbn [queue last_track with_last_track with_queue].
    split; [done |]. split; [done |]. split; [done |]. split; [done |].
    split.
    { intros Heq. apply (f_equal length) in Heq. rewrite length_app in Heq.
      simpl in Heq. lia. }
    split; [done |]. by apply calls_since_app.
Qed.

Lemma C6_finished_track_is_not_requeued_witness :
  ∃ w', on_wavelink_track_end (env_at 1000) 7 looping_world = Some w'
        ∧ player_of 7 w' ≫= current = Some song_b
        ∧ queue (session_of 7 w') = [song_c].
Proof.
  destruct (C6_finished_track_is_not_requeued (env_at 1000) 7 71 looping_world
              {| channel := 70; current := Some song_a; playing := true; paused := false;
                 volume := 100 |}
              {| gs_dj_role_id := None; gs_volume := Some 100; gs_idle_timeout := Some 120;
                 gs_last_text_channel := Some 71; gs_player_message_id := Some 500 |}
              song_a song_b [song_c])
    as (w' & Hend & Hcur & _ & Hq & _); try reflexivity; [lia |].
  exists w'. by repeat split.
Defined.

(** ** C7: the bounds of [remove] *)

(** C7: on a pending queue of length n, [remove 0] and [remove (n+1)]
    report "Invalid queue index." and leave the in-memory queue and the
    store as they were; [remove 1] on a queue with a first entry removes
    exactly that entry and writes the remaining queue as the new full
    snapshot. *)
Theorem C7_remove_bounds (g : Z) (w : World) :
  let q := queue (session_of g w) in
  (∀ i, i = 0 ∨ i = Z.of_nat (length q) + 1 →
     ∃ w', remove g i w = Some ("Invalid queue index."%string, w')
           ∧ queue (session_of g w') = q
           ∧ store w' = store w)
  ∧ (∀ x rest, q = x :: rest →
     ∃ w', remove g 1 w = Some ("Removed track."%string, w')
           ∧ queue (session_of g w') = rest
           ∧ select_queue g (store w') = rows_from g 0 (_stored <$> rest)
           ∧ load_queue g (store w') = as_loaded <$> (_stored <$> rest)).
Proof.
  intros q. split.
  - intros i Hi. unfold remove. rewrite session_lookup. cbv beta iota zeta.
    fold q. case_decide as Hbad; [| lia].
    eexists. split; [reflexivity |]. world_simpl. by rewrite lookup_insert_eq.
  - intros x rest Hq. unfold remove. rewrite session_lookup. cbv beta iota zeta.
    fold q. rewrite Hq. case_decide as Hbad; [simpl in Hbad; lia |].
    rewrite persist_queue_eq. cbn [mbind option_bind].
    eexists. split; [reflexivity |]. world_simpl.
    rewrite !lookup_insert_eq. cbn [default queue with_queue].
    change (delete (Z.to_nat (1 - 1)) (x :: rest)) with rest.
    repeat split.
    + apply select_queue_snapshot_eq.
    + apply load_queue_snapshot_eq.
Qed.

Lemma C7_remove_bounds_witness :
  ∃ w', remove 7 1 (world_with None (session_with [song_a; song_b] Off 0))
        = Some ("Removed track."%string, w')
        ∧ queue (session_of 7 w') = [song_b].
Proof.
  destruct (C7_remove_bounds 7 (world_with None (session_with [song_a; song_b] Off 0)))
    as [_ Hfirst].
  destruct (Hfirst song_a [song_b]) as (w' & Hrm & Hq & _); [reflexivity |].
  exists w'. by split.
Defined.

(** ** C9: who writes [retry_attempts] *)

Lemma same_retries_sessions (w w' : World) : sessions w' = sessions w → same_retries w w'.
Proof. intros Hs g. unfold session_of. by rewrite Hs. Qed.

Lemma same_retries_insert (g : Z) (s : GuildSession) (w w' : World) :
  sessions w' = <[g := s]> (sessions w) →
  retry_attempts s = retry_attempts (session_of g w) →
  same_retries w w'.
Proof.
  intros Hs Hr g'. unfold session_of in *. rewrite Hs.
  destruct (decide (g = g')) as [<- | Hne].
  - by rewrite lookup_insert_eq.
  - by rewrite lookup_insert_ne.
Qed.

Lemma same_retries_trans (w1 w2 w3 : World) :
  same_retries w1 w2 → same_retries w2 w3 → same_retries w1 w3.
Proof. intros H12 H23 g. by rewrite H23, H12. Qed.

Lemma ensure_player_sessions (g v : Z) (w : World) : sessions (ensure_player g v w) = sessions w.
Proof.
  unfold ensure_player. destruct (default None (guilds w !! g)) as [p |]; [| done].
  by case_decide.
Qed.

Lemma has_dj_sessions (g : Z) (u : User) (w : World) : sessions (has_dj g u w).2 = sessions w.
Proof.
  unfold has_dj. destruct u as [id | m]; [done |].
  destruct (administrator m); [done |].
  destruct (get_guild_settings g (store w)) as [settings db].
  cbv zeta. by destruct (falsy _).
Qed.

Lemma wake_sessions (now : float) (w : World) (i : nat) : sessions (wake now w i) = sessions w.
Proof.
  unfold wake. destruct (tasks w !! i) as [t |]; [| done].
  destruct (task_state t); try done.
  destruct (PrimFloat.leb (wake_at t) now); [| done].
  unfold _idle_disconnect. world_simpl.
  by destruct (guilds w !! task_guild t) as [[p |] |].
Qed.

Lemma run_timers_sessions (now : float) (w : World) : sessions (run_timers now w) = sessions w.
Proof.
  unfold run_timers. generalize (seq 0 (length (tasks w))). intros l.
  revert w; induction l as [| i l IH]; intros w; [done |].
  simpl. by rewrite IH, wake_sessions.
Qed.


Lemma cancel_idle_sessions (tid : option nat) (w : World) :
  sessions (cancel_idle tid w) = sessions w.
Proof.
  unfold cancel_idle. destruct tid as [i |]; [| done].
  destruct (tasks w !! i) as [t |]; [| done]. by destruct (done_ t).
Qed.

(** [play_next] always returns, and leaves the failure counter of every
    guild as it found it. *)
Lemma play_next_retry_attempts (e : Env) (g ch : Z) (w : World) :
  ∃ w', play_next e g ch w = Some w' ∧ same_retries w w'.
Proof.
  unfold same_retries, play_next.
  destruct (guilds w !! g) as [[p |] |] eqn:Hg; [| by eexists | by eexists].
  rewrite session_lookup. cbv beta iota zeta.
  set (s := session_of g w).
  assert (Hkeep : ∀ g' s', retry_attempts s' = retry_attempts s →
            retry_attempts (default new_session (<[g := s']> (sessions w) !! g'))
            = retry_attempts (session_of g' w)).
  { intros g' s' Hs'. destruct (decide (g = g')) as [<- | Hne].
    - by rewrite lookup_insert_eq.
    - by rewrite lookup_insert_ne. }
  destruct (current p) as [cur |] eqn:Hcur; destruct (loop_mode s) eqn:Hmode;
    cbv beta iota zeta.
  2: { eexists. split; [reflexivity |]. intros g'. world_simpl. by apply Hkeep. }
  all: match goal with
       | |- context [match queue ?s' with _ => _ end] => destruct (queue s') as [| next rest] eqn:Hq
       end.
  all: try (unfold create_idle_task; cbv beta iota zeta;
            eexists; split; [reflexivity |]; intros g'; world_simpl;
            rewrite cancel_idle_sessions; world_simpl;
            rewrite insert_insert_eq; by apply Hkeep).
  all: rewrite persist_queue_eq; cbn [mbind option_bind];
       eexists; (split; [reflexivity |]); intros g';
       unfold send_or_update_player_embed; world_simpl;
       rewrite !lookup_alter_eq, !lookup_insert_eq, Hg;
       cbn [fmap option_fmap option_map current default]; world_simpl;
       rewrite !insert_insert_eq; by apply Hkeep.
Qed.

Lemma remove_same_retries (g i : Z) (w : World) (r : string * World) :
  remove g i w = Some r → same_retries w r.2.
Proof.
  unfold remove. rewrite session_lookup. cbv beta iota zeta.
  case_decide.
  - intros [= <-]. cbn [snd]. eapply same_retries_insert; reflexivity.
  - rewrite persist_queue_eq. cbn [mbind option_bind]. intros [= <-].
    eapply same_retries_insert;
      [cbn [snd]; world_simpl; by rewrite !insert_insert_eq
    | world_simpl; by rewrite ?lookup_insert_eq].
Qed.

Lemma clear_same_retries (g : Z) (w : World) (r : string * World) :
  clear g w = Some r → same_retries w r.2.
Proof.
  unfold clear. rewrite session_lookup. cbv beta iota zeta.
  rewrite persist_queue_eq. cbn [mbind option_bind]. intros [= <-].
  eapply same_retries_insert;
    [cbn [snd]; world_simpl; by rewrite !insert_insert_eq
    | world_simpl; by rewrite ?lookup_insert_eq].
Qed.

Lemma toggle_loop_same_retries (g : Z) (w : World) : same_retries w (toggle_loop g w).2.
Proof.
  unfold toggle_loop. rewrite session_lookup. cbv beta iota zeta.
  eapply same_retries_insert;
    [cbn [snd]; world_simpl; by rewrite !insert_insert_eq
    | world_simpl; by rewrite ?lookup_insert_eq].
Qed.

Lemma stop_same_retries (g : Z) (u : User) (w : World) (r : string * World) :
  stop g u w = Some r → same_retries w r.2.
Proof.
  unfold stop. destruct (default None (guilds w !! g)) as [p |].
  2: { intros [= <-]. by apply same_retries_sessions. }
  pose proof (has_dj_sessions g u w) as Hdj.
  destruct (has_dj g u w) as [ok w1]. cbn [snd] in Hdj.
  destruct ok; cbn [negb].
  2: { intros [= <-]. by apply same_retries_sessions. }
  rewrite session_lookup. cbv beta iota zeta.
  rewrite persist_queue_eq. cbn [mbind option_bind]. intros [= <-].
  apply (same_retries_trans w w1); [by apply same_retries_sessions |].
  eapply same_retries_insert;
    [cbn [snd]; world_simpl; by rewrite !insert_insert_eq
    | world_simpl; by rewrite ?lookup_insert_eq].
Qed.

Lemma handle_track_end_same_retries (e : Env) (payload : Payload) (w w' : World) :
  handle_track_end e payload w = Some w' → same_retries w w'.
Proof.
  unfold handle_track_end. destruct (payload_player payload) as [g |].
  2: { intros [= <-]. by apply same_retries_sessions. }
  destruct (get_guild_settings g (store w)) as [settings db]. cbv zeta.
  destruct (falsy _).
  { intros [= <-]. by apply same_retries_sessions. }
  case_decide.
  2: { intros [= <-]. by apply same_retries_sessions. }
  destruct (play_next_retry_attempts e g (default 0 (gs_last_text_channel settings))
              (with_store db w)) as (w'' & Hnext & Hkeep).
  rewrite Hnext. intros [= <-]. exact Hkeep.
Qed.

Lemma play_query_same_retries (e : Env) (nodes : bool) (results : SearchResult)
    (g : Z) (user : Member) (ch : Z) (w : World) (r : string * World) :
  play_query e nodes results g user ch w = Some r → same_retries w r.2.
Proof.
  unfold play_query. destruct (voice_channel user) as [voice |].
  2: { intros [= <-]. by apply same_retries_sessions. }
  destruct (get_guild_settings g (store w)) as [settings db]. cbv zeta.
  rewrite session_lookup. cbv beta iota zeta.
  set (s := with_default_volume _ _).
  set (w1 := ensure_player g voice _).
  assert (H1 : same_retries w w1).
  { eapply same_retries_insert;
      [unfold w1; rewrite ensure_player_sessions; world_simpl; by rewrite insert_insert_eq
      | reflexivity]. }
  destruct nodes; cbn [negb].
  2: { by intros [= <-]. }
  destruct (match results with Playlist l => l | Tracks l => take 1 l end) as [| t ts].
  { by intros [= <-]. }
  destruct (enqueue_new _ _ _) as [[q uris] added].
  rewrite persist_queue_eq. cbn [mbind option_bind].
  set (w2 := with_store _ _).
  assert (H2 : same_retries w w2).
  { apply (same_retries_trans w w1); [done |].
    eapply same_retries_insert;
      [unfold w2; world_simpl; rewrite !insert_insert_eq; reflexivity |].
    unfold w1. world_simpl. rewrite lookup_insert_eq, ensure_player_sessions. world_simpl.
    by rewrite lookup_insert_eq. }
  destruct (match default None (guilds w2 !! g) with Some p => _ | None => _ end).
  - destruct (play_next_retry_attempts e g ch w2) as (w3 & Hnext & Hkeep).
    rewrite Hnext. cbn [mbind option_bind]. intros [= <-].
    by apply (same_retries_trans w w2).
  - cbn [mbind option_bind]. by intros [= <-].
Qed.

Lemma shuffle_same_retries (draws : nat → nat) (g : Z) (w : World) (r : string * World) :
  Commands.shuffle draws g w = Some r → same_retries w r.2.
Proof.
  unfold Commands.shuffle. rewrite session_lookup. cbv beta iota zeta.
  rewrite persist_queue_eq. cbn [mbind option_bind]. intros [= <-].
  eapply same_retries_insert;
    [cbn [snd]; world_simpl; by rewrite !insert_insert_eq
    | world_simpl; by rewrite ?lookup_insert_eq].
Qed.

Lemma set_volume_same_retries (g : Z) (u : User) (v : Z) (w : World) :
  same_retries w (Commands.set_volume g u v w).2.
Proof.
  unfold Commands.set_volume. destruct (default None (guilds w !! g)) as [p |].
  2: { by apply same_retries_sessions. }
  pose proof (has_dj_sessions g u w) as Hdj.
  destruct (has_dj g u w) as [ok w1]. cbn [snd] in Hdj.
  destruct ok; cbn [negb].
  2: { by apply same_retries_sessions. }
  rewrite session_lookup. cbv beta iota zeta. cbn [snd].
  apply (same_retries_trans w w1); [by apply same_retries_sessions |].
  eapply same_retries_insert;
    [world_simpl; by rewrite !insert_insert_eq | reflexivity].
Qed.

Lemma toggle_pause_same_retries (g : Z) (u : User) (w : World) :
  same_retries w (Commands.toggle_pause g u w).1.2.
Proof.
  unfold Commands.toggle_pause. destruct (default None (guilds w !! g)) as [p |].
  2: { by apply same_retries_sessions. }
  pose proof (has_dj_sessions g u w) as Hdj.
  destruct (has_dj g u w) as [ok w1]. cbn [snd] in Hdj.
  by destruct ok; cbn [negb fst snd]; apply same_retries_sessions.
Qed.

Lemma skip_same_retries (g : Z) (u : User) (w : World) :
  same_retries w (Commands.skip g u w).2.
Proof.
  unfold Commands.skip. destruct (default None (guilds w !! g)) as [p |].
  2: { by apply same_retries_sessions. }
  pose proof (has_dj_sessions g u w) as Hdj.
  destruct (has_dj g u w) as [ok w1]. cbn [snd] in Hdj.
  by destruct ok; cbn [negb fst snd]; apply same_retries_sessions.
Qed.

Lemma seek_same_retries (g : Z) (u : User) (secs : Z) (w : World) :
  same_retries w (Commands.seek g u secs w).1.2.
Proof.
  unfold Commands.seek. destruct (default None (guilds w !! g)) as [p |].
  2: { by apply same_retries_sessions. }
  pose proof (has_dj_sessions g u w) as Hdj.
  destruct (has_dj g u w) as [ok w1]. cbn [snd] in Hdj.
  by destruct ok; cbn [negb fst snd]; apply same_retries_sessions.
Qed.

Lemma get_queue_text_same_retries (g : Z) (limit : nat) (w : World) :
  same_retries w (Commands.get_queue_text g limit w).2.
Proof.
  unfold Commands.get_queue_text. rewrite session_lookup. cbv beta iota zeta.
  assert (Hset : same_retries w (set_session g (session_of g w) w)).
  { eapply same_retries_insert; reflexivity. }
  by destruct (queue (session_of g w)).
Qed.

Lemma restore_for_guild_same_retries (g : Z) (w w' : World) :
  Commands.restore_for_guild g w = Some w' → same_retries w w'.
Proof.
  unfold Commands.restore_for_guild.
  destruct (load_queue g (store w)) as [| item items].
  { intros [= <-]. by apply same_retries_sessions. }
  rewrite session_lookup. cbv beta iota zeta.
  destruct (Commands.restore_tracks _ _) as [q |]; [| done].
  cbn [mbind option_bind]. intros [= <-].
  eapply same_retries_insert;
    [world_simpl; by rewrite !insert_insert_eq | reflexivity].
Qed.

Lemma on_wavelink_track_end_same_retries (e : Env) (g : Z) (w w' : World) :
  on_wavelink_track_end e g w = Some w' → same_retries w w'.
Proof.
  unfold on_wavelink_track_end. intros Hend.
  apply handle_track_end_same_retries in Hend.
  intros g'. by rewrite Hend.
Qed.

Lemma persist_queue_same_retries (g : Z) (w w' : World) :
  _persist_queue g w = Some w' → same_retries w w'.
Proof.
  rewrite persist_queue_eq. intros [= <-].
  eapply same_retries_insert; [world_simpl; reflexivity | reflexivity].
Qed.

Lemma idle_disconnect_same_retries (g : Z) (w : World) :
  same_retries w (_idle_disconnect g w).
Proof.
  apply same_retries_sessions. unfold _idle_disconnect.
  by destruct (guilds w !! g) as [[p |] |].
Qed.

Lemma send_embed_same_retries (e : Env) (g ch : Z) (w : World) :
  same_retries w (send_or_update_player_embed e g ch w).
Proof.
  apply same_retries_sessions. unfold send_or_update_player_embed.
  destruct (guilds w !! g) as [[p |] |]; [| done | done]. by destruct (current p).
Qed.

Lemma on_message_same_retries (loop_now wall_now : float) (m : Bot.Message)
    (bot : Bot.DemonBot) :
  same_retries (Bot.music bot) (Bot.music (Bot.on_message loop_now wall_now m bot).2).
Proof.
  apply same_retries_sessions. unfold Bot.on_message.
  destruct (Bot.guild m) as [g |]; [| done].
  destruct (Bot.author_bot m); [done |].
  destruct (PrimFloat.ltb _ _); [done |].
  cbv zeta. case_decide; [done |].
  destruct (Bot.split _) as [| first args]; [done |].
  destruct (Bot.known_command _) as [command |]; [| done].
  destruct (is_on_cooldown _ _ _ _ _ _) as [throttled db].
  by destruct throttled.
Qed.

(** C9: [play_next] never modifies a session's [retry_attempts]: for
    every world it returns, and the counter of every guild is the one it
    found.  In particular starting a new track does not reset it: with one
    failure already counted, the track that [play_next] starts is replayed
    once only, its second failure already being the forced skip that
    resets the counter.  Every other operation of the controller leaves
    the counter alone as well ([play_query], [handle_track_end] and the
    track-end event, [remove], [clear], [toggle_loop], [stop], [has_dj],
    the idle timer, [shuffle], [set_volume], [toggle_pause], [skip],
    [seek], [get_queue_text], [restore_for_guild], [ensure_player]), and
    so do [_persist_queue], [_idle_disconnect], the embed and [on_message]
    up to the dispatch: only the track-exception handler increments or
    resets it. *)
Theorem C9_play_next_keeps_retry_attempts (e : Env) (g ch : Z) (w : World) :
  (∃ w', play_next e g ch w = Some w' ∧ same_retries w w')
  ∧ (∀ p next rest e1 e2 x1 x2,
       guilds w !! g = Some (Some p) →
       ¬ (is_Some (current p) ∧ loop_mode (session_of g w) = Track) →
       pending (current p) (session_of g w) = next :: rest →
       retry_attempts (session_of g w) = 1 →
       ∃ w', play_next e g ch w = Some w'
             ∧ player_of g w' ≫= current = Some next
             ∧ retry_attempts (session_of g w') = 1
             ∧ let w1 := handle_track_exception e1 (failure g x1) w' in
               let w2 := handle_track_exception e2 (failure g x2) w1 in
               calls_since w' w1 = [Play g next]
               ∧ retry_attempts (session_of g w1) = 2
               ∧ calls_since w1 w2 = [Skip g]
               ∧ retry_attempts (session_of g w2) = 0)
  ∧ ((∀ nodes results user r,
        play_query e nodes results g user ch w = Some r → same_retries w r.2)
     ∧ (∀ payload w', handle_track_end e payload w = Some w' → same_retries w w')
     ∧ (∀ i r, remove g i w = Some r → same_retries w r.2)
     ∧ (∀ r, clear g w = Some r → same_retries w r.2)
     ∧ same_retries w (toggle_loop g w).2
     ∧ (∀ user r, stop g user w = Some r → same_retries w r.2)
     ∧ (∀ user, same_retries w (has_dj g user w).2)
     ∧ (∀ now, same_retries w (run_timers now w)))
  ∧ ((∀ draws r, Commands.shuffle draws g w = Some r → same_retries w r.2)
     ∧ (∀ user volume, same_retries w (Commands.set_volume g user volume w).2)
     ∧ (∀ user, same_retries w (Commands.toggle_pause g user w).1.2)
     ∧ (∀ user, same_retries w (Commands.skip g user w).2)
     ∧ (∀ user seconds, same_retries w (Commands.seek g user seconds w).1.2)
     ∧ (∀ limit, same_retries w (Commands.get_queue_text g limit w).2)
     ∧ (∀ w', Commands.restore_for_guild g w = Some w' → same_retries w w')
     ∧ (∀ voice, same_retries w (ensure_player g voice w))
     ∧ (∀ w', on_wavelink_track_end e g w = Some w' → same_retries w w')
     ∧ (∀ w', _persist_queue g w = Some w' → same_retries w w')
     ∧ same_retries w (_idle_disconnect g w)
     ∧ same_retries w (send_or_update_player_embed e g ch w)
     ∧ (∀ loop_now wall_now m bot, Bot.music bot = w →
          same_retries w (Bot.music (Bot.on_message loop_now wall_now m bot).2))).
Proof.
  split; [apply play_next_retry_attempts |]. split; [| split].
  - intros p next rest e1 e2 x1 x2 Hg Hnot Hpend Hone.
    destruct (play_next_advance e g ch w p next rest Hg Hnot Hpend) as
      (w' & Hnext & Hs & _ & Hpl & _).
    exists w'. split; [done |].
    assert (Hcur : player_of g w' ≫= current = Some next) by by rewrite Hpl.
    assert (Hr : retry_attempts (session_of g w') = 1) by by rewrite Hs.
    split; [done |]. split; [done |]. intros w1 w2.
    destruct (handle_track_exception_step e1 x1 g next w' Hcur) as (Hcur1 & Hretry1 & _).
    destruct Hretry1 as [Hr1 Hc1]; [lia |]. fold w1 in Hcur1, Hr1, Hc1.
    destruct (handle_track_exception_step e2 x2 g next w1 Hcur1) as (_ & _ & Hskip2).
    destruct Hskip2 as [Hr2 Hc2]; [lia |]. fold w2 in Hr2, Hc2.
    repeat split; try lia; by apply calls_since_app.
  - repeat split.
    + intros nodes results user r. apply play_query_same_retries.
    + intros payload w'. apply handle_track_end_same_retries.
    + intros i r. apply remove_same_retries.
    + intros r. apply clear_same_retries.
    + apply toggle_loop_same_retries.
    + intros user r. apply stop_same_retries.
    + intros user. apply same_retries_sessions, has_dj_sessions.
    + intros now. apply same_retries_sessions, run_timers_sessions.
  - repeat split.
    + intros draws r. apply shuffle_same_retries.
    + intros user volume. apply set_volume_same_retries.
    + intros user. apply toggle_pause_same_retries.
    + intros user. apply skip_same_retries.
    + intros user seconds. apply seek_same_retries.
    + intros limit. apply get_queue_text_same_retries.
    + intros w'. apply restore_for_guild_same_retries.
    + intros voice. apply same_retries_sessions, ensure_player_sessions.
    + intros w'. apply on_wavelink_track_end_same_retries.
    + intros w'. apply persist_queue_same_retries.
    + apply idle_disconnect_same_retries.
    + apply send_embed_same_retries.
    + intros loop_now wall_now m bot <-. apply on_message_same_retries.
Qed.

Lemma C9_play_next_keeps_retry_attempts_witness :
  ∃ w', play_next (env_at 1000) 7 71 failed_once_world = Some w'
        ∧ calls_since w'
            (handle_track_exception (env_at 1001) (failure 7 "timeout") w')
          = [Play 7 song_b]
        ∧ calls_since
            (handle_track_exception (env_at 1001) (failure 7 "timeout") w')
            (handle_track_exception (env_at 1002) (failure 7 "timeout")
               (handle_track_exception (env_at 1001) (failure 7 "timeout") w'))
          = [Skip 7].
Proof.
  destruct (C9_play_next_keeps_retry_attempts (env_at 1000) 7 71 failed_once_world)
    as (_ & Hcarry & _).
  destruct (Hcarry {| channel := 70; current := None; playing := false; paused := false;
                      volume := 100 |} song_b [] (env_at 1001) (env_at 1002)
              "timeout"%string "timeout"%string)
    as (w' & Hnext & _ & _ & Hc1 & _ & Hc2 & _).
  - reflexivity.
  - intros [[c Hc] _]. discriminate.
  - reflexivity.
  - reflexivity.
  - exists w'. by repeat split.
Defined.

(** ** C5: the DJ permission check *)

Lemma or_opt_configured (a b : option Z) (r : Z) :
  a = Some r → r ≠ 0 → or_opt a b = Some r.
Proof. intros -> Hr. unfold or_opt. by case_decide. Qed.

Lemma or_opt_not_configured (a b : option Z) : ¬ configured a → or_opt a b = b.
Proof.
  intros Hn. unfold or_opt. destruct a as [z |]; [| done].
  case_decide; [done |]. exfalso. apply Hn. by exists z.
Qed.

Lemma falsy_not_configured (a : option Z) : ¬ configured a → falsy a = true.
Proof.
  intros Hn. unfold falsy. destruct a as [z |]; [| done].
  apply bool_decide_eq_true. destruct (decide (z = 0)); [done |].
  exfalso. apply Hn. by exists z.
Qed.

(** The check for a member who is not an administrator. *)
Lemma has_dj_member (g : Z) (m : Member) (w : World) :
  administrator m = false →
  (has_dj g (GuildMember m) w).1
  = let role := or_opt (guild_settings (store w) !! g ≫= gs_dj_role_id) (dj_role_id w) in
    if falsy role then true else bool_decide (default 0 role ∈ roles m).
Proof.
  intros Hadm. unfold has_dj, get_guild_settings. rewrite Hadm.
  destruct (guild_settings (store w) !! g) as [row |]; cbn [mbind option_bind];
    cbv beta iota zeta; world_simpl; cbn [gs_dj_role_id default_settings];
    match goal with |- context [falsy ?r] => destruct (falsy r) end; done.
Qed.

(** C5, as stated, fails on two inputs.  With no DJ role configured
    anywhere, a user who is not a member of the guild does not pass.  And
    a stored role id of 0 counts as no role at all: after "dj 0" a member
    without any role passes. *)
Lemma C5_counterexample_not_every_user :
  ((guild_settings (store idle_world) !! 7 ≫= gs_dj_role_id) = None
   ∧ dj_role_id idle_world = None
   ∧ (has_dj 7 (PlainUser 5) idle_world).1 = false)
  ∧ ((guild_settings (store world_role_zero) !! 7 ≫= gs_dj_role_id) = Some 0
     ∧ (0 ∉ roles listener)
     ∧ (has_dj 7 (GuildMember listener) world_role_zero).1 = true).
Proof.
  repeat split; try reflexivity. unfold listener; simpl. apply not_elem_of_nil.
Qed.

(** C5, amended: for every guild, the check fails every user who is not
    a member of the guild and passes every administrator.  For a member
    who is not an administrator, with the effective role being the stored
    role of the guild if one is set, else the process-wide default role if
    one is configured (a role id of 0 counting as not set): when there is
    no effective role the member passes, otherwise the member passes
    exactly when holding the effective role. *)
Theorem C5_has_dj (g : Z) (w : World) :
  let stored := guild_settings (store w) !! g ≫= gs_dj_role_id in
  (∀ id, (has_dj g (PlainUser id) w).1 = false)
  ∧ (∀ m, administrator m = true → (has_dj g (GuildMember m) w).1 = true)
  ∧ (∀ m, administrator m = false →
          effective_role stored (dj_role_id w) None →
          (has_dj g (GuildMember m) w).1 = true)
  ∧ (∀ m r, administrator m = false →
            effective_role stored (dj_role_id w) (Some r) →
            ((has_dj g (GuildMember m) w).1 = true ↔ r ∈ roles m)).
Proof.
  intros stored. split; [done |]. split; [| split].
  - intros m Hadm. unfold has_dj. by rewrite Hadm.
  - intros m Hadm Heff. rewrite has_dj_member by done. fold stored. cbv zeta.
    inversion Heff as [| | Hs Hd].
    by rewrite (or_opt_not_configured _ _ Hs), (falsy_not_configured _ Hd).
  - intros m r Hadm Heff. rewrite has_dj_member by done. fold stored. cbv zeta.
    assert (Hrole : or_opt stored (dj_role_id w) = Some r ∧ r ≠ 0).
    { inversion Heff as [r' Hs Hr | r' Hs Hd Hr |]; subst.
      - by rewrite (or_opt_configured _ _ r).
      - by rewrite (or_opt_not_configured _ _ Hs). }
    destruct Hrole as [-> Hr]. unfold falsy. rewrite bool_decide_eq_false_2 by done.
    simpl. apply bool_decide_eq_true.
Qed.

Lemma C5_has_dj_witness :
  (has_dj 7 (GuildMember listener) idle_world).1 = true.
Proof.
  apply (C5_has_dj 7 idle_world); [reflexivity |].
  apply effective_none; intros (r & Hr & _); discriminate.
Defined.

(** ** C1: the idle timer *)

(** An advance that starts a track leaves every task as it is, the armed
    idle timer included. *)
Lemma play_next_advance_tasks (e : Env) (g ch : Z) (w : World) (p : Player)
    (next : Playable) (rest : list Playable) :
  guilds w !! g = Some (Some p) →
  ¬ (is_Some (current p) ∧ loop_mode (session_of g w) = Track) →
  pending (current p) (session_of g w) = next :: rest →
  ∃ w', play_next e g ch w = Some w' ∧ tasks w' = tasks w.
Proof.
  intros Hg Hnot Hpend.
  destruct (play_next_advance e g ch w p next rest Hg Hnot Hpend) as
    (w' & Hnext & _ & _ & _ & _ & _ & Htasks & _).
  by exists w'.
Qed.

(** C1 on the code: an empty-queue [play_next] at loop time 1000 arms the
    timer for 1120.  The [play_query] at 1010 succeeds and starts the
    track, but the timer is still sleeping afterwards; when the loop clock
    reaches 1120 it fires and disconnects the player that is playing. *)
Theorem C1_idle_timer_fires_after_play_query :
  (tasks <$> idle_armed)
    = Some [{| task_guild := 7; wake_at := 1120; task_state := Sleeping |}]
  ∧ ∃ w2, idle_then_query = Some ("Queued 1 track(s)."%string, w2)
      ∧ player_of 7 w2 ≫= current = Some (with_requester 11 song_b)
      ∧ playing <$> player_of 7 w2 = Some true
      ∧ tasks w2 = [{| task_guild := 7; wake_at := 1120; task_state := Sleeping |}]
      ∧ calls_since w2 (run_timers 1119 w2) = []
      ∧ calls_since w2 (run_timers 1120 w2) = [Disconnect 7]
      ∧ player_of 7 (run_timers 1120 w2) = None.
Proof.
  split; [vm_compute; reflexivity |].
  destruct idle_then_query as [[msg w2] |] eqn:Hq; [| vm_compute in Hq; discriminate].
  exists w2.
  assert (Hfacts :
    (λ r : string * World,
       (r.1, player_of 7 r.2 ≫= current, playing <$> player_of 7 r.2, tasks r.2,
        calls_since r.2 (run_timers 1119 r.2), calls_since r.2 (run_timers 1120 r.2),
        player_of 7 (run_timers 1120 r.2))) <$> idle_then_query
    = Some ("Queued 1 track(s)."%string, Some (with_requester 11 song_b), Some true,
            [{| task_guild := 7; wake_at := 1120%float; task_state := Sleeping |}],
            [], [Disconnect 7], None)) by (vm_compute; reflexivity).
  rewrite Hq in Hfacts. simpl in Hfacts. injection Hfacts as -> -> -> -> -> -> ->.
  by repeat split.
Qed.

End MusicFacts.

(** * Properties of the message handler *)

Module BotFacts.
Import Store Music Bot Spec Samples Views.

(** A stripped text that is not empty starts with a code point that is
    not a space, so it has a first token: [parts[0]] is always there. *)
Lemma split_from_nonempty (cur s : Text) : cur ≠ [] → split_from cur s ≠ [].
Proof.
  revert cur; induction s as [| c s IH]; intros cur Hcur; simpl.
  - by destruct cur.
  - destruct (is_space c).
    + by destruct cur.
    + apply IH. by destruct cur.
Qed.

Lemma rstrip_head (c : Z) (s : Text) :
  is_space c = false → ∃ r, rstrip (c :: s) = c :: r.
Proof.
  intros Hc. simpl. destruct (rstrip s) as [| b r]; [rewrite Hc |]; eauto.
Qed.

Lemma lstrip_head (s : Text) :
  lstrip s = [] ∨ ∃ c s', lstrip s = c :: s' ∧ is_space c = false.
Proof.
  induction s as [| c s IH]; simpl; [by left |].
  destruct (is_space c) eqn:Hc; [done |]. right. eauto.
Qed.

Lemma split_strip_first (s : Text) :
  strip s ≠ [] → ∃ first args, split (strip s) = first :: args.
Proof.
  unfold strip. intros Hne.
  destruct (lstrip_head s) as [Hl | (c & s' & Hl & Hc)]; rewrite Hl in *; [done |].
  destruct (rstrip_head c s' Hc) as [r Hr]. rewrite Hr.
  unfold split. simpl. rewrite Hc.
  destruct (split_from [c] r) as [| first args] eqn:Hsplit; [| eauto].
  by apply split_from_nonempty in Hsplit.
Qed.

(** A word that [known_command] returns is a word of [known]. *)
Lemma known_command_known (t : option Text) (command : string) :
  known_command t = Some command → command ∈ known ∧ t = Some (codes command).
Proof.
  unfold known_command. destruct t as [t |]; [| done]. cbn [mbind option_bind].
  intros Hhead. apply head_Some_elem_of, list_elem_of_filter in Hhead as [-> Hin]. done.
Qed.

(** ** What one message does to the window *)

(** The three ways through the head of [on_message]: ignored, dropped by
    the rate check, or passed, in which case the window records the
    message for its author and for nobody else. *)
Lemma on_message_head (loop_now wall_now : float) (m : Message) (bot : DemonBot) :
  let r := on_message loop_now wall_now m bot in
  let last := default 0%float (user_message_window bot !! author_id m) in
  (guild m = None ∨ author_bot m = true → r = (NotForUs, bot))
  ∧ (is_Some (guild m) → author_bot m = false →
     PrimFloat.ltb (PrimFloat.sub loop_now last) 0.6 = true → r = (RateLimited, bot))
  ∧ (is_Some (guild m) → author_bot m = false →
     PrimFloat.ltb (PrimFloat.sub loop_now last) 0.6 = false →
     passed r.1 = true
     ∧ user_message_window r.2 = <[author_id m := loop_now]> (user_message_window bot)).
Proof.
  unfold on_message.
  destruct (guild m) as [g |].
  2: { split; [done |]. split; by intros [? [=]]. }
  destruct (author_bot m).
  { split; [done |]. split; by intros _ [=]. }
  split; [by intros [[=] | [=]] |].
  split; [by intros _ _ -> |].
  intros _ _ ->. cbv zeta.
  case_decide; [done |].
  destruct (split (strip (content m))) as [| first args]; [done |].
  destruct (known_command (lower first)) as [command |]; [| done].
  cbn [music user_message_window].
  destruct (is_on_cooldown _ _ _ _ _ _) as [throttled db].
  by destruct throttled.
Qed.

(** The window after one message, whatever the message. *)
Lemma on_message_window (loop_now wall_now : float) (m : Message) (bot : DemonBot) :
  user_message_window (on_message loop_now wall_now m bot).2
  = if passed (on_message loop_now wall_now m bot).1
    then <[author_id m := loop_now]> (user_message_window bot)
    else user_message_window bot.
Proof.
  destruct (on_message_head loop_now wall_now m bot) as (Hignored & Hlimited & Hpassed).
  destruct (guild m) as [g |] eqn:Hg.
  2: { rewrite Hignored by by left. done. }
  destruct (author_bot m) eqn:Hbot.
  { rewrite Hignored by by right. done. }
  destruct (PrimFloat.ltb
              (PrimFloat.sub loop_now (default 0%float (user_message_window bot !! author_id m)))
              0.6) eqn:Hlt.
  - rewrite Hlimited by eauto. done.
  - destruct Hpassed as [-> ->]; eauto.
Qed.

(** After any messages, the entry of an author is the time of the last
    message of that author that passed, or the entry the bot started with. *)
Lemma run_window (trace : list Arrival) (bot : DemonBot) (author : Z) :
  user_message_window (run bot trace).2 !! author
  = match last_passed author (run bot trace).1 with
    | Some t => Some t
    | None => user_message_window bot !! author
    end.
Proof.
  revert bot; induction trace as [| a rest IH]; intros bot; [done |].
  cbn [run].
  pose proof (on_message_window (at_loop a) (at_wall a) (arrived a) bot) as Hstep.
  destruct (on_message (at_loop a) (at_wall a) (arrived a) bot) as [o bot1].
  cbn [fst snd] in Hstep.
  specialize (IH bot1). destruct (run bot1 rest) as [seen bot2]. cbn [fst snd] in *.
  rewrite IH. unfold last_passed. cbn [omap list_omap fst snd]. rewrite Hstep.
  destruct (passed o); cbn [andb]; [| done].
  case_bool_decide as Hauthor.
  - rewrite last_cons. destruct (last (omap _ seen)); [done |].
    rewrite Hauthor. by rewrite lookup_insert_eq.
  - destruct (last (omap _ seen)); [done |]. by rewrite lookup_insert_ne.
Qed.

(** ** C10: the per-author message window *)

(** C10, as stated, fails: the window only remembers the last message
    that passed.  Of three messages of one author at loop times 10.0, 10.5
    and 10.9, the second is dropped and leaves the window at 10.0, so the
    third, 0.4 seconds after the second, passes and its command is
    dispatched. *)
Lemma C10_counterexample_third_message_passes :
  PrimFloat.ltb (PrimFloat.sub 10.9 10.5) 0.6 = true
  ∧ (on_message 10.5 5000.5 queue_command (on_message 10.0 5000.0 queue_command bot_fresh).2).1
    = RateLimited
  ∧ (on_message 10.9 5000.9 loop_command
       (on_message 10.5 5000.5 queue_command
          (on_message 10.0 5000.0 queue_command bot_fresh).2).2).1
    = Dispatch "loop" [].
Proof. vm_compute. by repeat split. Qed.

(** C10, amended: take a bot whose window is empty, as [__init__] leaves
    it, and any messages it has handled since, of whatever authors and
    guilds.  For every further message of a guild from an author who is not
    a bot, arriving less than 0.6 seconds (by the event-loop clock) after
    the last message of that author that passed this check (time 0 when
    there is none), [on_message] returns at once: before the command set
    check, the durable cooldown gate and any command handling, and with the
    window and the store as they were.  Otherwise the message passes, and
    the window records its time for its author, whatever its content,
    command or not, and keeps the entry of every other author.  The window
    is keyed by the author id alone, whatever the guild. *)
Theorem C10_message_window (bot0 : DemonBot) (trace : list Arrival)
    (loop_now wall_now : float) (m : Message) (g : Z) :
  user_message_window bot0 = ∅ →
  guild m = Some g →
  author_bot m = false →
  let seen := (run bot0 trace).1 in
  let bot := (run bot0 trace).2 in
  let last := default 0%float (last_passed (author_id m) seen) in
  (PrimFloat.ltb (PrimFloat.sub loop_now last) 0.6 = true →
   on_message loop_now wall_now m bot = (RateLimited, bot))
  ∧ (PrimFloat.ltb (PrimFloat.sub loop_now last) 0.6 = false →
     passed (on_message loop_now wall_now m bot).1 = true
     ∧ user_message_window (on_message loop_now wall_now m bot).2
       = <[author_id m := loop_now]> (user_message_window bot)).
Proof.
  intros Hfresh Hg Hbot seen bot last.
  assert (Hlast : default 0%float (user_message_window bot !! author_id m) = last).
  { unfold bot, last, seen. rewrite run_window, Hfresh, lookup_empty.
    by destruct (last_passed _ _). }
  destruct (on_message_head loop_now wall_now m bot) as (_ & Hlimited & Hpassed).
  rewrite Hlast in Hlimited, Hpassed. split.
  - intros Hlt. apply Hlimited; eauto.
  - intros Hlt. apply Hpassed; eauto.
Qed.

Lemma C10_message_window_witness :
  on_message 10.5 5000.5 chatter_elsewhere
    (run bot_fresh [{| at_loop := 10; at_wall := 5000; arrived := queue_command |}]).2
  = (RateLimited,
     (run bot_fresh [{| at_loop := 10; at_wall := 5000; arrived := queue_command |}]).2).
Proof.
  apply (C10_message_window bot_fresh
           [{| at_loop := 10; at_wall := 5000; arrived := queue_command |}]
           10.5 5000.5 chatter_elsewhere 8); reflexivity.
Defined.

End BotFacts.

(** * Further properties of the durable store *)

Module StoreMoreFacts.
Import Store Spec Samples StoreFacts Views.

Lemma with_guild_settings_same (db : DB) : with_guild_settings (guild_settings db) db = db.
Proof. by destruct db. Qed.

Lemma alter_missing {A : Type} (f : A → A) (g : Z) (m : gmap Z A) :
  m !! g = None → alter f g m = m.
Proof.
  intros Hm. apply map_eq. intros k. rewrite lookup_alter.
  case_decide; [subst; by rewrite Hm | done].
Qed.

(** X1. [get_guild_settings] always returns a row and the row is in the table
    afterwards: a guild without settings gets the default row inserted, a
    guild with settings gets its row back with the store left as it was. No
    other guild's row and no other table changes, and asking again returns
    the same row and store. *)
Theorem get_guild_settings_upsert (g : Z) (db : DB) :
  let r := get_guild_settings g db in
  guild_settings r.2 !! g = Some r.1
  ∧ (guild_settings db !! g = None → r.1 = default_settings)
  ∧ (∀ row, guild_settings db !! g = Some row → r.1 = row ∧ r.2 = db)
  ∧ (∀ g', g' ≠ g → guild_settings r.2 !! g' = guild_settings db !! g')
  ∧ get_guild_settings g r.2 = r
  ∧ persistent_queue r.2 = persistent_queue db
  ∧ playback_history r.2 = playback_history db
  ∧ error_logs r.2 = error_logs db
  ∧ command_cooldowns r.2 = command_cooldowns db.
Proof.
  unfold get_guild_settings.
  destruct (guild_settings db !! g) as [row |] eqn:Hrow; simpl.
  - rewrite Hrow. split; [done |]. split; [done |]. split; [by intros row' [= <-] |].
    by repeat split.
  - rewrite lookup_insert_eq. split; [done |]. split; [done |]. split; [done |].
    split; [intros g' Hne; by rewrite lookup_insert_ne |]. by repeat split.
Qed.

(** X2. [set_dj_role], [set_volume] and [set_player_message] of the store are
    UPDATE statements: for a guild without a settings row they change
    nothing; for a guild with a row they write their own columns and keep
    the others; the rows of other guilds are never touched. *)
Theorem settings_updates_need_a_row (g : Z) (db : DB) :
  (guild_settings db !! g = None →
   ∀ role v ch msg,
     set_dj_role g role db = db ∧ Store.set_volume g v db = db
     ∧ set_player_message g ch msg db = db)
  ∧ (∀ row, guild_settings db !! g = Some row →
     ∀ role v ch msg,
       guild_settings (set_dj_role g role db) !! g
       = Some {| gs_dj_role_id := role; gs_volume := gs_volume row;
                 gs_idle_timeout := gs_idle_timeout row;
                 gs_last_text_channel := gs_last_text_channel row;
                 gs_player_message_id := gs_player_message_id row |}
       ∧ guild_settings (Store.set_volume g v db) !! g
         = Some {| gs_dj_role_id := gs_dj_role_id row; gs_volume := Some v;
                   gs_idle_timeout := gs_idle_timeout row;
                   gs_last_text_channel := gs_last_text_channel row;
                   gs_player_message_id := gs_player_message_id row |}
       ∧ guild_settings (set_player_message g ch msg db) !! g
         = Some {| gs_dj_role_id := gs_dj_role_id row; gs_volume := gs_volume row;
                   gs_idle_timeout := gs_idle_timeout row;
                   gs_last_text_channel := Some ch;
                   gs_player_message_id := Some msg |})
  ∧ (∀ g' role v ch msg, g' ≠ g →
       guild_settings (set_dj_role g role db) !! g' = guild_settings db !! g'
       ∧ guild_settings (Store.set_volume g v db) !! g' = guild_settings db !! g'
       ∧ guild_settings (set_player_message g ch msg db) !! g' = guild_settings db !! g').
Proof.
  split; [| split].
  - intros Hnone role v ch msg.
    unfold set_dj_role, Store.set_volume, set_player_message.
    rewrite !alter_missing by done. by rewrite with_guild_settings_same.
  - intros row Hrow role v ch msg.
    unfold set_dj_role, Store.set_volume, set_player_message; simpl.
    by rewrite !lookup_alter_eq, Hrow.
  - intros g' role v ch msg Hne.
    unfold set_dj_role, Store.set_volume, set_player_message; simpl.
    by rewrite !lookup_alter_ne.
Qed.

Lemma substring_length (n : nat) (s : string) :
  String.length (String.substring 0 n s) = Nat.min n (String.length s).
Proof.
  revert s; induction n as [| n IH]; intros s.
  - by destruct s.
  - destruct s as [| a s]; [done |]. simpl. by rewrite IH.
Qed.

Lemma substring_prefix (n : nat) (s : string) :
  ∃ rest, s = (String.substring 0 n s +:+ rest)%string.
Proof.
  revert s; induction n as [| n IH]; intros s.
  - exists s. by destruct s.
  - destruct s as [| a s]; [by exists EmptyString |].
    destruct (IH s) as [rest Hrest]. exists rest. simpl. rewrite Hrest at 1. reflexivity.
Qed.

Lemma substring_all (n : nat) (s : string) :
  (String.length s ≤ n)%nat → String.substring 0 n s = s.
Proof.
  revert s; induction n as [| n IH]; intros s Hlen.
  - destruct s; [done | simpl in Hlen; lia].
  - destruct s as [| a s]; [done |]. simpl in *. rewrite IH; [done | lia].
Qed.

(** X3. [log_error] appends exactly one row, and its text is the first
    1900 characters of the error: a prefix of the error whose length is
    the smaller of 1900 and the length of the error, so the whole error
    when that has at most 1900 characters and exactly 1900 characters of
    it otherwise.  The other tables are unchanged. *)
Theorem log_error_bounded (created_at : string) (g : option Z) (context error : string)
    (db : DB) :
  ∃ text,
    error_logs (log_error created_at g context error db)
    = error_logs db ++ [{| e_guild_id := g; e_context := context; e_error := text;
                           e_created_at := created_at |}]
    ∧ String.length text = Nat.min 1900 (String.length error)
    ∧ (String.length text ≤ 1900)%nat
    ∧ (∃ rest, error = (text +:+ rest)%string)
    ∧ ((String.length error ≤ 1900)%nat → text = error)
    ∧ guild_settings (log_error created_at g context error db) = guild_settings db
    ∧ persistent_queue (log_error created_at g context error db) = persistent_queue db
    ∧ playback_history (log_error created_at g context error db) = playback_history db
    ∧ command_cooldowns (log_error created_at g context error db) = command_cooldowns db.
Proof.
  eexists. split; [reflexivity |]. split; [| split; [| split; [| split]]].
  - apply substring_length.
  - rewrite substring_length. apply Nat.le_min_l.
  - apply substring_prefix.
  - apply substring_all.
  - done.
Qed.

Lemma as_loaded_idemp (t : StoredTrack) : as_loaded (as_loaded t) = as_loaded t.
Proof.
  apply as_loaded_id. unfold as_loaded; simpl. by case_decide.
Qed.

(** X4. Saving what [load_queue] returned, for any guild and into any store,
    and loading it again gives the same tracks: the defaults [load_queue]
    fills in are filled in once. *)
Theorem reload_is_stable (g g' : Z) (ts : list StoredTrack) (db db' : DB) :
  ∃ db1 db2,
    save_queue g ts db = Some db1
    ∧ save_queue g' (load_queue g db1) db' = Some db2
    ∧ load_queue g' db2 = load_queue g db1.
Proof.
  eexists _, _. split; [apply save_queue_rows |]. split; [apply save_queue_rows |].
  rewrite !load_queue_snapshot, <- list_fmap_compose.
  apply list_fmap_ext. intros _ t _. apply as_loaded_idemp.
Qed.

Lemma rows_from_keys (g k : Z) (ts : list StoredTrack) :
  (λ r, (q_guild_id r, q_position r)) <$> rows_from g k ts
  = (λ p, (g, p)) <$> seqZ k (Z.of_nat (length ts)).
Proof.
  revert k; induction ts as [| t ts IH]; intros k; [done |].
  rewrite rows_from_cons, fmap_cons, IH.
  rewrite (seqZ_cons k) by (simpl; lia). rewrite fmap_cons.
  do 3 f_equal; simpl; lia.
Qed.

Lemma NoDup_fmap_filter {A B : Type} (f : A → B) (P : A → Prop) `{!∀ x, Decision (P x)}
    (l : list A) :
  NoDup (f <$> l) → NoDup (f <$> filter P l).
Proof.
  induction l as [| x l IH]; [done |].
  rewrite fmap_cons, NoDup_cons. intros [Hx Hl].
  rewrite filter_cons. case_decide; [| by apply IH].
  rewrite fmap_cons, NoDup_cons. split; [| by apply IH].
  intros Hin. apply Hx.
  apply list_elem_of_fmap in Hin as (y & Hy & Hin).
  apply list_elem_of_filter in Hin as [_ Hin].
  apply list_elem_of_fmap. eauto.
Qed.

(** X5. [save_queue] keeps the primary key of persistent_queue: if no two rows
    share (guild_id, position) before, the save succeeds and no two rows
    share it afterwards. *)
Theorem save_queue_keeps_keys_unique (g : Z) (ts : list StoredTrack) (db : DB) :
  keys_unique db →
  ∃ db', save_queue g ts db = Some db' ∧ keys_unique db'.
Proof.
  intros Huniq. eexists. split; [apply save_queue_rows |].
  unfold keys_unique in *. cbn [persistent_queue with_persistent_queue].
  rewrite fmap_app. apply NoDup_app. split; [| split].
  - by apply NoDup_fmap_filter.
  - intros k Hk Hk'.
    apply list_elem_of_fmap in Hk as (r & -> & Hr).
    apply list_elem_of_filter in Hr as [Hg _].
    apply list_elem_of_fmap in Hk' as (r' & Hkey & Hr').
    apply rows_from_guild in Hr'. injection Hkey as Hgg _. congruence.
  - rewrite rows_from_keys.
    apply NoDup_fmap_2; [intros p q [= ->]; done | apply NoDup_seqZ].
Qed.

Lemma save_queue_keeps_keys_unique_witness :
  ∃ db', save_queue 1 [track_b; track_c] db_two_guilds = Some db' ∧ keys_unique db'.
Proof.
  apply (save_queue_keeps_keys_unique 1 [track_b; track_c] db_two_guilds).
  unfold keys_unique. apply (bool_decide_unpack _). vm_compute. reflexivity.
Defined.

(** X6. After a check that passed at time t1, a check of the same guild, user
    and command at t2 is throttled exactly when t2 - t1 is below the window,
    and then leaves the store as it is; otherwise it passes and records t2.
    The answer for any other key is the one the store gave before. *)
Theorem cooldown_second_check (t1 t2 : float) (g u : Z) (cmd : string) (window : float)
    (db : DB) :
  (is_on_cooldown t1 g u cmd window db).1 = false →
  let db1 := (is_on_cooldown t1 g u cmd window db).2 in
  (PrimFloat.ltb (PrimFloat.sub t2 t1) window = true →
   is_on_cooldown t2 g u cmd window db1 = (true, db1))
  ∧ (PrimFloat.ltb (PrimFloat.sub t2 t1) window = false →
     (is_on_cooldown t2 g u cmd window db1).1 = false
     ∧ command_cooldowns (is_on_cooldown t2 g u cmd window db1).2 !! (g, u, cmd) = Some t2)
  ∧ (∀ g' u' cmd' window', (g', u', cmd') ≠ (g, u, cmd) →
       (is_on_cooldown t2 g' u' cmd' window' db1).1
       = (is_on_cooldown t2 g' u' cmd' window' db).1).
Proof.
  intros Hpass db1.
  assert (Hrec : command_cooldowns db1 !! (g, u, cmd) = Some t1
                 ∧ ∀ k, k ≠ (g, u, cmd) →
                     command_cooldowns db1 !! k = command_cooldowns db !! k).
  { unfold db1, is_on_cooldown in *.
    destruct (command_cooldowns db !! (g, u, cmd)) as [last |].
    - destruct (PrimFloat.ltb (PrimFloat.sub t1 last) window); [done |]. simpl.
      rewrite lookup_insert_eq. split; [done |]. intros k Hk. by rewrite lookup_insert_ne.
    - simpl. rewrite lookup_insert_eq. split; [done |]. intros k Hk.
      by rewrite lookup_insert_ne. }
  destruct Hrec as [Hmine Hothers]. clearbody db1.
  split; [| split].
  - intros Hlt. unfold is_on_cooldown. by rewrite Hmine, Hlt.
  - intros Hge. unfold is_on_cooldown. rewrite Hmine, Hge. simpl.
    by rewrite lookup_insert_eq.
  - intros g' u' cmd' window' Hne. unfold is_on_cooldown. rewrite Hothers by done.
    destruct (command_cooldowns db !! (g', u', cmd')) as [last |]; [| done].
    by destruct (PrimFloat.ltb _ _).
Qed.

Lemma cooldown_second_check_witness :
  is_on_cooldown 100.5 1 7 "play" 1.2 (is_on_cooldown 100 1 7 "play" 1.2 empty_db).2
  = (true, (is_on_cooldown 100 1 7 "play" 1.2 empty_db).2).
Proof.
  apply (cooldown_second_check 100 100.5 1 7 "play" 1.2 empty_db); reflexivity.
Defined.

End StoreMoreFacts.

(** * Further properties of the controller *)

Module MusicMoreFacts.
Import Store Music Spec Samples StoreFacts MusicFacts Commands Views StoreMoreFacts.

Lemma set_session_same (g : Z) (w : World) :
  sessions w !! g = Some (session_of g w) → set_session g (session_of g w) w = w.
Proof.
  intros Hs. unfold set_session. rewrite insert_id by done. by destruct w.
Qed.

(** X7. [toggle_loop] moves the loop mode one step along off, track,
    queue, off: from off to track, from track to queue, from queue to off.
    It returns the mode it stored, which therefore differs from the
    previous one, three toggles bring the session back, and a toggle
    changes neither the queue, the store, the players, the timers nor the
    calls made. *)
Theorem toggle_loop_cycle (g : Z) (w : World) :
  let w1 := (toggle_loop g w).2 in
  let w3 := (toggle_loop g (toggle_loop g w1).2).2 in
  (toggle_loop g w).1 = loop_mode (session_of g w1)
  ∧ (loop_mode (session_of g w) = Off → loop_mode (session_of g w1) = Track)
  ∧ (loop_mode (session_of g w) = Track → loop_mode (session_of g w1) = Queue)
  ∧ (loop_mode (session_of g w) = Queue → loop_mode (session_of g w1) = Off)
  ∧ loop_mode (session_of g w1) ≠ loop_mode (session_of g w)
  ∧ session_of g w3 = session_of g w
  ∧ queue (session_of g w1) = queue (session_of g w)
  ∧ store w1 = store w ∧ guilds w1 = guilds w ∧ tasks w1 = tasks w ∧ calls w1 = calls w.
Proof.
  intros w1 w3. unfold w3, w1, toggle_loop. clear w1 w3.
  rewrite !session_lookup. cbv beta iota zeta. cbn [fst snd].
  world_simpl. rewrite !lookup_insert_eq. cbn [default loop_mode with_loop_mode queue].
  destruct (default new_session (sessions w !! g)) as [q m v l i r].
  cbn [loop_mode with_loop_mode queue]. by destruct m.
Qed.

(** One advance in loop mode "track". *)
Lemma play_next_track (e : Env) (g ch : Z) (w : World) (p : Player) (t : Playable) :
  guilds w !! g = Some (Some p) →
  current p = Some t →
  loop_mode (session_of g w) = Track →
  ∃ w' p', play_next e g ch w = Some w'
    ∧ guilds w' !! g = Some (Some p') ∧ current p' = Some t
    ∧ session_of g w' = session_of g w
    ∧ store w' = store w ∧ tasks w' = tasks w
    ∧ calls w' = calls w ++ [Play g t].
Proof.
  intros Hg Hcur Hmode. unfold play_next. rewrite Hg, session_lookup.
  cbv beta iota zeta. rewrite Hcur, Hmode.
  eexists _, _. split; [reflexivity |]. world_simpl.
  rewrite lookup_alter_eq, Hg, lookup_insert_eq. cbn [fmap option_fmap option_map].
  by repeat split.
Qed.

(** X8. In loop mode track, with a current track, any number of advances plays
    that same track each time and nothing else: the queue, the session, the
    store and the timers stay as they were. *)
Theorem loop_track_replays (e : Env) (g ch : Z) (w : World) (p : Player) (t : Playable)
    (n : nat) :
  guilds w !! g = Some (Some p) →
  current p = Some t →
  loop_mode (session_of g w) = Track →
  ∃ w', Nat.iter n (λ o, o ≫= play_next e g ch) (Some w) = Some w'
    ∧ calls w' = calls w ++ replicate n (Play g t)
    ∧ player_of g w' ≫= current = Some t
    ∧ session_of g w' = session_of g w
    ∧ store w' = store w
    ∧ tasks w' = tasks w.
Proof.
  intros Hg Hcur Hmode.
  assert (Hiter : ∃ w' p', Nat.iter n (λ o, o ≫= play_next e g ch) (Some w) = Some w'
            ∧ guilds w' !! g = Some (Some p') ∧ current p' = Some t
            ∧ session_of g w' = session_of g w
            ∧ store w' = store w ∧ tasks w' = tasks w
            ∧ calls w' = calls w ++ replicate n (Play g t)).
  { induction n as [| n IH].
    - exists w, p. simpl. rewrite app_nil_r. by repeat split.
    - destruct IH as (w1 & p1 & Hit & Hg1 & Hc1 & Hs1 & Hst1 & Ht1 & Hcalls1).
      destruct (play_next_track e g ch w1 p1 t Hg1 Hc1) as
        (w2 & p2 & Hnext & Hg2 & Hc2 & Hs2 & Hst2 & Ht2 & Hcalls2); [by rewrite Hs1 |].
      exists w2, p2. simpl. rewrite Hit. cbn [mbind option_bind].
      split; [done |]. split; [done |]. split; [done |].
      split; [congruence |]. split; [congruence |]. split; [congruence |].
      rewrite Hcalls2, Hcalls1, <- app_assoc. f_equal.
      change (replicate n (Play g t) ++ [Play g t] = replicate (S n) (Play g t)).
      by rewrite replicate_S_end. }
  destruct Hiter as (w' & p' & Hit & Hg' & Hc' & Hs' & Hst' & Ht' & Hcalls').
  exists w'. unfold player_of. rewrite Hg'. by repeat split.
Qed.

Lemma loop_track_replays_witness :
  ∃ w', Nat.iter 3 (λ o, o ≫= play_next (env_at 1000) 7 71)
          (Some (world_with (Some song_a) (session_with [song_b] Track 0))) = Some w'
        ∧ calls w' = [Play 7 song_a; Play 7 song_a; Play 7 song_a]
        ∧ queue (session_of 7 w') = [song_b].
Proof.
  destruct (loop_track_replays (env_at 1000) 7 71
              (world_with (Some song_a) (session_with [song_b] Track 0))
              {| channel := 70; current := Some song_a; playing := true; paused := false;
                 volume := 100 |} song_a 3)
    as (w' & Hit & Hcalls & _ & Hs & _); try reflexivity.
  exists w'. rewrite Hs. by repeat split.
Defined.

Lemma cancel_idle_tasks_length (tid : option nat) (w : World) :
  length (tasks (cancel_idle tid w)) = length (tasks w).
Proof.
  unfold cancel_idle. destruct tid as [i |]; [| done].
  destruct (tasks w !! i) as [t |]; [| done].
  destruct (done_ t); [done |]. cbn [tasks with_tasks]. apply length_insert.
Qed.

Lemma cancel_idle_frame (tid : option nat) (w : World) :
  guilds (cancel_idle tid w) = guilds w ∧ store (cancel_idle tid w) = store w
  ∧ calls (cancel_idle tid w) = calls w.
Proof.
  unfold cancel_idle. destruct tid as [i |]; [| done].
  destruct (tasks w !! i) as [t |]; [| done]. by destruct (done_ t).
Qed.

(** X9. When [play_next] finds nothing to play it arms a new idle timer for
    loop time + 120 seconds, whatever idle_timeout the settings hold; the
    session points to the new timer, the previous one (if any) is done,
    every other timer is untouched, the queue is empty, and no call is made
    and nothing is stored. *)
Theorem play_next_arms_idle_timer (e : Env) (g ch : Z) (w : World) (p : Player) :
  guilds w !! g = Some (Some p) →
  ¬ (is_Some (current p) ∧ loop_mode (session_of g w) = Track) →
  pending (current p) (session_of g w) = [] →
  ∃ w', play_next e g ch w = Some w'
    ∧ tasks w' = tasks (cancel_idle (idle_task (session_of g w)) w)
                 ++ [{| task_guild := g; wake_at := PrimFloat.add (loop_time e) 120;
                        task_state := Sleeping |}]
    ∧ idle_task (session_of g w') = Some (length (tasks w))
    ∧ (∀ i t, idle_task (session_of g w) = Some i → tasks w !! i = Some t →
         ∃ t', tasks w' !! i = Some t' ∧ done_ t' = true)
    ∧ (∀ i, idle_task (session_of g w) ≠ Some i → (i < length (tasks w))%nat →
         tasks w' !! i = tasks w !! i)
    ∧ queue (session_of g w') = []
    ∧ calls w' = calls w ∧ store w' = store w ∧ guilds w' = guilds w.
Proof.
  intros Hg Hnot Hpend. unfold play_next. rewrite Hg, session_lookup.
  cbv beta iota zeta.
  set (s := session_of g w) in *.
  assert (Hq : queue s = [] ∧
            match current p, loop_mode s with
            | Some c, Queue => False
            | Some c, Track => False
            | _, _ => True
            end).
  { unfold pending in Hpend. destruct (current p) as [c |], (loop_mode s); try done.
    - exfalso. apply Hnot. eauto.
    - by destruct (queue s). }
  destruct Hq as [Hq Hcase].
  assert (Hlen := cancel_idle_tasks_length (idle_task s) (set_session g s w)).
  destruct (cancel_idle_frame (idle_task s) (set_session g s w)) as (Hcg & Hcs & Hcc).
  pose proof (cancel_idle_sessions (idle_task s) (set_session g s w)) as Hcsess.
  assert (Hct : tasks (cancel_idle (idle_task s) (set_session g s w))
                = tasks (cancel_idle (idle_task s) w)).
  { unfold cancel_idle. destruct (idle_task s) as [i |]; [| done].
    cbn [tasks set_session with_sessions].
    destruct (tasks w !! i) as [t |]; [| done]. by destruct (done_ t). }
  destruct (current p) as [c |], (loop_mode s); try done.
  all: cbv beta iota zeta; rewrite Hq; unfold create_idle_task; cbv beta iota zeta.
  all: eexists; split; [reflexivity |]; world_simpl.
  all: rewrite Hlen, Hcg, Hcs, Hcc, Hct, lookup_insert_eq.
  all: cbn [default idle_task with_idle_task queue tasks set_session with_sessions].
  all: split; [done |]; split; [done |].
  all: split; [| split; [| by repeat split ]].
  all: try (intros i t Hi Ht; rewrite lookup_app_l by
              (rewrite cancel_idle_tasks_length; by eapply lookup_lt_Some);
            unfold cancel_idle; fold s; rewrite Hi, Ht;
            destruct (done_ t) eqn:Hd; [eauto |];
            cbn [tasks with_tasks];
            rewrite list_lookup_insert_eq by (by eapply lookup_lt_Some); eauto).
  all: intros i Hi Hlt; rewrite lookup_app_l by (by rewrite cancel_idle_tasks_length);
       unfold cancel_idle; fold s;
       destruct (idle_task s) as [j |]; [| done];
       destruct (tasks w !! j) as [t |]; [| done];
       destruct (done_ t); [done |]; cbn [tasks with_tasks];
       rewrite list_lookup_insert_ne; [done | congruence].
Qed.
Lemma play_next_arms_idle_timer_witness :
  ∃ w', play_next (env_at 1000) 7 71 idle_world = Some w'
        ∧ tasks w' = [{| task_guild := 7; wake_at := 1120; task_state := Sleeping |}]
        ∧ calls w' = [].
Proof.
  destruct (play_next_arms_idle_timer (env_at 1000) 7 71 idle_world
              {| channel := 70; current := None; playing := false; paused := false;
                 volume := 100 |})
    as (w' & Hnext & Htasks & _ & _ & _ & _ & Hcalls & _).
  - reflexivity.
  - intros [[c Hc] _]. discriminate.
  - reflexivity.
  - exists w'. split; [exact Hnext |]. split; [| exact Hcalls].
    rewrite Htasks. reflexivity.
Defined.

(** X10. [remove] with the 1-based index of a queued track removes exactly that
    track: the queue is the old one without position i, one shorter, the
    saved snapshot equals the new queue, and players, timers and calls are
    unchanged. *)
Theorem remove_valid_index (g : Z) (w : World) (i : nat) (t : Playable) :
  queue (session_of g w) !! i = Some t →
  ∃ w', remove g (Z.of_nat i + 1) w = Some ("Removed track."%string, w')
    ∧ queue (session_of g w') = take i (queue (session_of g w))
                                ++ drop (S i) (queue (session_of g w))
    ∧ length (queue (session_of g w')) = (length (queue (session_of g w)) - 1)%nat
    ∧ in_sync g w'
    ∧ guilds w' = guilds w ∧ tasks w' = tasks w ∧ calls w' = calls w.
Proof.
  intros Hi. pose proof (lookup_lt_Some _ _ _ Hi) as Hlt.
  unfold remove. rewrite session_lookup. cbv beta iota zeta.
  case_decide as Hbad; [lia |].
  rewrite persist_queue_eq. cbn [mbind option_bind].
  eexists. split; [reflexivity |]. unfold in_sync. world_simpl.
  rewrite !lookup_insert_eq. cbn [default id queue with_queue].
  replace (Z.to_nat (Z.of_nat i + 1 - 1)) with i by lia.
  rewrite <- delete_take_drop. split; [done |]. split.
  { rewrite length_delete by eauto. done. }
  split; [apply select_queue_snapshot_eq |]. done.
Qed.

Lemma remove_valid_index_witness :
  ∃ w', remove 7 2 (world_with None (session_with [song_a; song_b; song_c] Off 0))
        = Some ("Removed track."%string, w')
        ∧ queue (session_of 7 w') = [song_a; song_c].
Proof.
  destruct (remove_valid_index 7 (world_with None (session_with [song_a; song_b; song_c] Off 0))
              1 song_b) as (w' & Hrm & Hq & _); [reflexivity |].
  exists w'. split; [exact Hrm |]. rewrite Hq. reflexivity.
Defined.

(** X11. [clear] always succeeds: the queue of the guild is empty afterwards, the
    other session fields are kept, the saved queue of the guild is empty,
    and the saved queues of other guilds are as before. *)
Theorem clear_empties_queue_and_snapshot (g : Z) (w : World) :
  ∃ w', clear g w = Some ("Queue cleared."%string, w')
    ∧ session_of g w' = with_queue [] (session_of g w)
    ∧ load_queue g (store w') = []
    ∧ (∀ g', g' ≠ g → load_queue g' (store w') = load_queue g' (store w))
    ∧ guilds w' = guilds w ∧ tasks w' = tasks w ∧ calls w' = calls w.
Proof.
  unfold clear. rewrite session_lookup. cbv beta iota zeta.
  rewrite persist_queue_eq. cbn [mbind option_bind].
  eexists. split; [reflexivity |]. world_simpl.
  rewrite !lookup_insert_eq. cbn [default id queue with_queue].
  split; [done |]. split; [apply (load_queue_snapshot_eq g []) |].
  split; [| done]. intros g' Hne. by apply load_queue_other.
Qed.

Lemma has_dj_frame (g : Z) (u : User) (w : World) :
  guilds (has_dj g u w).2 = guilds w ∧ tasks (has_dj g u w).2 = tasks w
  ∧ calls (has_dj g u w).2 = calls w ∧ sessions (has_dj g u w).2 = sessions w
  ∧ persistent_queue (store (has_dj g u w).2) = persistent_queue (store w)
  ∧ dj_role_id (has_dj g u w).2 = dj_role_id w.
Proof.
  unfold has_dj. destruct u as [id | m]; [done |].
  destruct (administrator m); [done |].
  unfold get_guild_settings.
  destruct (guild_settings (store w) !! g) as [row |]; cbv beta iota zeta;
    by destruct (falsy _).
Qed.

(** X12. [stop] answers that the player is not active when the guild has none,
    and refuses without changing sessions, players, saved queues, timers or
    calls when the user fails the DJ check; otherwise it empties the queue
    and its snapshot, disconnects, and forgets the player. *)
Theorem stop_needs_player_and_dj (g : Z) (user : User) (w : World) :
  (player_of g w = None → stop g user w = Some ("Player is not active."%string, w))
  ∧ (is_Some (player_of g w) → (has_dj g user w).1 = false →
     ∃ w', stop g user w = Some ("You need DJ permissions."%string, w')
       ∧ sessions w' = sessions w ∧ guilds w' = guilds w
       ∧ persistent_queue (store w') = persistent_queue (store w)
       ∧ calls w' = calls w ∧ tasks w' = tasks w)
  ∧ (is_Some (player_of g w) → (has_dj g user w).1 = true →
     ∃ w', stop g user w = Some ("Stopped and disconnected."%string, w')
       ∧ queue (session_of g w') = []
       ∧ load_queue g (store w') = []
       ∧ player_of g w' = None
       ∧ calls w' = calls w ++ [Disconnect g]
       ∧ tasks w' = tasks w).
Proof.
  unfold stop, player_of. split; [by intros -> |].
  destruct (has_dj_frame g user w) as (Hg & Ht & Hc & Hs & Hpq & _).
  destruct (has_dj g user w) as [ok w1]. cbn [fst snd] in *.
  split; intros [p Hp]; rewrite Hp; intros ->; cbn [negb].
  - eexists. split; [reflexivity |]. done.
  - rewrite session_lookup. cbv beta iota zeta.
    rewrite persist_queue_eq. cbn [mbind option_bind].
    eexists. split; [reflexivity |]. world_simpl.
    apply (player_of_lookup g w p) in Hp.
    rewrite !lookup_insert_eq, lookup_alter_eq, Hg, Hp, Hc, Ht.
    cbn [default id queue with_queue fmap option_fmap option_map].
    split; [done |]. split; [apply (load_queue_snapshot_eq g []) |]. done.
Qed.

(** X13. [handle_track_exception] always logs one error row, with context
    track_exception and the first 1900 characters of the exception; it never
    changes a queue, the saved queues, the history, the settings or the
    timers; and when no track is current it makes no call and changes no
    session. *)
Theorem track_exception_always_logs (e : Env) (payload : Payload) (w : World) :
  let w' := handle_track_exception e payload w in
  error_logs (store w')
  = error_logs (store w) ++
      [{| e_guild_id := payload_player payload; e_context := "track_exception";
          e_error := String.substring 0 1900 (payload_exception payload);
          e_created_at := utc_now e |}]
  ∧ persistent_queue (store w') = persistent_queue (store w)
  ∧ playback_history (store w') = playback_history (store w)
  ∧ guild_settings (store w') = guild_settings (store w)
  ∧ tasks w' = tasks w
  ∧ (∀ g, queue (session_of g w') = queue (session_of g w))
  ∧ ((∀ g, payload_player payload = Some g → player_of g w ≫= current = None) →
     calls w' = calls w ∧ guilds w' = guilds w ∧ sessions w' = sessions w).
Proof.
  unfold handle_track_exception.
  destruct (payload_player payload) as [g |]; [| by repeat split].
  cbv beta iota zeta. world_simpl.
  destruct (default None (guilds w !! g) ≫= current) as [cur |] eqn:Hcur.
  2: { repeat split; done. }
  rewrite session_lookup. cbv beta iota zeta.
  assert (Hq : ∀ s' g', queue s' = queue (default new_session (sessions w !! g)) →
            queue (default new_session
                     (<[g := s']> (<[g := default new_session (sessions w !! g)]> (sessions w))
                      !! g'))
            = queue (default new_session (sessions w !! g'))).
  { intros s' g' Hs'. rewrite insert_insert_eq. destruct (decide (g = g')) as [<- | Hne].
    - by rewrite lookup_insert_eq.
    - by rewrite lookup_insert_ne. }
  case_decide; world_simpl.
  all: split; [done |]; split; [done |]; split; [done |]; split; [done |]; split; [done |].
  all: split; [intros g'; by apply Hq |].
  all: intros Hnone; specialize (Hnone g eq_refl); congruence.
Qed.

#[local] Set Warnings "-clear-no-such-hyp".

(** What the loop of [play_query] does, for any starting accumulator. *)
Lemma enqueue_new_spec (requester : Z) (incoming : list Playable)
    (q : list Playable) (uris : gset string) (n : Z) :
  ∃ added,
    enqueue_new requester incoming (q, uris, n)
    = (q ++ (with_requester requester <$> added),
       list_to_set (p_uri <$> incoming) ∪ uris,
       n + Z.of_nat (length added))
    ∧ added `sublist_of` incoming
    ∧ NoDup (p_uri <$> added)
    ∧ (∀ t, t ∈ added → p_uri t ∉ uris)
    ∧ (∀ t, t ∈ incoming → p_uri t ∉ uris → p_uri t ∈ p_uri <$> added).
Proof.
  revert q uris n; induction incoming as [| t rest IH]; intros q uris n.
  - exists []. simpl. rewrite app_nil_r, Z.add_0_r.
    split; [f_equal; f_equal; set_solver |]. split; [done |]. split; [constructor |].
    split; intros t Ht; by apply elem_of_nil in Ht.
  - simpl. case_decide as Hin.
    + destruct (IH q uris n) as (added & Heq & Hsub & Hnd & Hfresh & Hall).
      exists added. rewrite Heq. split; [f_equal; f_equal; set_solver |].
      split; [by apply sublist_cons |]. split; [done |]. split; [done |].
      intros t' Ht' Hfr. apply elem_of_cons in Ht' as [-> | Ht']; [done | by apply Hall].
    + destruct (IH (q ++ [with_requester requester t]) ({[p_uri t]} ∪ uris) (n + 1))
        as (added & Heq & Hsub & Hnd & Hfresh & Hall).
      exists (t :: added). rewrite Heq. split.
      { rewrite <- app_assoc. simpl. f_equal; [f_equal; set_solver | ].
        rewrite Nat2Z.inj_succ. lia. }
      split; [by apply sublist_skip |]. split.
      { rewrite fmap_cons. apply NoDup_cons. split; [| done].
        intros Hdup. apply list_elem_of_fmap in Hdup as (t' & Huri & Ht').
        apply (Hfresh t' Ht'). rewrite <- Huri. set_solver. }
      split.
      { intros t' Ht'. apply elem_of_cons in Ht' as [-> | Ht']; [done |].
        specialize (Hfresh t' Ht'). set_solver. }
      intros t' Ht' Hfr. rewrite fmap_cons.
      apply elem_of_cons in Ht' as [-> | Ht']; [by left |].
      destruct (decide (p_uri t' = p_uri t)) as [-> | Hne]; [by left |].
      right. apply Hall; [done | set_solver].
Qed.

(** X14. The enqueue loop of [play_query] appends a sub-list of the incoming
    tracks, each stamped with the requester: the count reported is the number
    appended, no appended uri repeats, none is already queued or current,
    every incoming track ends up queued or is the current one, and a queue
    without repeated uris stays without. *)
Theorem play_query_enqueues_without_duplicates (requester : Z) (incoming q : list Playable)
    (cur : option Playable) :
  let existing : gset string :=
    list_to_set (p_uri <$> q) ∪ match cur with Some c => {[p_uri c]} | None => ∅ end in
  let r := enqueue_new requester incoming (q, existing, 0) in
  ∃ added,
    r.1.1 = q ++ (with_requester requester <$> added)
    ∧ r.2 = Z.of_nat (length added)
    ∧ added `sublist_of` incoming
    ∧ NoDup (p_uri <$> added)
    ∧ (∀ t, t ∈ added → (p_uri t ∉ (p_uri <$> q)) ∧ Some (p_uri t) ≠ (p_uri <$> cur))
    ∧ (∀ t, t ∈ incoming →
         p_uri t ∈ (p_uri <$> r.1.1) ∨ Some (p_uri t) = (p_uri <$> cur))
    ∧ (NoDup (p_uri <$> q) → NoDup (p_uri <$> r.1.1)).
Proof.
  intros existing r.
  destruct (enqueue_new_spec requester incoming q existing 0)
    as (added & Heq & Hsub & Hnd & Hfresh & Hall).
  exists added. unfold r. rewrite Heq. cbn [fst snd].
  assert (Hex : ∀ u, u ∈ existing ↔ u ∈ p_uri <$> q ∨ Some u = p_uri <$> cur).
  { intros u. unfold existing. rewrite elem_of_union, elem_of_list_to_set.
    destruct cur as [c |]; simpl; [rewrite elem_of_singleton | rewrite elem_of_empty];
      naive_solver. }
  assert (Huris : p_uri <$> (with_requester requester <$> added) = p_uri <$> added).
  { rewrite <- list_fmap_compose. by apply list_fmap_ext. }
  split; [done |]. split; [lia |]. split; [done |]. split; [done |]. split; [| split].
  - intros t Ht. specialize (Hfresh t Ht). rewrite Hex in Hfresh. tauto.
  - intros t Ht. rewrite fmap_app, Huris, elem_of_app.
    destruct (decide (p_uri t ∈ existing)) as [Hin | Hout].
    + apply Hex in Hin. tauto.
    + left. right. by apply Hall.
  - intros Hq. rewrite fmap_app, Huris. apply NoDup_app. split; [done |]. split; [| done].
    intros u Hu Hu'. apply list_elem_of_fmap in Hu' as (t & -> & Ht).
    specialize (Hfresh t Ht). rewrite Hex in Hfresh. tauto.
Qed.

Lemma select_queue_other_eq (g g' : Z) (ts : list StoredTrack) (db : DB) :
  g' ≠ g → select_queue g' (snapshot g ts db) = select_queue g' db.
Proof. apply select_queue_other. Qed.

Lemma session_of_insert (g g' : Z) (s : GuildSession) (m : gmap Z GuildSession) :
  default new_session (<[g := s]> m !! g')
  = if decide (g = g') then s else default new_session (m !! g').
Proof. rewrite lookup_insert. by case_decide. Qed.

(** What [play_next] does to sessions and snapshots, whatever its branch. *)
Lemma play_next_effect (e : Env) (g ch : Z) (w : World) :
  ∃ w', play_next e g ch w = Some w'
    ∧ only_guild g w w'
    ∧ same_settings (session_of g w) (session_of g w')
    ∧ (in_sync g w → in_sync g w').
Proof.
  unfold play_next, only_guild, same_settings, in_sync.
  destruct (guilds w !! g) as [[p |] |] eqn:Hg; [| by eexists | by eexists].
  rewrite session_lookup. cbv beta iota zeta.
  world_simpl.
  set (s := default new_session (sessions w !! g)).
  destruct (current p) as [cur |] eqn:Hcur; destruct (loop_mode s) eqn:Hmode;
    cbv beta iota zeta.
  2: { eexists. split; [reflexivity |]. world_simpl. rewrite lookup_insert_eq.
       split; [| done]. intros g' Hne. by rewrite lookup_insert_ne. }
  all: match goal with
       | |- context [match queue ?s' with _ => _ end] =>
           destruct (queue s') as [| next rest] eqn:Hq
       end.
  all: try (cbn [queue with_queue] in Hq; destruct (queue s); discriminate Hq).
  all: try (unfold create_idle_task; cbv beta iota zeta;
            eexists; split; [reflexivity |]; world_simpl;
            destruct (cancel_idle_frame (idle_task s) (set_session g s w)) as (_ & -> & _);
            rewrite cancel_idle_sessions; world_simpl;
            rewrite insert_insert_eq, lookup_insert_eq;
            cbn [default id queue with_idle_task loop_mode default_volume retry_attempts];
            rewrite ?Hq;
            split; [intros g' Hne; by rewrite lookup_insert_ne |];
            split; [by rewrite ?Hmode |]; by rewrite ?Hq).
  all: rewrite persist_queue_eq; cbn [mbind option_bind];
       eexists; (split; [reflexivity |]);
       unfold send_or_update_player_embed; world_simpl;
       rewrite !lookup_alter_eq, !lookup_insert_eq, Hg;
       cbn [fmap option_fmap option_map current default id]; world_simpl;
       rewrite !insert_insert_eq, !lookup_insert_eq;
       cbn [default id queue with_queue with_last_track loop_mode default_volume
            retry_attempts].
  all: split; [intros g' Hne; split;
                 [by rewrite lookup_insert_ne | by apply select_queue_other_eq] |].
  all: split; [by rewrite ?Hmode |].
  all: intros _; apply select_queue_snapshot_eq.
Qed.

Lemma only_guild_refl (g : Z) (w : World) : only_guild g w w.
Proof. by intros g' Hne. Qed.

Lemma only_guild_trans (g : Z) (w1 w2 w3 : World) :
  only_guild g w1 w2 → only_guild g w2 w3 → only_guild g w1 w3.
Proof.
  intros H12 H23 g' Hne. destruct (H12 g' Hne) as [Hs Hq], (H23 g' Hne) as [Hs' Hq'].
  split; congruence.
Qed.

Lemma ensure_player_frame (g v : Z) (w : World) :
  store (ensure_player g v w) = store w ∧ tasks (ensure_player g v w) = tasks w
  ∧ is_Some (player_of g (ensure_player g v w)).
Proof.
  unfold ensure_player, player_of.
  destruct (guilds w !! g) as [[p |] |] eqn:Hg; cbn [default id].
  - case_decide; world_simpl; rewrite ?lookup_alter_eq, Hg; by eauto.
  - world_simpl. rewrite lookup_insert_eq. by eauto.
  - world_simpl. rewrite lookup_insert_eq. by eauto.
Qed.

Lemma play_query_effect (e : Env) (nodes : bool) (results : SearchResult)
    (g : Z) (user : Member) (ch : Z) (w : World) :
  let incoming := match results with Playlist l => l | Tracks l => take 1 l end in
  ∃ msg w', play_query e nodes results g user ch w = Some (msg, w')
    ∧ only_guild g w w'
    ∧ (voice_channel user = None → msg = "Join a voice channel first."%string ∧ w' = w)
    ∧ (is_Some (voice_channel user) →
       default_volume (session_of g w') = stored_volume g (store w)
       ∧ loop_mode (session_of g w') = loop_mode (session_of g w)
       ∧ retry_attempts (session_of g w') = retry_attempts (session_of g w))
    ∧ (is_Some (voice_channel user) → nodes = false ∨ incoming = [] →
       msg = (if nodes then "No tracks found." else "Lavalink is not connected.")%string
       ∧ queue (session_of g w') = queue (session_of g w)
       ∧ persistent_queue (store w') = persistent_queue (store w)
       ∧ tasks w' = tasks w
       ∧ is_Some (player_of g w'))
    ∧ (is_Some (voice_channel user) → nodes = true → incoming ≠ [] → in_sync g w')
    ∧ (in_sync g w → in_sync g w').
Proof.
  intros incoming. unfold play_query. fold incoming.
  destruct (voice_channel user) as [voice |].
  2: { eexists _, _. split; [reflexivity |]. split; [apply only_guild_refl |].
       split; [done |]. repeat split; try done; by intros [? [=]]. }
  assert (Hset : ∃ settings db, get_guild_settings g (store w) = (settings, db)
            ∧ or_int (gs_volume settings) 100 = stored_volume g (store w)
            ∧ persistent_queue db = persistent_queue (store w)).
  { unfold get_guild_settings, stored_volume.
    destruct (guild_settings (store w) !! g) as [row |]; eexists _, _; by repeat split. }
  destruct Hset as (settings & db & -> & Hvol & Hpq). cbv zeta.
  rewrite session_lookup. cbv beta iota zeta.
  world_simpl.
  set (s0 := default new_session (sessions w !! g)).
  set (s := with_default_volume _ s0).
  set (w1 := ensure_player g voice _).
  destruct (ensure_player_frame g voice
              (set_session g s (set_session g s0 (with_store db w)))) as (Hst1 & Ht1 & Hp1).
  fold w1 in Hst1, Ht1, Hp1.
  assert (Hs1 : sessions w1 = <[g := s]> (sessions w)).
  { unfold w1. rewrite ensure_player_sessions. world_simpl. by rewrite insert_insert_eq. }
  assert (Hsel1 : ∀ g', select_queue g' (store w1) = select_queue g' (store w)).
  { intros g'. unfold select_queue. rewrite Hst1. world_simpl. by rewrite Hpq. }
  assert (H1 : only_guild g w w1).
  { intros g' Hne. rewrite Hs1, lookup_insert_ne by done. split; [done | apply Hsel1]. }
  assert (Hrej : ∀ msg : string, ∃ (msg' : string) (w' : World),
            Some (msg, w1) = Some (msg', w')
            ∧ only_guild g w w' ∧ msg' = msg
            ∧ default_volume (session_of g w') = stored_volume g (store w)
            ∧ loop_mode (session_of g w') = loop_mode s0
            ∧ retry_attempts (session_of g w') = retry_attempts s0
            ∧ queue (session_of g w') = queue s0
            ∧ persistent_queue (store w') = persistent_queue (store w)
            ∧ tasks w' = tasks w
            ∧ is_Some (player_of g w')
            ∧ (in_sync g w → in_sync g w')).
  { intros msg. eexists _, _. split; [reflexivity |]. split; [done |]. split; [done |].
    unfold session_of, in_sync, session_of. rewrite Hs1, lookup_insert_eq, Hsel1.
    cbn [default id]. rewrite Hst1, Ht1. world_simpl. by repeat split. }
  destruct nodes; cbn [negb].
  2: { destruct (Hrej "Lavalink is not connected."%string) as
         (msg' & w' & -> & Ho & -> & Hv & Hl & Hr & Hq & Hp & Ht & Hpl & Hsync).
       eexists _, _. split; [reflexivity |]. split; [done |]. split; [done |].
       split; [by intros _ |]. split; [intros _ _; by repeat split |].
       split; [by intros _ [=] | done]. }
  destruct incoming as [| t ts] eqn:Hinc.
  { destruct (Hrej "No tracks found."%string) as
      (msg' & w' & -> & Ho & -> & Hv & Hl & Hr & Hq & Hp & Ht & Hpl & Hsync).
    eexists _, _. split; [reflexivity |]. split; [done |]. split; [done |].
    split; [by intros _ |]. split; [intros _ _; by repeat split |].
    split; [by intros _ _ Hne | done]. }
  clear Hrej.
  destruct (enqueue_new _ _ _) as [[q uris] added].
  rewrite persist_queue_eq. cbn [mbind option_bind].
  set (w2 := with_store _ _).
  assert (Hs2 : sessions w2 = <[g := with_queue q s]> (sessions w)).
  { unfold w2. world_simpl. rewrite Hs1, !insert_insert_eq, lookup_insert_eq. done. }
  assert (H2 : only_guild g w w2).
  { apply (only_guild_trans g w w1); [done |]. intros g' Hne.
    rewrite Hs2, Hs1, !lookup_insert_ne by done. split; [done |].
    unfold w2. world_simpl. by apply select_queue_other_eq. }
  assert (Hsync2 : in_sync g w2).
  { unfold in_sync, session_of. rewrite Hs2, lookup_insert_eq. cbn [default id].
    unfold w2. world_simpl. rewrite lookup_insert_eq. cbn [default id].
    apply select_queue_snapshot_eq. }
  assert (Hfields2 : default_volume (session_of g w2) = stored_volume g (store w)
            ∧ loop_mode (session_of g w2) = loop_mode s0
            ∧ retry_attempts (session_of g w2) = retry_attempts s0).
  { unfold session_of. rewrite Hs2, lookup_insert_eq. done. }
  destruct Hfields2 as (Hv2 & Hl2 & Hr2).
  unfold session_of in *.
  destruct (match default None (guilds w2 !! g) with Some p => _ | None => _ end).
  - destruct (play_next_effect e g ch w2) as (w3 & Hnext & H23 & (Hl3 & Hv3 & Hr3) & Hsync3).
    unfold session_of in *.
    rewrite Hnext. cbn [mbind option_bind].
    eexists _, _. split; [reflexivity |].
    split; [by apply (only_guild_trans g w w2) |]. split; [done |].
    split; [intros _; repeat split; congruence |].
    split; [intros _ [[=] | [=]] |]. split; [intros _ _ _; by apply Hsync3 |].
    intros _. by apply Hsync3.
  - cbn [mbind option_bind]. eexists _, _. split; [reflexivity |].
    split; [done |]. split; [done |]. split; [done |].
    split; [intros _ [[=] | [=]] |]. done.
Qed.

Lemma in_sync_other (g g' : Z) (w w' : World) :
  only_guild g w w' → g' ≠ g → in_sync g' w → in_sync g' w'.
Proof.
  intros Honly Hne. destruct (Honly g' Hne) as [Hs Hq].
  unfold in_sync, session_of. by rewrite Hs, Hq.
Qed.

Lemma keeps_sync_intro (g : Z) (w w' : World) :
  only_guild g w w' → (in_sync g w → in_sync g w') → keeps_sync g w w'.
Proof.
  intros Honly Hg. split; [done |]. intros g'.
  destruct (decide (g' = g)) as [-> | Hne]; [done | by apply (in_sync_other g)].
Qed.

Lemma keeps_sync_trans (g : Z) (w1 w2 w3 : World) :
  keeps_sync g w1 w2 → keeps_sync g w2 w3 → keeps_sync g w1 w3.
Proof.
  intros [Ho12 Hs12] [Ho23 Hs23]. split; [by apply (only_guild_trans g w1 w2) |].
  intros g' Hs. by apply Hs23, Hs12.
Qed.

(** Nothing of the sessions or of the queue table changed. *)
Lemma keeps_sync_frame (g : Z) (w w' : World) :
  sessions w' = sessions w →
  persistent_queue (store w') = persistent_queue (store w) →
  keeps_sync g w w'.
Proof.
  intros Hs Hq.
  assert (Hsel : ∀ g', select_queue g' (store w') = select_queue g' (store w)).
  { intros g'. unfold select_queue. by rewrite Hq. }
  apply keeps_sync_intro.
  - intros g' _. by rewrite Hs, Hsel.
  - unfold in_sync, session_of. by rewrite Hs, Hsel.
Qed.

(** The session of [g] was written, with the same queue. *)
Lemma keeps_sync_touch (g : Z) (s' : GuildSession) (w w' : World) :
  sessions w' = <[g := s']> (sessions w) →
  queue s' = queue (session_of g w) →
  persistent_queue (store w') = persistent_queue (store w) →
  keeps_sync g w w'.
Proof.
  intros Hs Hqs Hq.
  assert (Hsel : ∀ g', select_queue g' (store w') = select_queue g' (store w)).
  { intros g'. unfold select_queue. by rewrite Hq. }
  apply keeps_sync_intro.
  - intros g' Hne. by rewrite Hs, Hsel, lookup_insert_ne.
  - unfold in_sync, session_of in *. rewrite Hs, Hsel, lookup_insert_eq. cbn [default id].
    by rewrite Hqs.
Qed.

(** The queue of [g] was written and persisted. *)
Lemma keeps_sync_persist (g : Z) (s' : GuildSession) (db : DB) (w w' : World) :
  sessions w' = <[g := s']> (sessions w) →
  persistent_queue (store w') = persistent_queue (snapshot g (_stored <$> queue s') db) →
  persistent_queue db = persistent_queue (store w) →
  keeps_sync g w w'.
Proof.
  intros Hs Hq Hdb.
  apply keeps_sync_intro.
  - intros g' Hne. rewrite Hs, lookup_insert_ne by done. split; [done |].
    unfold select_queue. rewrite Hq.
    change (select_queue g' (snapshot g (_stored <$> queue s') db) = select_queue g' (store w)).
    rewrite select_queue_other_eq by done. unfold select_queue. by rewrite Hdb.
  - intros _. unfold in_sync, session_of. rewrite Hs, lookup_insert_eq. cbn [default id].
    unfold select_queue. rewrite Hq. apply select_queue_snapshot_eq.
Qed.

Lemma remove_keeps_sync (g i : Z) (w : World) :
  ∃ r, remove g i w = Some r ∧ keeps_sync g w r.2.
Proof.
  unfold remove. rewrite session_lookup. cbv beta iota zeta. case_decide.
  - eexists. split; [reflexivity |]. cbn [snd].
    by eapply keeps_sync_touch.
  - rewrite persist_queue_eq. cbn [mbind option_bind].
    eexists. split; [reflexivity |]. cbn [snd].
    eapply (keeps_sync_persist g _ (store w)); [| | reflexivity].
    + world_simpl. by rewrite !insert_insert_eq.
    + world_simpl. by rewrite !lookup_insert_eq.
Qed.

Lemma clear_keeps_sync (g : Z) (w : World) :
  ∃ r, clear g w = Some r ∧ keeps_sync g w r.2.
Proof.
  unfold clear. rewrite session_lookup. cbv beta iota zeta.
  rewrite persist_queue_eq. cbn [mbind option_bind].
  eexists. split; [reflexivity |]. cbn [snd].
  eapply (keeps_sync_persist g _ (store w)); [| | reflexivity].
  - world_simpl. by rewrite !insert_insert_eq.
  - world_simpl. by rewrite !lookup_insert_eq.
Qed.

Lemma shuffle_keeps_sync (draws : nat → nat) (g : Z) (w : World) :
  ∃ r, shuffle draws g w = Some r ∧ keeps_sync g w r.2.
Proof.
  unfold shuffle. rewrite session_lookup. cbv beta iota zeta.
  rewrite persist_queue_eq. cbn [mbind option_bind].
  eexists. split; [reflexivity |]. cbn [snd].
  eapply (keeps_sync_persist g _ (store w)); [| | reflexivity].
  - world_simpl. by rewrite !insert_insert_eq.
  - world_simpl. by rewrite !lookup_insert_eq.
Qed.

Lemma toggle_loop_keeps_sync (g : Z) (w : World) : keeps_sync g w (toggle_loop g w).2.
Proof.
  unfold toggle_loop. rewrite session_lookup. cbv beta iota zeta. cbn [snd].
  eapply keeps_sync_touch; [| | reflexivity].
  - world_simpl. by rewrite insert_insert_eq.
  - done.
Qed.

Lemma has_dj_keeps_sync (g : Z) (u : User) (w : World) : keeps_sync g w (has_dj g u w).2.
Proof.
  destruct (has_dj_frame g u w) as (_ & _ & _ & Hs & Hq & _). by apply keeps_sync_frame.
Qed.

Lemma stop_keeps_sync (g : Z) (u : User) (w : World) :
  ∃ r, stop g u w = Some r ∧ keeps_sync g w r.2.
Proof.
  unfold stop. destruct (default None (guilds w !! g)) as [p |].
  2: { eexists. split; [reflexivity |]. by apply keeps_sync_frame. }
  pose proof (has_dj_keeps_sync g u w) as Hdj.
  destruct (has_dj g u w) as [ok w1]. cbn [snd] in Hdj.
  destruct ok; cbn [negb].
  2: { eexists. split; [reflexivity |]. done. }
  rewrite session_lookup. cbv beta iota zeta.
  rewrite persist_queue_eq. cbn [mbind option_bind].
  eexists. split; [reflexivity |]. cbn [snd].
  apply (keeps_sync_trans g w w1); [done |].
  eapply (keeps_sync_persist g _ (store w1)); [| | reflexivity].
  - world_simpl. by rewrite !insert_insert_eq.
  - world_simpl. by rewrite !lookup_insert_eq.
Qed.

Lemma play_next_keeps_sync (e : Env) (g ch : Z) (w : World) :
  ∃ w', play_next e g ch w = Some w' ∧ keeps_sync g w w'.
Proof.
  destruct (play_next_effect e g ch w) as (w' & Hnext & Honly & _ & Hsync).
  exists w'. split; [done |]. by apply keeps_sync_intro.
Qed.

Lemma play_query_keeps_sync (e : Env) (nodes : bool) (results : SearchResult)
    (g : Z) (user : Member) (ch : Z) (w : World) :
  ∃ r, play_query e nodes results g user ch w = Some r ∧ keeps_sync g w r.2.
Proof.
  destruct (play_query_effect e nodes results g user ch w) as
    (msg & w' & Hq & Honly & _ & _ & _ & _ & Hsync).
  exists (msg, w'). split; [done |]. by apply keeps_sync_intro.
Qed.

Lemma get_guild_settings_queue (g : Z) (db : DB) :
  persistent_queue (get_guild_settings g db).2 = persistent_queue db.
Proof. unfold get_guild_settings. by destruct (guild_settings db !! g). Qed.

Lemma handle_track_end_keeps_sync (e : Env) (g : Z) (x : string) (w : World) :
  ∃ w', handle_track_end e (failure g x) w = Some w' ∧ keeps_sync g w w'.
Proof.
  unfold handle_track_end, failure. cbn [payload_player].
  pose proof (get_guild_settings_queue g (store w)) as Hq.
  destruct (get_guild_settings g (store w)) as [settings db]. cbn [snd] in Hq. cbv zeta.
  assert (H1 : keeps_sync g w (with_store db w)) by by apply keeps_sync_frame.
  destruct (falsy _); [by eexists |].
  case_decide; [| by eexists].
  destruct (play_next_keeps_sync e g (default 0 (gs_last_text_channel settings))
              (with_store db w)) as (w' & Hnext & Hk).
  exists w'. split; [done |]. by apply (keeps_sync_trans g w (with_store db w)).
Qed.

Lemma handle_track_exception_keeps_sync (e : Env) (g : Z) (x : string) (w : World) :
  keeps_sync g w (handle_track_exception e (failure g x) w).
Proof.
  unfold handle_track_exception, failure. cbn [payload_player payload_exception].
  world_simpl.
  destruct (default None (guilds w !! g) ≫= current) as [cur |].
  2: { by apply keeps_sync_frame. }
  rewrite session_lookup. cbv beta iota zeta.
  case_decide; (eapply keeps_sync_touch; [world_simpl; by rewrite insert_insert_eq | done | done]).
Qed.

Lemma wake_store (now : float) (w : World) (i : nat) : store (wake now w i) = store w.
Proof.
  unfold wake. destruct (tasks w !! i) as [t |]; [| done].
  destruct (task_state t); try done.
  destruct (PrimFloat.leb (wake_at t) now); [| done].
  unfold _idle_disconnect. world_simpl.
  by destruct (guilds w !! task_guild t) as [[p |] |].
Qed.

Lemma run_timers_store (now : float) (w : World) : store (run_timers now w) = store w.
Proof.
  unfold run_timers. generalize (seq 0 (length (tasks w))). intros l.
  revert w; induction l as [| i l IH]; intros w; [done |].
  simpl. by rewrite IH, wake_store.
Qed.

Lemma run_timers_keeps_sync (now : float) (g : Z) (w : World) :
  keeps_sync g w (run_timers now w).
Proof.
  apply keeps_sync_frame; [apply run_timers_sessions | by rewrite run_timers_store].
Qed.

Lemma set_volume_keeps_sync (g : Z) (u : User) (v : Z) (w : World) :
  keeps_sync g w (set_volume g u v w).2.
Proof.
  unfold set_volume. destruct (default None (guilds w !! g)) as [p |].
  2: { by apply keeps_sync_frame. }
  pose proof (has_dj_keeps_sync g u w) as Hdj.
  destruct (has_dj g u w) as [ok w1]. cbn [snd] in Hdj.
  destruct ok; cbn [negb]; [| done].
  rewrite session_lookup. cbv beta iota zeta. cbn [snd].
  apply (keeps_sync_trans g w w1); [done |].
  eapply keeps_sync_touch; [world_simpl; by rewrite insert_insert_eq | done | done].
Qed.

Lemma toggle_pause_keeps_sync (g : Z) (u : User) (w : World) :
  keeps_sync g w (toggle_pause g u w).1.2.
Proof.
  unfold toggle_pause. destruct (default None (guilds w !! g)) as [p |].
  2: { by apply keeps_sync_frame. }
  pose proof (has_dj_keeps_sync g u w) as Hdj.
  destruct (has_dj g u w) as [ok w1]. cbn [snd] in Hdj.
  destruct ok; cbn [negb fst snd]; [| done].
  apply (keeps_sync_trans g w w1); [done |]. by apply keeps_sync_frame.
Qed.

Lemma skip_keeps_sync (g : Z) (u : User) (w : World) : keeps_sync g w (skip g u w).2.
Proof.
  unfold skip. destruct (default None (guilds w !! g)) as [p |].
  2: { by apply keeps_sync_frame. }
  pose proof (has_dj_keeps_sync g u w) as Hdj.
  destruct (has_dj g u w) as [ok w1]. cbn [snd] in Hdj.
  destruct ok; cbn [negb fst snd]; [| done].
  apply (keeps_sync_trans g w w1); [done |]. by apply keeps_sync_frame.
Qed.

Lemma seek_keeps_sync (g : Z) (u : User) (secs : Z) (w : World) :
  keeps_sync g w (seek g u secs w).1.2.
Proof.
  unfold seek. destruct (default None (guilds w !! g)) as [p |].
  2: { by apply keeps_sync_frame. }
  pose proof (has_dj_keeps_sync g u w) as Hdj.
  destruct (has_dj g u w) as [ok w1]. cbn [snd] in Hdj.
  by destruct ok.
Qed.

Lemma get_queue_text_keeps_sync (g : Z) (limit : nat) (w : World) :
  keeps_sync g w (get_queue_text g limit w).2.
Proof.
  unfold get_queue_text. rewrite session_lookup. cbv beta iota zeta.
  destruct (queue (session_of g w)); cbn [snd]; by eapply keeps_sync_touch.
Qed.



(** X16. For a DJ and an active player, [set_volume] uses the volume clamped to
    0..200 (the request itself when in range): in the answer, in the session
    default, on the player, in the call to the player, and in the settings
    row when the guild has one; without a row the store is unchanged. *)
Theorem set_volume_clamps (g : Z) (user : User) (v : Z) (w : World) (p : Player) :
  player_of g w = Some p →
  (has_dj g user w).1 = true →
  let v' := Z.max 0 (Z.min 200 v) in
  let r := set_volume g user v w in
  0 ≤ v' ≤ 200
  ∧ (0 ≤ v ≤ 200 → v' = v)
  ∧ r.1 = ("Volume set to " +:+ pretty v' +:+ ".")%string
  ∧ default_volume (session_of g r.2) = v'
  ∧ volume <$> player_of g r.2 = Some v'
  ∧ calls r.2 = calls w ++ [SetVolume g v']
  ∧ (∀ row, guild_settings (store (has_dj g user w).2) !! g = Some row →
       guild_settings (store r.2) !! g ≫= gs_volume = Some v')
  ∧ (guild_settings (store (has_dj g user w).2) !! g = None →
       store r.2 = store (has_dj g user w).2).
Proof.
  intros Hp Hok v' r. unfold r, set_volume.
  apply player_of_lookup in Hp as Hg. unfold player_of in Hp. rewrite Hp.
  destruct (has_dj_frame g user w) as (Hgs & _ & Hc & _ & _ & _).
  destruct (has_dj g user w) as [ok w1]. cbn [fst snd] in *. subst ok. cbn [negb].
  rewrite session_lookup. cbv beta iota zeta. fold v'. cbn [fst snd]. world_simpl.
  rewrite lookup_alter_eq, Hgs, Hg, Hc, lookup_insert_eq.
  cbn [default id fmap option_fmap option_map default_volume with_default_volume volume].
  split; [lia |]. split; [lia |]. split; [done |]. split; [done |]. split; [done |].
  split; [done |]. split.
  - intros row Hrow. unfold Store.set_volume. cbn [guild_settings with_guild_settings].
    by rewrite lookup_alter_eq, Hrow.
  - intros Hnone. unfold Store.set_volume.
    assert (Ha : ∀ f, alter f g (guild_settings (store w1)) = guild_settings (store w1)).
    { intros f. apply map_eq. intros k. rewrite lookup_alter.
      case_decide; [subst; by rewrite Hnone | done]. }
    rewrite Ha. by destruct (store w1).
Qed.

Lemma set_volume_clamps_witness :
  default_volume
    (session_of 7 (set_volume 7 (GuildMember listener) 250
                     (world_with (Some song_a) (session_with [] Off 0))).2) = 200.
Proof.
  apply (set_volume_clamps 7 (GuildMember listener) 250
           (world_with (Some song_a) (session_with [] Off 0))
           {| channel := 70; current := Some song_a; playing := true; paused := false;
              volume := 100 |}); reflexivity.
Defined.

(** X17. [set_volume], [seek], [toggle_pause] and [skip] answer that the player
    is not active when the guild has none, leaving the world as it is; when
    the user fails the DJ check they refuse, and what is left is the world of
    the check: no player, session, call, timer or saved queue changed. *)
Theorem dj_check_rejections (g : Z) (user : User) (w : World) :
  (player_of g w = None →
   (∀ v, set_volume g user v w = ("Player is not active."%string, w))
   ∧ (∀ secs, seek g user secs w = ("Player is not active."%string, w, []))
   ∧ toggle_pause g user w = ((false, "Player is not active."%string), w, [])
   ∧ skip g user w = ((false, "Player is not active."%string), w))
  ∧ (is_Some (player_of g w) → (has_dj g user w).1 = false →
     let w1 := (has_dj g user w).2 in
     (∀ v, set_volume g user v w = ("You need DJ permissions."%string, w1))
     ∧ (∀ secs, seek g user secs w = ("You need DJ permissions."%string, w1, []))
     ∧ toggle_pause g user w = ((false, "You need DJ permissions."%string), w1, [])
     ∧ skip g user w = ((false, "You need DJ permissions."%string), w1)
     ∧ guilds w1 = guilds w ∧ sessions w1 = sessions w ∧ calls w1 = calls w
     ∧ tasks w1 = tasks w
     ∧ persistent_queue (store w1) = persistent_queue (store w)).
Proof.
  split.
  - unfold set_volume, seek, toggle_pause, skip, player_of. intros ->. by repeat split.
  - intros [p Hp] Hno. cbv zeta.
    destruct (has_dj_frame g user w) as (Hg & Ht & Hc & Hs & Hq & _).
    unfold set_volume, seek, toggle_pause, skip. unfold player_of in Hp. rewrite Hp.
    destruct (has_dj g user w) as [ok w2]. cbn [fst snd] in *. subst ok.
    cbn [negb]. by repeat split.
Qed.

(** A second check on the world the first one left gives the same answer
    and changes nothing more. *)
Lemma has_dj_again (g : Z) (u : User) (w w' : World) :
  store w' = store (has_dj g u w).2 →
  dj_role_id w' = dj_role_id w →
  has_dj g u w' = ((has_dj g u w).1, w').
Proof.
  unfold has_dj. destruct u as [id | m]; [done |].
  destruct (administrator m); [done |].
  unfold get_guild_settings.
  destruct (guild_settings (store w) !! g) as [row |] eqn:Hrow; cbv beta iota zeta.
  - destruct (falsy (or_opt (gs_dj_role_id row) (dj_role_id (with_store (store w) w))))
      eqn:Hf; cbn [fst snd store with_store]; intros Hst Hdj; rewrite Hst, Hrow;
      cbv beta iota zeta; cbn [dj_role_id with_store] in *; rewrite Hdj, Hf, <- Hst;
      by rewrite with_store_same.
  - set (db := with_guild_settings _ _).
    destruct (falsy (or_opt (gs_dj_role_id default_settings) (dj_role_id (with_store db w))))
      eqn:Hf; cbn [fst snd store with_store]; intros Hst Hdj; rewrite Hst;
      unfold db at 1; cbn [guild_settings with_guild_settings]; rewrite lookup_insert_eq;
      cbv beta iota zeta; cbn [dj_role_id with_store] in *; rewrite Hdj, Hf, <- Hst;
      by rewrite with_store_same.
Qed.

(** X18. For a DJ and an active player: [seek] asks the player for
    max(0, seconds * 1000) milliseconds, so never a negative position;
    [toggle_pause] asks for the opposite of the paused flag, keeps the
    current track, and a second toggle restores the player; [skip] makes one
    skip call and changes no session, player or saved queue. *)
Theorem seek_and_pause_requests (g : Z) (user : User) (w : World) (p : Player) :
  player_of g w = Some p →
  (has_dj g user w).1 = true →
  (∀ secs, ∃ w', seek g user secs w = ("Seeked."%string, w', [Seek g (Z.max 0 (secs * 1000))])
                 ∧ 0 ≤ Z.max 0 (secs * 1000)
                 ∧ (secs ≤ 0 → Z.max 0 (secs * 1000) = 0)
                 ∧ guilds w' = guilds w ∧ sessions w' = sessions w)
  ∧ (∃ w', toggle_pause g user w
           = ((true, "Toggled pause."%string), w', [Pause g (negb (paused p))])
           ∧ paused <$> player_of g w' = Some (negb (paused p))
           ∧ current <$> player_of g w' = Some (current p)
           ∧ sessions w' = sessions w
           ∧ ∃ w'', toggle_pause g user w'
                    = ((true, "Toggled pause."%string), w'', [Pause g (paused p)])
                    ∧ player_of g w'' = Some p)
  ∧ (∃ w', skip g user w = ((true, "Skipped."%string), w')
           ∧ calls w' = calls w ++ [Skip g]
           ∧ sessions w' = sessions w ∧ guilds w' = guilds w
           ∧ persistent_queue (store w') = persistent_queue (store w)).
Proof.
  intros Hp Hok. apply player_of_lookup in Hp as Hg. unfold player_of in Hp.
  destruct (has_dj_frame g user w) as (Hgs & Ht & Hc & Hs & Hq & Hdj).
  pose proof (has_dj_again g user w) as Hagain.
  unfold seek, toggle_pause, skip. rewrite Hp.
  destruct (has_dj g user w) as [ok w1]. cbn [fst snd] in *. subst ok. cbn [negb].
  split; [| split].
  - intros secs. eexists. split; [reflexivity |]. repeat split; try done; lia.
  - eexists. split; [reflexivity |]. unfold player_of. world_simpl.
    rewrite lookup_alter_eq, Hgs, Hg. cbn [fmap option_fmap option_map default id paused current].
    split; [done |]. split; [done |]. split; [done |].
    rewrite (Hagain (update_player g _ w1)) by done. cbn [negb fst paused].
    eexists. split; [by rewrite negb_involutive |].
    world_simpl. rewrite !lookup_alter_eq, Hgs, Hg.
    cbn [fmap option_fmap option_map default id channel current playing paused volume].
    by destruct p.
  - eexists. split; [reflexivity |]. world_simpl. by rewrite Hc.
Qed.

Lemma seek_and_pause_requests_witness :
  ∃ w', seek 7 (GuildMember listener) (-5) (world_with (Some song_a) (session_with [] Off 0))
        = ("Seeked."%string, w', [Seek 7 0]).
Proof.
  destruct (seek_and_pause_requests 7 (GuildMember listener)
              (world_with (Some song_a) (session_with [] Off 0))
              {| channel := 70; current := Some song_a; playing := true; paused := false;
                 volume := 100 |}) as [Hseek _]; try reflexivity.
  destruct (Hseek (-5)) as (w' & Hs & _). by exists w'.
Defined.

Lemma swap_Permutation {A : Type} (i j : nat) (l : list A) : swap i j l ≡ₚ l.
Proof.
  unfold swap. destruct (l !! i) as [x |] eqn:Hi; [| done].
  destruct (l !! j) as [y |] eqn:Hj; [| done].
  by apply Permutation_insert_swap.
Qed.

Lemma shuffle_from_Permutation {A : Type} (i : nat) (draws : nat → nat) (l : list A) :
  shuffle_from i draws l ≡ₚ l.
Proof.
  revert l; induction i as [| i IH]; intros l; [done |].
  simpl. rewrite IH. apply swap_Permutation.
Qed.

(** X19. [shuffle] succeeds whatever the random draws: the new queue is a
    permutation of the old one, of the same length, the saved snapshot equals
    it, and players, calls, timers, loop mode and last track are unchanged. *)
Theorem shuffle_permutes (draws : nat → nat) (g : Z) (w : World) :
  ∃ w', shuffle draws g w = Some ("Queue shuffled."%string, w')
    ∧ queue (session_of g w') ≡ₚ queue (session_of g w)
    ∧ length (queue (session_of g w')) = length (queue (session_of g w))
    ∧ in_sync g w'
    ∧ guilds w' = guilds w ∧ calls w' = calls w ∧ tasks w' = tasks w
    ∧ loop_mode (session_of g w') = loop_mode (session_of g w)
    ∧ last_track (session_of g w') = last_track (session_of g w).
Proof.
  unfold shuffle. rewrite session_lookup. cbv beta iota zeta.
  rewrite persist_queue_eq. cbn [mbind option_bind].
  eexists. split; [reflexivity |]. unfold in_sync. world_simpl.
  rewrite !lookup_insert_eq. cbn [default id queue with_queue loop_mode last_track].
  assert (Hperm := shuffle_from_Permutation
            (length (queue (default new_session (sessions w !! g))) - 1) draws
            (queue (default new_session (sessions w !! g)))).
  split; [exact Hperm |]. split; [by rewrite Hperm |].
  split; [apply select_queue_snapshot_eq |]. done.
Qed.

Lemma enumerate_from_lookup {A : Type} (k : Z) (l : list A) (i : nat) :
  enumerate_from k l !! i = (λ x, (k + Z.of_nat i, x)) <$> l !! i.
Proof.
  revert k i; induction l as [| x l IH]; intros k [| i]; simpl; try done.
  - by rewrite Z.add_0_r.
  - rewrite IH. destruct (l !! i); simpl; [| done]. do 2 f_equal. lia.
Qed.

Lemma enumerate_from_length {A : Type} (k : Z) (l : list A) :
  length (enumerate_from k l) = length l.
Proof. revert k; induction l as [| x l IH]; intros k; simpl; [done | by rewrite IH]. Qed.

(** X20. [get_queue_text] answers that the queue is empty for an empty queue;
    otherwise it joins, with newlines, one line per track for the first
    [limit] tracks, line i being the 1-based index, a dot and the title; it
    changes neither the queue nor the store. *)
Theorem get_queue_text_lists (g : Z) (limit : nat) (w : World) :
  let q := queue (session_of g w) in
  (q = [] → (get_queue_text g limit w).1 = "Queue is empty."%string)
  ∧ (q ≠ [] →
     (get_queue_text g limit w).1
     = String.concat (String "010"%char EmptyString) (queue_lines limit q))
  ∧ length (queue_lines limit q) = Nat.min limit (length q)
  ∧ (∀ i t, q !! i = Some t → (i < limit)%nat →
       queue_lines limit q !! i
       = Some (pretty (1 + Z.of_nat i) +:+ ". " +:+ p_title t)%string)
  ∧ (∀ i, (limit ≤ i)%nat → queue_lines limit q !! i = None)
  ∧ queue (session_of g (get_queue_text g limit w).2) = q
  ∧ store (get_queue_text g limit w).2 = store w.
Proof.
  intros q. unfold get_queue_text. rewrite session_lookup. cbv beta iota zeta.
  assert (Hsame : queue (session_of g (set_session g (session_of g w) w)) = q
                  ∧ store (set_session g (session_of g w) w) = store w).
  { world_simpl. by rewrite lookup_insert_eq. }
  fold q. clearbody q.
  split; [by intros -> |]. split; [by destruct q |]. split; [| split; [| split]].
  - unfold queue_lines. by rewrite length_fmap, enumerate_from_length, length_take.
  - intros i t Hi Hlt. unfold queue_lines.
    rewrite list_lookup_fmap, enumerate_from_lookup, lookup_take_lt, Hi by done. done.
  - intros i Hle. apply lookup_ge_None.
    unfold queue_lines. rewrite length_fmap, enumerate_from_length, length_take. lia.
  - by destruct q.
Qed.

(** One step of the timer loop, at index [i]. *)
Lemma wake_effect (now : float) (w : World) (i : nat) :
  (∀ j, j ≠ i → tasks (wake now w i) !! j = tasks w !! j)
  ∧ (∀ t, tasks w !! i = Some t → ¬ due now t → wake now w i = w)
  ∧ (tasks w !! i = None → wake now w i = w)
  ∧ (∀ t, tasks w !! i = Some t → due now t →
       tasks (wake now w i) !! i
       = Some {| task_guild := task_guild t; wake_at := wake_at t; task_state := Finished |}
       ∧ ∃ cs, calls (wake now w i) = calls w ++ cs
               ∧ ∀ c, c ∈ cs → c = Disconnect (task_guild t)).
Proof.
  unfold wake, due. split; [| split; [| split]].
  - intros j Hne. destruct (tasks w !! i) as [t |] eqn:Ht; [| done].
    destruct (task_state t); try done.
    destruct (PrimFloat.leb (wake_at t) now); [| done].
    unfold _idle_disconnect. world_simpl.
    destruct (guilds w !! task_guild t) as [[p |] |]; world_simpl;
      by rewrite list_lookup_insert_ne.
  - intros t -> Hnot. cbv beta iota. destruct (task_state t) eqn:Hst; try done.
    destruct (PrimFloat.leb (wake_at t) now); [| done]. exfalso. by apply Hnot.
  - by intros ->.
  - intros t Ht [Hs Hd]. rewrite Ht. cbv beta iota. rewrite Hs, Hd.
    pose proof (lookup_lt_Some _ _ _ Ht) as Hlt.
    unfold _idle_disconnect. world_simpl.
    destruct (guilds w !! task_guild t) as [[p |] |]; world_simpl;
      (split; [by apply list_lookup_insert_eq |]).
    + exists [Disconnect (task_guild t)]. split; [done |].
      intros c Hc. by apply list_elem_of_singleton in Hc.
    + exists []. rewrite app_nil_r. split; [done |]. intros c Hc. by apply elem_of_nil in Hc.
    + exists []. rewrite app_nil_r. split; [done |]. intros c Hc. by apply elem_of_nil in Hc.
Qed.

Lemma foldl_wake (now : float) (l : list nat) (w : World) :
  NoDup l →
  let w' := foldl (wake now) w l in
  (∀ j, j ∉ l → tasks w' !! j = tasks w !! j)
  ∧ (∀ i t, i ∈ l → tasks w !! i = Some t → ¬ due now t → tasks w' !! i = Some t)
  ∧ (∀ i t, i ∈ l → tasks w !! i = Some t → due now t →
       ∃ t', tasks w' !! i = Some t' ∧ task_state t' = Finished
             ∧ task_guild t' = task_guild t)
  ∧ ∃ cs, calls w' = calls w ++ cs
          ∧ ∀ c, c ∈ cs → ∃ i t, i ∈ l ∧ tasks w !! i = Some t ∧ due now t
                                ∧ c = Disconnect (task_guild t).
Proof.
  revert w; induction l as [| i l IH]; intros w Hnd.
  { simpl. split; [done |]. split; [intros i t Hi; by apply elem_of_nil in Hi |].
    split; [intros i t Hi; by apply elem_of_nil in Hi |].
    exists []. rewrite app_nil_r. split; [done |]. intros c Hc. by apply elem_of_nil in Hc. }
  apply NoDup_cons in Hnd as [Hi Hnd].
  destruct (wake_effect now w i) as (Hother & Hskip & Hnone & Hfire).
  destruct (IH (wake now w i) Hnd) as (IHout & IHkeep & IHfire & cs & IHcalls & IHcs).
  cbn [foldl]. cbv zeta.
  assert (Hcalls1 : ∃ cs1, calls (wake now w i) = calls w ++ cs1
            ∧ ∀ c, c ∈ cs1 → ∃ t, tasks w !! i = Some t ∧ due now t
                                  ∧ c = Disconnect (task_guild t)).
  { assert (Hquiet : wake now w i = w →
              ∃ cs1, calls (wake now w i) = calls w ++ cs1
                ∧ ∀ c, c ∈ cs1 → ∃ t, tasks w !! i = Some t ∧ due now t
                                      ∧ c = Disconnect (task_guild t)).
    { intros ->. exists []. rewrite app_nil_r. split; [done |].
      intros c Hc. by apply elem_of_nil in Hc. }
    destruct (tasks w !! i) as [t |] eqn:Ht; [| by apply Hquiet, Hnone].
    destruct (task_state t) eqn:Hs.
    - destruct (PrimFloat.leb (wake_at t) now) eqn:Hd.
      + destruct (Hfire t eq_refl (conj Hs Hd)) as (_ & cs1 & Hc1 & Hall).
        exists cs1. split; [done |]. intros c Hc. exists t. split; [done |].
        split; [done | by apply Hall].
      + apply Hquiet, (Hskip t eq_refl). intros [_ ?]. congruence.
    - apply Hquiet, (Hskip t eq_refl). intros [? _]. congruence.
    - apply Hquiet, (Hskip t eq_refl). intros [? _]. congruence. }
  destruct Hcalls1 as (cs1 & Hc1 & Hcs1).
  split; [| split; [| split]].
  - intros j Hj. apply not_elem_of_cons in Hj as [Hne Hj].
    rewrite IHout by done. by apply Hother.
  - intros k t Hk Ht Hnot. apply elem_of_cons in Hk as [-> | Hk].
    + rewrite IHout by done. by rewrite (Hskip t Ht Hnot).
    + apply IHkeep; [done | | done]. rewrite Hother; [done | by intros ->].
  - intros k t Hk Ht Hdue. apply elem_of_cons in Hk as [-> | Hk].
    + rewrite IHout by done. destruct (Hfire t Ht Hdue) as [-> _]. eauto.
    + apply IHfire; [done | | done]. rewrite Hother; [done | by intros ->].
  - exists (cs1 ++ cs). rewrite IHcalls, Hc1, app_assoc. split; [done |].
    intros c Hc. apply elem_of_app in Hc as [Hc | Hc].
    + destruct (Hcs1 c Hc) as (t & Ht & Hdue & ->). exists i, t.
      split; [by left | done].
    + destruct (IHcs c Hc) as (k & t & Hk & Ht & Hdue & ->). exists k, t.
      split; [by right |]. split; [| done].
      rewrite <- Ht. symmetry. apply Hother. by intros ->.
Qed.

(** X21. Running the timers at a time [now] disconnects only guilds of timers
    that were sleeping with their deadline reached: each such timer ends
    finished, every other timer is unchanged, none is added, and no session
    and nothing stored changes. *)
Theorem run_timers_fires_due_sleepers_only (now : float) (w : World) :
  let w' := run_timers now w in
  (∀ c, c ∈ calls_since w w' →
     ∃ i t, tasks w !! i = Some t ∧ due now t ∧ c = Disconnect (task_guild t))
  ∧ (∀ i t, tasks w !! i = Some t → ¬ due now t → tasks w' !! i = Some t)
  ∧ (∀ i t, tasks w !! i = Some t → due now t →
       ∃ t', tasks w' !! i = Some t' ∧ task_state t' = Finished)
  ∧ (∀ i, tasks w !! i = None → tasks w' !! i = None)
  ∧ sessions w' = sessions w ∧ store w' = store w.
Proof.
  intros w'. unfold w', run_timers.
  destruct (foldl_wake now (seq 0 (length (tasks w))) w (NoDup_seq 0 _))
    as (Hout & Hkeep & Hfire & cs & Hcalls & Hcs).
  assert (Hin : ∀ i t, tasks w !! i = Some t → i ∈ seq 0 (length (tasks w))).
  { intros i t Ht. apply elem_of_seq. apply lookup_lt_Some in Ht. lia. }
  split; [| split; [| split; [| split]]].
  - intros c Hc. rewrite (calls_since_app _ _ cs) in Hc by done.
    destruct (Hcs c Hc) as (i & t & _ & Ht & Hdue & ->). eauto.
  - intros i t Ht Hnot. by apply Hkeep; [eapply Hin | |].
  - intros i t Ht Hdue. destruct (Hfire i t) as (t' & Ht' & Hst & _); eauto.
  - intros i Hi. rewrite Hout; [done |]. rewrite elem_of_seq.
    apply lookup_ge_None in Hi. lia.
  - split; [apply run_timers_sessions | apply run_timers_store].
Qed.

(** X22. The early answers of [play_query].  Without a voice channel it
    answers to join one and changes nothing.  For a user in a voice
    channel, when the pool has a node or the guild already has a voice
    client (with neither, connecting the player raises and there is no
    answer): with no node it answers that Lavalink is not connected, with
    a node and nothing found that no tracks were found; either way the
    guild has a player afterwards, and the queue, the saved queues and the
    timers are as they were. *)
Theorem play_query_rejections (e : Env) (nodes : bool) (results : SearchResult)
    (g : Z) (user : Member) (ch : Z) (w : World) :
  let incoming := match results with Playlist l => l | Tracks l => take 1 l end in
  (voice_channel user = None →
   play_query e nodes results g user ch w = Some ("Join a voice channel first."%string, w))
  ∧ (is_Some (voice_channel user) →
     nodes = true ∨ is_Some (player_of g w) →
     nodes = false ∨ incoming = [] →
     ∃ w', play_query e nodes results g user ch w
           = Some ((if nodes then "No tracks found." else "Lavalink is not connected.")%string,
                   w')
       ∧ queue (session_of g w') = queue (session_of g w)
       ∧ persistent_queue (store w') = persistent_queue (store w)
       ∧ tasks w' = tasks w
       ∧ is_Some (player_of g w')).
Proof.
  intros incoming.
  destruct (play_query_effect e nodes results g user ch w) as
    (msg & w' & Hq & _ & Hvoice & _ & Hrej & _).
  split.
  - intros Hnone. destruct (Hvoice Hnone) as [-> ->]. exact Hq.
  - intros Hin _ Hearly. destruct (Hrej Hin Hearly) as (-> & Hframe).
    by exists w'.
Qed.

(** X23. A [play_query] from a user in a voice channel sets the session's default
    volume to the stored volume of the guild, where a missing row, a NULL
    and a stored 0 all read as 100; loop mode and retry counts are kept. *)
Theorem play_query_restores_volume (e : Env) (nodes : bool) (results : SearchResult)
    (g : Z) (user : Member) (ch : Z) (w : World) :
  is_Some (voice_channel user) →
  ∃ msg w', play_query e nodes results g user ch w = Some (msg, w')
    ∧ default_volume (session_of g w') = stored_volume g (store w)
    ∧ (∀ row, guild_settings (store w) !! g = Some row →
         (gs_volume row = None ∨ gs_volume row = Some 0 → stored_volume g (store w) = 100)
         ∧ (∀ v, gs_volume row = Some v → v ≠ 0 → stored_volume g (store w) = v))
    ∧ (guild_settings (store w) !! g = None → stored_volume g (store w) = 100)
    ∧ loop_mode (session_of g w') = loop_mode (session_of g w)
    ∧ retry_attempts (session_of g w') = retry_attempts (session_of g w).
Proof.
  intros Hvoice.
  destruct (play_query_effect e nodes results g user ch w) as
    (msg & w' & Hq & _ & _ & Hfields & _).
  destruct (Hfields Hvoice) as (Hv & Hl & Hr).
  exists msg, w'. split; [done |]. split; [done |].
  unfold stored_volume. split; [| split; [by intros -> | done]].
  intros row ->. split.
  - by intros [-> | ->].
  - intros v -> Hv0. unfold or_int. by case_decide.
Qed.

Lemma play_query_restores_volume_witness :
  ∃ msg w',
    play_query (env_at 1010) true (Tracks [song_b]) 7 listener 71
      (set_volume 7 (GuildMember listener) 0
         (has_dj 7 (GuildMember listener) idle_world).2).2 = Some (msg, w')
    ∧ default_volume (session_of 7 w') = 100.
Proof.
  destruct (play_query_restores_volume (env_at 1010) true (Tracks [song_b]) 7 listener 71
              (set_volume 7 (GuildMember listener) 0
                 (has_dj 7 (GuildMember listener) idle_world).2).2)
    as (msg & w' & Hq & Hv & _); [by eexists |].
  exists msg, w'. split; [exact Hq |]. rewrite Hv. reflexivity.
Defined.

(** X24. If the saved snapshot of a guild equals its pending queue, it still does
    after any controller operation on any guild: advance, query, track end,
    track exception, remove, clear, shuffle, stop, loop, volume, pause, skip,
    seek, queue text, the DJ check and the timers; and those that can fail
    do not. *)
Theorem handlers_keep_snapshot_in_sync (g g' : Z) (w : World) :
  in_sync g' w →
  (∀ e ch, ∃ w', play_next e g ch w = Some w' ∧ in_sync g' w')
  ∧ (∀ e nodes results user ch,
       ∃ r, play_query e nodes results g user ch w = Some r ∧ in_sync g' r.2)
  ∧ (∀ e x, ∃ w', handle_track_end e (failure g x) w = Some w' ∧ in_sync g' w')
  ∧ (∀ e x, in_sync g' (handle_track_exception e (failure g x) w))
  ∧ (∀ i, ∃ r, remove g i w = Some r ∧ in_sync g' r.2)
  ∧ (∃ r, clear g w = Some r ∧ in_sync g' r.2)
  ∧ (∀ draws, ∃ r, shuffle draws g w = Some r ∧ in_sync g' r.2)
  ∧ (∀ user, ∃ r, stop g user w = Some r ∧ in_sync g' r.2)
  ∧ in_sync g' (toggle_loop g w).2
  ∧ (∀ user v, in_sync g' (set_volume g user v w).2)
  ∧ (∀ user, in_sync g' (toggle_pause g user w).1.2)
  ∧ (∀ user, in_sync g' (skip g user w).2)
  ∧ (∀ user secs, in_sync g' (seek g user secs w).1.2)
  ∧ (∀ limit, in_sync g' (get_queue_text g limit w).2)
  ∧ (∀ user, in_sync g' (has_dj g user w).2)
  ∧ (∀ now, in_sync g' (run_timers now w)).
Proof.
  intros Hsync.
  assert (Hk : ∀ w', keeps_sync g w w' → in_sync g' w') by (intros w' [_ Hall]; by apply Hall).
  assert (Hko : ∀ (A : Type) (run : option A) (snd' : A → World),
            (∃ r, run = Some r ∧ keeps_sync g w (snd' r)) →
            ∃ r, run = Some r ∧ in_sync g' (snd' r)).
  { intros A run snd' (r & Hr & Hkeep). exists r. split; [done | by apply Hk]. }
  split; [intros e ch; apply (Hko _ _ id), play_next_keeps_sync |].
  split; [intros e nodes results user ch; apply (Hko _ _ snd), play_query_keeps_sync |].
  split; [intros e x; apply (Hko _ _ id), handle_track_end_keeps_sync |].
  split; [intros e x; apply Hk, handle_track_exception_keeps_sync |].
  split; [intros i; apply (Hko _ _ snd), remove_keeps_sync |].
  split; [apply (Hko _ _ snd), clear_keeps_sync |].
  split; [intros draws; apply (Hko _ _ snd), shuffle_keeps_sync |].
  split; [intros user; apply (Hko _ _ snd), stop_keeps_sync |].
  split; [apply Hk, toggle_loop_keeps_sync |].
  split; [intros user v; apply Hk, set_volume_keeps_sync |].
  split; [intros user; apply Hk, toggle_pause_keeps_sync |].
  split; [intros user; apply Hk, skip_keeps_sync |].
  split; [intros user secs; apply Hk, seek_keeps_sync |].
  split; [intros limit; apply Hk, get_queue_text_keeps_sync |].
  split; [intros user; apply Hk, has_dj_keeps_sync |].
  intros now. apply Hk, run_timers_keeps_sync.
Qed.

Lemma handlers_keep_snapshot_in_sync_witness :
  ∃ r, play_query (env_at 1010) true (Tracks [song_b]) 7 listener 71 idle_world = Some r
       ∧ in_sync 7 r.2.
Proof.
  destruct (handlers_keep_snapshot_in_sync 7 7 idle_world) as (_ & Hq & _).
  - reflexivity.
  - apply Hq.
Defined.

(** X25. A controller operation on guild [g] changes neither the session nor the
    saved snapshot of any other guild. *)
Theorem handlers_touch_one_guild (g : Z) (w : World) :
  (∀ e ch, ∃ w', play_next e g ch w = Some w' ∧ only_guild g w w')
  ∧ (∀ e nodes results user ch,
       ∃ r, play_query e nodes results g user ch w = Some r ∧ only_guild g w r.2)
  ∧ (∀ e x, ∃ w', handle_track_end e (failure g x) w = Some w' ∧ only_guild g w w')
  ∧ (∀ e x, only_guild g w (handle_track_exception e (failure g x) w))
  ∧ (∀ i, ∃ r, remove g i w = Some r ∧ only_guild g w r.2)
  ∧ (∃ r, clear g w = Some r ∧ only_guild g w r.2)
  ∧ (∀ draws, ∃ r, shuffle draws g w = Some r ∧ only_guild g w r.2)
  ∧ (∀ user, ∃ r, stop g user w = Some r ∧ only_guild g w r.2)
  ∧ only_guild g w (toggle_loop g w).2
  ∧ (∀ user v, only_guild g w (set_volume g user v w).2)
  ∧ (∀ user, only_guild g w (toggle_pause g user w).1.2)
  ∧ (∀ user, only_guild g w (skip g user w).2)
  ∧ (∀ user secs, only_guild g w (seek g user secs w).1.2).
Proof.
  assert (Hko : ∀ (A : Type) (run : option A) (snd' : A → World),
            (∃ r, run = Some r ∧ keeps_sync g w (snd' r)) →
            ∃ r, run = Some r ∧ only_guild g w (snd' r)).
  { intros A run snd' (r & Hr & [Honly _]). by exists r. }
  split; [intros e ch; apply (Hko _ _ id), play_next_keeps_sync |].
  split; [intros e nodes results user ch; apply (Hko _ _ snd), play_query_keeps_sync |].
  split; [intros e x; apply (Hko _ _ id), handle_track_end_keeps_sync |].
  split; [intros e x; apply handle_track_exception_keeps_sync |].
  split; [intros i; apply (Hko _ _ snd), remove_keeps_sync |].
  split; [apply (Hko _ _ snd), clear_keeps_sync |].
  split; [intros draws; apply (Hko _ _ snd), shuffle_keeps_sync |].
  split; [intros user; apply (Hko _ _ snd), stop_keeps_sync |].
  split; [apply toggle_loop_keeps_sync |].
  split; [intros user v; apply set_volume_keeps_sync |].
  split; [intros user; apply toggle_pause_keeps_sync |].
  split; [intros user; apply skip_keeps_sync |].
  intros user secs. apply seek_keeps_sync.
Qed.

Lemma iter_advance_none (e : Env) (g ch : Z) (n : nat) :
  Nat.iter n (λ o, o ≫= play_next e g ch) None = None.
Proof. induction n as [| n IH]; [done |]. simpl. by rewrite IH. Qed.

(** X26. With loop mode off the queue is played first in, first out: as many
    advances as there are queued tracks play them in queue order, each once,
    each followed by the volume call and the embed; the history gains one
    row per track in that order, the queue and its snapshot end empty, the
    last track played is the current one, and no timer is touched. *)
Theorem queue_plays_in_order (e : Env) (g ch : Z) (w : World) (p : Player) :
  guilds w !! g = Some (Some p) →
  loop_mode (session_of g w) = Off →
  let ts := queue (session_of g w) in
  let v := default_volume (session_of g w) in
  ∃ w', Nat.iter (length ts) (λ o, o ≫= play_next e g ch) (Some w) = Some w'
    ∧ calls w' = calls w ++ concat (advance_calls g ch v <$> ts)
    ∧ playback_history (store w')
      = playback_history (store w) ++ (history_row g (utc_now e) <$> ts)
    ∧ queue (session_of g w') = []
    ∧ (ts ≠ [] → select_queue g (store w') = []
                 ∧ last_track (session_of g w') = last ts
                 ∧ (player_of g w' ≫= current) = last ts)
    ∧ tasks w' = tasks w.
Proof.
  intros Hg Hoff ts v. subst v.
  remember ts as l eqn:Hl. unfold ts in Hl. clear ts.
  revert w p Hg Hoff Hl. induction l as [| t rest IH]; intros w p Hg Hoff Hl.
  - exists w. simpl. rewrite !app_nil_r. by repeat split.
  - destruct (play_next_advance e g ch w p t rest Hg) as
      (w1 & Hnext & Hs1 & _ & Hp1 & _ & Hc1 & Ht1 & Hq1 & Hh1).
    { intros [_ Htrack]. congruence. }
    { unfold pending. rewrite Hoff, <- Hl. by destruct (current p). }
    apply player_of_lookup in Hp1 as Hg1.
    destruct (IH w1 _ Hg1) as (w' & Hit & Hc & Hh & Hq & Hlast & Ht).
    { by rewrite Hs1. }
    { by rewrite Hs1. }
    exists w'. cbn [length]. rewrite Nat.iter_succ_r. cbn beta. cbn [mbind option_bind].
    rewrite Hnext.
    split; [exact Hit |].
    rewrite Hs1 in Hc. cbn [default_volume with_last_track with_queue] in Hc.
    split; [by rewrite Hc, Hc1, fmap_cons, <- app_assoc |].
    split; [by rewrite Hh, Hh1, fmap_cons, <- app_assoc |].
    split; [done |]. split; [| congruence].
    intros _. destruct rest as [| t' rest'].
    + simpl in Hit. injection Hit as <-.
      rewrite Hq1, Hs1, Hp1. done.
    + destruct Hlast as (Hsel & Hlt & Hcur); [done |].
      by rewrite Hsel, Hlt, Hcur.
Qed.

Lemma queue_plays_in_order_witness :
  ∃ w', Nat.iter 2 (λ o, o ≫= play_next (env_at 1000) 7 71)
          (Some (world_with None (session_with [song_a; song_b] Off 0))) = Some w'
        ∧ calls w' = [Play 7 song_a; SetVolume 7 100; SendEmbed 71 song_a;
                      Play 7 song_b; SetVolume 7 100; SendEmbed 71 song_b].
Proof.
  destruct (queue_plays_in_order (env_at 1000) 7 71
              (world_with None (session_with [song_a; song_b] Off 0))
              {| channel := 70; current := None; playing := false; paused := false;
                 volume := 100 |}) as (w' & Hit & Hcalls & _); try reflexivity.
  exists w'. split; [exact Hit |]. rewrite Hcalls. reflexivity.
Defined.

(** The advance that starts a track, as one expression. *)
Lemma play_next_advance_eq (e : Env) (g ch : Z) (w : World) (p : Player)
    (next : Playable) (rest : list Playable) :
  guilds w !! g = Some (Some p) →
  ¬ (is_Some (current p) ∧ loop_mode (session_of g w) = Track) →
  pending (current p) (session_of g w) = next :: rest →
  play_next e g ch w
  = (let session := with_last_track (Some next) (with_queue rest (session_of g w)) in
     let w := set_session g session (set_session g (session_of g w) w) in
     let w := player_play g next w in
     let w := player_set_volume g (default_volume session) w in
     w ← _persist_queue g w;
     let w := with_store (add_history (utc_now e) g (_stored next) (store w)) w in
     Some (send_or_update_player_embed e g ch w)).
Proof.
  intros Hg Hnot Hpend. unfold play_next. rewrite Hg, session_lookup.
  cbv beta iota zeta. unfold pending in Hpend.
  destruct (current p) as [cur |] eqn:Hcur;
    destruct (loop_mode (session_of g w)) eqn:Hmode.
  all: try (exfalso; apply Hnot; split; [solve [eauto] | reflexivity]).
  all: cbv beta iota zeta; cbn [queue with_queue]; by rewrite Hpend.
Qed.

Lemma play_next_advance_settings (e : Env) (g ch : Z) (w : World) (p : Player)
    (next : Playable) (rest : list Playable) :
  guilds w !! g = Some (Some p) →
  ¬ (is_Some (current p) ∧ loop_mode (session_of g w) = Track) →
  pending (current p) (session_of g w) = next :: rest →
  ∃ w', play_next e g ch w = Some w'
    ∧ text_channels w' = text_channels w
    ∧ guild_settings (store w')
      = guild_settings (set_player_message g ch (sent_message_id e) (store w)).
Proof.
  intros Hg Hnot Hpend.
  rewrite (play_next_advance_eq e g ch w p next rest Hg Hnot Hpend).
  cbv beta iota zeta.
  rewrite persist_queue_eq. cbn [mbind option_bind].
  eexists; split; [reflexivity |].
  unfold send_or_update_player_embed; world_simpl.
  rewrite !lookup_alter_eq, Hg.
  cbn [fmap option_fmap option_map current default]; world_simpl.
  split; reflexivity.
Qed.

(** X27. The channel an advance posts its embed in is the one the next track end
    advances in: when the guild has a settings row the advance stores the
    channel and the message id, and a track end then equals an advance in
    that channel if it is a text channel with a non-zero id, and does
    nothing otherwise. Without a row the advance stores no channel, and the
    next track end only inserts the default row. *)
Theorem track_end_follows_embed_channel (e e' : Env) (g ch : Z) (w : World) (p : Player)
    (next : Playable) (rest : list Playable) :
  guilds w !! g = Some (Some p) →
  ¬ (is_Some (current p) ∧ loop_mode (session_of g w) = Track) →
  pending (current p) (session_of g w) = next :: rest →
  ∃ w', play_next e g ch w = Some w'
    ∧ (is_Some (guild_settings (store w) !! g) →
       (guild_settings (store w') !! g ≫= gs_last_text_channel) = Some ch
       ∧ (guild_settings (store w') !! g ≫= gs_player_message_id) = Some (sent_message_id e)
       ∧ (ch ≠ 0 → ch ∈ text_channels w →
          handle_track_end e' (failure g "") w' = play_next e' g ch w')
       ∧ (ch = 0 ∨ ch ∉ text_channels w →
          handle_track_end e' (failure g "") w' = Some w'))
    ∧ (guild_settings (store w) !! g = None →
       guild_settings (store w') = guild_settings (store w)
       ∧ ∃ w'', handle_track_end e' (failure g "") w' = Some w''
                ∧ guild_settings (store w'') !! g = Some default_settings
                ∧ calls w'' = calls w' ∧ sessions w'' = sessions w' ∧ guilds w'' = guilds w'
                ∧ tasks w'' = tasks w').
Proof.
  intros Hg Hnot Hpend.
  destruct (play_next_advance_settings e g ch w p next rest Hg Hnot Hpend)
    as (w' & Hnext & Htc & Hset).
  exists w'. split; [exact Hnext |].
  unfold set_player_message in Hset. cbn [guild_settings with_guild_settings] in Hset.
  split.
  - intros [row Hrow].
    assert (Hrow' : guild_settings (store w') !! g
                    = Some {| gs_dj_role_id := gs_dj_role_id row; gs_volume := gs_volume row;
                              gs_idle_timeout := gs_idle_timeout row;
                              gs_last_text_channel := Some ch;
                              gs_player_message_id := Some (sent_message_id e) |}).
    { by rewrite Hset, lookup_alter_eq, Hrow. }
    rewrite Hrow'. split; [done |]. split; [done |].
    rewrite (handle_track_end_row e' g "" w' _ Hrow'), Htc.
    unfold falsy. cbn [gs_last_text_channel default].
    split.
    + intros Hne Hin. rewrite bool_decide_eq_false_2 by done. by rewrite decide_True.
    + intros [-> | Hout]; [done |].
      destruct (bool_decide (ch = 0)); [done |]. by rewrite decide_False.
  - intros Hnone.
    assert (Hsame : guild_settings (store w') = guild_settings (store w)).
    { rewrite Hset. by apply alter_missing. }
    split; [done |].
    unfold handle_track_end, failure, get_guild_settings. cbn [payload_player].
    rewrite Hsame, Hnone. cbv beta iota zeta.
    unfold falsy, default_settings at 1. cbn [gs_last_text_channel].
    eexists. split; [reflexivity |]. world_simpl.
    cbn [guild_settings with_guild_settings]. by rewrite lookup_insert_eq.
Qed.

Lemma track_end_follows_embed_channel_witness :
  ∃ w', play_next (env_at 1000) 7 71
          (with_store (get_guild_settings 7 empty_db).2
             (world_with None (session_with [song_a] Off 0))) = Some w'
        ∧ (guild_settings (store w') !! 7 ≫= gs_last_text_channel) = Some 71
        ∧ handle_track_end (env_at 1200) (failure 7 "") w' = play_next (env_at 1200) 7 71 w'.
Proof.
  destruct (track_end_follows_embed_channel (env_at 1000) (env_at 1200) 7 71
              (with_store (get_guild_settings 7 empty_db).2
                 (world_with None (session_with [song_a] Off 0)))
              {| channel := 70; current := None; playing := false; paused := false;
                 volume := 100 |} song_a [])
    as (w' & Hnext & Hrow & _).
  - reflexivity.
  - intros [[c Hc] _]. discriminate.
  - reflexivity.
  - destruct Hrow as (Hch & _ & Hend & _); [by eexists |].
    exists w'. split; [exact Hnext |]. split; [exact Hch |].
    apply Hend; [lia | reflexivity].
Defined.

(** In loop mode "queue", the advances that play a prefix [ts] of the
    queue move the track that was current, and then each track played,
    to the tail. *)
Lemma loop_queue_prefix (e : Env) (g ch : Z) (ts : list Playable) :
  ∀ (w : World) (p : Player) (c0 : Playable) (tail : list Playable),
    guilds w !! g = Some (Some p) →
    current p = Some c0 →
    loop_mode (session_of g w) = Queue →
    queue (session_of g w) = ts ++ tail →
    ∃ w' p', Nat.iter (length ts) (λ o, o ≫= play_next e g ch) (Some w) = Some w'
      ∧ guilds w' !! g = Some (Some p')
      ∧ current p' = last (c0 :: ts)
      ∧ loop_mode (session_of g w') = Queue
      ∧ default_volume (session_of g w') = default_volume (session_of g w)
      ∧ queue (session_of g w') = tail ++ take (length ts) (c0 :: ts)
      ∧ calls w'
        = calls w ++ concat (advance_calls g ch (default_volume (session_of g w)) <$> ts)
      ∧ tasks w' = tasks w.
Proof.
  induction ts as [| t ts IH]; intros w p c0 tail Hg Hcur Hmode Hq.
  - exists w, p. simpl. rewrite !app_nil_r. simpl in Hq. by repeat split.
  - destruct (play_next_advance e g ch w p t (ts ++ (tail ++ [c0])) Hg) as
      (w1 & Hnext & Hs1 & _ & Hp1 & _ & Hc1 & Ht1 & _).
    { intros [_ Htrack]. congruence. }
    { unfold pending. rewrite Hcur, Hmode, Hq. by rewrite <- !app_assoc. }
    apply player_of_lookup in Hp1 as Hg1.
    destruct (IH w1 _ t (tail ++ [c0]) Hg1) as
      (w' & p' & Hit & Hg' & Hcur' & Hmode' & Hv' & Hq' & Hc' & Ht').
    { done. }
    { by rewrite Hs1. }
    { by rewrite Hs1. }
    exists w', p'. cbn [length]. rewrite Nat.iter_succ_r. cbn beta.
    cbn [mbind option_bind]. rewrite Hnext.
    split; [exact Hit |]. split; [done |]. split; [done |]. split; [done |].
    rewrite Hs1 in Hv', Hc'. cbn [default_volume with_last_track with_queue] in Hv', Hc'.
    split; [done |].
    split; [by rewrite Hq', <- app_assoc |].
    split; [by rewrite Hc', Hc1, fmap_cons, <- app_assoc | congruence].
Qed.

(** X28. In loop mode queue with a current track, one advance per queued track
    plus one plays the queue in order and then the track that was current,
    and ends where it began: same current track, same queue, still in loop
    mode queue, snapshot equal to the queue, no timer touched. *)
Theorem loop_queue_full_cycle (e : Env) (g ch : Z) (w : World) (p : Player) (c : Playable) :
  guilds w !! g = Some (Some p) →
  current p = Some c →
  loop_mode (session_of g w) = Queue →
  let q := queue (session_of g w) in
  let v := default_volume (session_of g w) in
  ∃ w', Nat.iter (S (length q)) (λ o, o ≫= play_next e g ch) (Some w) = Some w'
    ∧ (player_of g w' ≫= current) = Some c
    ∧ queue (session_of g w') = q
    ∧ loop_mode (session_of g w') = Queue
    ∧ calls w' = calls w ++ concat (advance_calls g ch v <$> (q ++ [c]))
    ∧ in_sync g w'
    ∧ tasks w' = tasks w.
Proof.
  intros Hg Hcur Hmode q v.
  destruct (loop_queue_prefix e g ch q w p c [] Hg Hcur Hmode) as
    (w1 & p1 & Hit & Hg1 & Hcur1 & Hmode1 & Hv1 & Hq1 & Hc1 & Ht1).
  { by rewrite app_nil_r. }
  destruct (last (c :: q)) as [x |] eqn:Hlast.
  2: { apply last_None in Hlast. discriminate. }
  apply last_Some in Hlast as [l' Hl'].
  assert (Hlen : length q = length l').
  { apply (f_equal length) in Hl'. rewrite length_app in Hl'. simpl in Hl'. lia. }
  destruct (play_next_advance e g ch w1 p1 c q Hg1) as
    (w' & Hnext & Hs' & _ & Hp' & _ & Hc' & Ht' & Hsel' & _).
  { intros [_ Htrack]. congruence. }
  { unfold pending. rewrite Hcur1, Hmode1, Hq1, app_nil_l, Hl', Hlen.
    by rewrite take_app_length. }
  exists w'. rewrite Nat.iter_succ, Hit. cbn [mbind option_bind].
  split; [exact Hnext |]. rewrite Hp', Hs'.
  cbn [mbind option_bind current queue loop_mode with_last_track with_queue].
  split; [done |]. split; [done |]. split; [done |].
  split.
  { rewrite Hc', Hc1, Hv1, fmap_app, concat_app, <- app_assoc. done. }
  split; [| congruence].
  unfold in_sync. rewrite Hsel', Hs'. done.
Qed.

Lemma loop_queue_full_cycle_witness :
  ∃ w', Nat.iter 3 (λ o, o ≫= play_next (env_at 1000) 7 71)
          (Some (world_with (Some song_a) (session_with [song_b; song_c] Queue 0))) = Some w'
        ∧ (player_of 7 w' ≫= current) = Some song_a
        ∧ queue (session_of 7 w') = [song_b; song_c].
Proof.
  destruct (loop_queue_full_cycle (env_at 1000) 7 71
              (world_with (Some song_a) (session_with [song_b; song_c] Queue 0))
              {| channel := 70; current := Some song_a; playing := true; paused := false;
                 volume := 100 |} song_a)
    as (w' & Hit & Hcur & Hq & _); try reflexivity.
  by exists w'.
Defined.

(** X29. [ensure_player] leaves a player in the requested voice channel and is
    idempotent: it connects a fresh player when the guild has none, moves
    the player (keeping its track) when it sits elsewhere, does nothing when
    it is already there; other guilds, sessions, store and timers are
    untouched. *)
Theorem ensure_player_connects_once (g voice : Z) (w : World) :
  let w' := ensure_player g voice w in
  (channel <$> player_of g w') = Some voice
  ∧ ensure_player g voice w' = w'
  ∧ (player_of g w = None →
     calls w' = calls w ++ [Connect g voice] ∧ player_of g w' = Some (new_player voice))
  ∧ (∀ p, player_of g w = Some p → channel p ≠ voice →
       calls w' = calls w ++ [MoveTo g voice]
       ∧ (current <$> player_of g w') = Some (current p)
       ∧ (playing <$> player_of g w') = Some (playing p))
  ∧ (∀ p, player_of g w = Some p → channel p = voice → w' = w)
  ∧ (∀ g', g' ≠ g → guilds w' !! g' = guilds w !! g')
  ∧ sessions w' = sessions w ∧ store w' = store w ∧ tasks w' = tasks w.
Proof.
  unfold ensure_player, player_of. cbv zeta.
  destruct (guilds w !! g) as [[p |] |] eqn:Hg; cbn [default id].
  - case_decide as Hch.
    + world_simpl. rewrite !lookup_alter_eq, Hg.
      cbn [fmap option_fmap option_map default id channel].
      rewrite decide_False by (by intros []).
      split; [done |]. split; [done |]. split; [done |].
      split; [by intros p' [= <-] _ |]. split; [by intros p' [= <-] Heq |].
      split; [intros g' Hne; by rewrite lookup_alter_ne | done].
    + rewrite ?Hg. cbn [default id fmap option_fmap option_map].
      rewrite decide_False by (by intros []).
      split; [by rewrite Hch |]. split; [done |]. split; [done |].
      split; [intros p' [= <-] Hne; by destruct Hne |]. done.
  - world_simpl. rewrite !lookup_insert_eq.
    cbn [fmap option_fmap option_map default id channel new_player].
    rewrite decide_False by (by intros []).
    split; [done |]. split; [done |]. split; [done |].
    split; [done |]. split; [done |].
    split; [intros g' Hne; by rewrite lookup_insert_ne | done].
  - world_simpl. rewrite !lookup_insert_eq.
    cbn [fmap option_fmap option_map default id channel new_player].
    rewrite decide_False by (by intros []).
    split; [done |]. split; [done |]. split; [done |].
    split; [done |]. split; [done |].
    split; [intros g' Hne; by rewrite lookup_insert_ne | done].
Qed.

End MusicMoreFacts.

(** * Further properties of the message handler *)

Module BotMoreFacts.
Import Store Music Bot Spec Samples MusicFacts BotFacts Commands Views.

Lemma lstrip_nil (s : Text) : lstrip s = [] → Forall (λ c, is_space c = true) s.
Proof.
  induction s as [| c s IH]; simpl; [constructor |].
  destruct (is_space c) eqn:Hc; [| done]. intros Hs. constructor; auto.
Qed.

(** Only text made of white space strips to nothing. *)
Lemma strip_nil (s : Text) : strip s = [] → Forall (λ c, is_space c = true) s.
Proof.
  unfold strip. intros Hs.
  destruct (lstrip_head s) as [Hl | (c & s' & Hl & Hc)]; [by apply lstrip_nil |].
  rewrite Hl in Hs. destruct (rstrip_head c s' Hc) as [r Hr]. by rewrite Hr in Hs.
Qed.

(** The text handling follows Python on code points beyond ASCII: the
    KELVIN SIGN lower-cases to "k", and a no-break space separates words. *)
Lemma kelvin_sign_and_no_break_space :
  (on_message 10 5000
     {| author_id := 11; author_bot := false; guild := Some 7;
        content := codes "s" ++ [8490] ++ codes "ip" ++ [160] ++ codes "now" |}
     bot_fresh).1
  = Dispatch "skip" [codes "now"].
Proof. vm_compute. reflexivity. Qed.

(** X30. Where [on_message] leaves a message, up to the dispatch.  A
    message is ignored exactly when its author is a bot or it has no
    guild, and it is rate-limited exactly when it is not ignored and
    comes less than 0.6 seconds after the stored time of its author; both
    leave the bot as it was.  A message that passes and is blank holds
    white space only.  Unless a command is dispatched the controller and
    the store are unchanged.  A dispatched command is a word of [known]:
    it is the lower-cased first word of the stripped text, the arguments
    are the other words, the message is from a guild, and both the
    cooldown of (guild, author, command) and the window of the author
    hold the current times. *)
Theorem on_message_outcomes (loop_now wall_now : float) (m : Message) (bot : DemonBot) :
  let r := on_message loop_now wall_now m bot in
  let last := default 0%float (user_message_window bot !! author_id m) in
  (r.1 = NotForUs ↔ author_bot m = true ∨ guild m = None)
  ∧ (r.1 = RateLimited ↔
     author_bot m = false ∧ is_Some (guild m)
     ∧ PrimFloat.ltb (PrimFloat.sub loop_now last) 0.6 = true)
  ∧ (passed r.1 = false → r.2 = bot)
  ∧ (r.1 = Blank → Forall (λ c, is_space c = true) (content m))
  ∧ ((∀ command args, r.1 ≠ Dispatch command args) → music r.2 = music bot)
  ∧ (∀ command args, r.1 = Dispatch command args →
       command ∈ known
       ∧ ∃ g first, guild m = Some g
           ∧ split (strip (content m)) = first :: args
           ∧ lower first = Some (codes command)
           ∧ command_cooldowns (store (music r.2)) !! (g, author_id m, command)
             = Some wall_now
           ∧ user_message_window r.2 !! author_id m = Some loop_now).
Proof.
  unfold on_message.
  destruct (guild m) as [g |].
  2: { split; [naive_solver |]. split; [split; [done | by intros (_ & [? [=]] & _)] |].
       by repeat split. }
  destruct (author_bot m).
  { split; [naive_solver |]. split; [split; [done | by intros ([=] & _)] |].
    by repeat split. }
  destruct (PrimFloat.ltb _ _).
  { split; [split; [done | by intros [[=] | [=]]] |]. split; [by eauto |].
    by repeat split. }
  split; [split; [| by intros [[=] | [=]]] |].
  2: split; [split; [| by intros (_ & _ & [=])] |].
  3: split; [| split; [| split]].
  all: cbv zeta.
  all: case_decide as Hblank;
         [try done; try (by intros _; apply strip_nil); by repeat split |].
  all: destruct (split_strip_first (content m) Hblank) as (first & args & ->).
  all: destruct (known_command (lower first)) as [command |] eqn:Hknown;
         [| try done; by repeat split].
  all: apply known_command_known in Hknown as [Hin Hlower].
  all: cbn [music user_message_window]; unfold is_on_cooldown.
  all: destruct (command_cooldowns (store (music bot)) !! (g, author_id m, command))
         as [last_used |].
  all: try destruct (PrimFloat.ltb (PrimFloat.sub wall_now last_used) 1.2).
  all: cbn [fst snd music user_message_window store with_store command_cooldowns
            with_command_cooldowns]; try done.
  all: try (intros _; apply with_store_same).
  all: try (intros Hno; by destruct (Hno command args)).
  all: intros command' args' [= <- <-]; split; [done |]; exists g, first;
       by rewrite !lookup_insert_eq.
Qed.

End BotMoreFacts.
